(** * Typpete: the Z3 encoding of the Python type system (frontend/z3_types.py)

    A shallow embedding of [Z3Types.create_class_tree],
    [Z3Types.create_subtype_axioms], its union helpers,
    [declare_type_sort] and [create_classes_attributes].  The Z3 terms and
    formulas the Python code builds are data of the program; they are
    represented by the syntax trees [expr] and [formula], and their meaning
    is given by a first-order semantics over the term model of the [Type]
    datatype. *)

From stdpp Require Import base option list strings pretty gmap.

Set Warnings "-register-all,-clear-no-such-hyp".

Local Open Scope string_scope.
Local Open Scope list_scope.
Local Open Scope nat_scope.

(** ** Class names

    A key of [all_classes] is a Python [str] (an ordinary class such as
    ['object'], ['int'], ['class_A']) or a tuple of [str] (a parametric
    pseudo-class: the constructor name followed by its accessor names). *)

Inductive cname : Type :=
  | NStr (s : string)
  | NTuple (l : list string).

Global Instance cname_eq_dec : EqDecision cname.
Proof. solve_decision. Defined.

Global Instance cname_countable : Countable cname.
Proof.
  refine (inj_countable'
            (λ n, match n with NStr s => inl s | NTuple l => inr l end)
            (λ x, match x with inl s => NStr s | inr l => NTuple l end) _).
  by intros [].
Defined.

(** Python exceptions the modelled code can raise; [Z3Exception] is the
    exception of the Z3 bindings. *)
Inductive pyerr : Type :=
  IndexError | AttributeError | KeyError | TypeError | Z3Exception.

Global Instance pyerr_eq_dec : EqDecision pyerr.
Proof. solve_decision. Defined.

(** Result of a computation that may raise. *)
Inductive res (A : Type) : Type :=
  | Ok (a : A)
  | Err (e : pyerr).
Arguments Ok {A} a.
Arguments Err {A} e.

Global Instance res_bind : MBind res := λ A B f m,
  match m with Ok a => f a | Err e => Err e end.

Global Instance res_fmap : FMap res := λ A B f m,
  match m with Ok a => Ok (f a) | Err e => Err e end.

(** Result of a loop run with bounded fuel. *)
Inductive outcome (A : Type) : Type :=
  | Done (a : A)
  | Raise (e : pyerr)
  | OutOfFuel.
Arguments Done {A} a.
Arguments Raise {A} e.
Arguments OutOfFuel {A}.

(** ** Class nodes

    Modelled from the spec: class [ClassNode] (frontend/class_node.py) is not
    among the sources.  A class node is identified by its class name and
    holds an ordered list of parent nodes and an ordered list of child
    nodes; nodes are mutable shared objects, so they live in a store
    addressed by allocation index, and the lists hold indices. *)

Record ClassNode : Type := mkNode {
  name : cname;
  parents : list nat;
  children : list nat
}.

Abbreviation heap := (list ClassNode).

Definition node_name (h : heap) (i : nat) : option cname := name <$> h !! i.

(** Modelled from the spec: [ClassNode.all_children], the transitive
    descendants of a node, the node itself first, then the descendants of
    each child in order. *)
Fixpoint all_children_fuel (fuel : nat) (h : heap) (i : nat) : list nat :=
  match fuel with
  | 0 => []
  | S f =>
      i :: match h !! i with
           | Some n => concat (map (all_children_fuel f h) (children n))
           | None => []
           end
  end.

Definition all_children (h : heap) (i : nat) : list nat :=
  all_children_fuel (length h) h i.

(** Modelled from the spec: [ClassNode.all_parents], the transitive
    ancestors of a node, the node itself first. *)
Fixpoint all_parents_fuel (fuel : nat) (h : heap) (i : nat) : list nat :=
  match fuel with
  | 0 => []
  | S f =>
      i :: match h !! i with
           | Some n => concat (map (all_parents_fuel f h) (parents n))
           | None => []
           end
  end.

Definition all_parents (h : heap) (i : nat) : list nat :=
  all_parents_fuel (length h) h i.

(** Modelled from the spec: [ClassNode.find], the lookup of a class by name
    among the nodes reachable from the receiver through child links; [None]
    when there is none. *)
Definition find (h : heap) (i : nat) (nm : cname) : option nat :=
  snd <$> list_find (λ j, node_name h j = Some nm) (all_children h i).

(** ** The class hierarchy builder *)

(** [all_classes] is an ordered dictionary from class name to the list of
    its base names. *)
Abbreviation class_dict := (list (cname * list cname)).

Definition keys (d : class_dict) : list cname := d.*1.

Fixpoint dict_get (d : class_dict) (k : cname) : option (list cname) :=
  match d with
  | [] => None
  | (k', v) :: d' => if decide (k' = k) then Some v else dict_get d' k
  end.

(** [base_node.children.append(current_node)] *)
Definition append_child (h : heap) (b cur : nat) : heap :=
  alter (λ n, mkNode (name n) (parents n) (children n ++ [cur])) b h.

(** [current_node.parents.append(base_node)] *)
Definition append_parent (h : heap) (cur b : nat) : heap :=
  alter (λ n, mkNode (name n) (parents n ++ [b]) (children n)) cur h.

(** The loop [for base in bases] that links the new node to its bases. *)
Fixpoint attach (h : heap) (cur : nat) (bases : list cname) : res heap :=
  match bases with
  | [] => Ok h
  | base :: rest =>
      match find h 0 base with
      | Some b => attach (append_child (append_parent h cur b) b cur) cur rest
      | None => Err AttributeError
      end
  end.

Record tree_state : Type := mkState {
  graph : heap;
  to_cover : list cname;
  covered : gset cname;
  idx : nat
}.

(** [for base in bases: if base not in covered: cont = True; break] *)
Definition cont_flag (cov : gset cname) (bases : list cname) : bool :=
  bool_decide (Exists (λ base, base ∉ cov) bases).

(** One iteration of the [while] loop, for [current = to_cover[i]]. *)
Definition tree_step (all_classes : class_dict) (st : tree_state)
    (current : cname) : res tree_state :=
  match dict_get all_classes current with
  | None => Err KeyError
  | Some bases =>
      if cont_flag (covered st) bases then
        Ok (mkState (graph st) (to_cover st ++ [current]) (covered st) (S (idx st)))
      else
        let cur := length (graph st) in
        g ← attach (graph st ++ [mkNode current [] []]) cur bases;
        Ok (mkState g (to_cover st) ({[current]} ∪ covered st) (S (idx st)))
  end.

Fixpoint tree_loop (fuel : nat) (all_classes : class_dict) (st : tree_state)
    : outcome tree_state :=
  match to_cover st !! idx st with
  | None => Done st
  | Some current =>
      match fuel with
      | 0 => OutOfFuel
      | S f =>
          match tree_step all_classes st current with
          | Ok st' => tree_loop f all_classes st'
          | Err e => Raise e
          end
      end
  end.

Definition tree_init (all_classes : class_dict) : tree_state :=
  mkState [mkNode (NStr "object") [] []] (keys all_classes) {[NStr "object"]} 0.

Definition create_class_tree_state (fuel : nat) (all_classes : class_dict)
    : outcome tree_state :=
  tree_loop fuel all_classes (tree_init all_classes).

Definition outcome_map {A B} (f : A → B) (o : outcome A) : outcome B :=
  match o with Done a => Done (f a) | Raise e => Raise e | OutOfFuel => OutOfFuel end.

(** [Z3Types.create_class_tree]: the store of the nodes; the root
    ['object'] is node 0. *)
Definition create_class_tree (fuel : nat) (all_classes : class_dict)
    : outcome heap :=
  outcome_map graph (create_class_tree_state fuel all_classes).

(** ** Z3 terms and formulas

    The type sort is the Z3 datatype [Type]; [IntSort] is the sort of the
    default-argument count of a function type. *)

Inductive sort : Type := TypeSort | IntSort.

Global Instance sort_eq_dec : EqDecision sort.
Proof. solve_decision. Defined.

(** [Const(name, sort)]: a Z3 constant is identified by its name and sort. *)
Record var : Type := mkVar { vname : string; vsort : sort }.

Global Instance var_eq_dec : EqDecision var.
Proof. solve_decision. Defined.

Inductive expr : Type :=
  | EVar (v : var)
  | ECon (c : string) (args : list expr)   (* a constructor [getattr(type_sort, c)] applied to [args] *)
  | EAcc (a : string) (e : expr).          (* an accessor [getattr(type_sort, a)] applied to [e] *)

Inductive formula : Type :=
  | FEq (a b : expr)                       (* [a == b] *)
  | FNeq (a b : expr)                      (* [a != b] *)
  | FSubtype (a b : expr)                  (* [self.subtype(a, b)] *)
  | FIs (c : string) (e : expr)            (* [getattr(type_sort, "is_" + c)(e)] *)
  | FNot (f : formula)
  | FAnd (fs : list formula)
  | FOr (fs : list formula)
  | FIff (f g : formula)                   (* [f == g] on Booleans *)
  | FForAll (vs : list var) (body : formula) (patterns : list formula).

(** ** Configuration

    [config] (frontend/config.py) and the inference configuration are inputs
    of the modelled code. *)

Record Config : Type := mkConfig {
  max_tuple_length : nat;
  max_function_args : nat;
  maximum_union_length : nat;
  none_subtype_of_all : bool
}.

(** [range(2, max_union_length + 1)] *)
Definition union_range (cfg : Config) : list nat :=
  seq 2 (maximum_union_length cfg + 1 - 2).

(** ["union_{}".format(cur_len)] and ["union_{}_arg_{}".format(cur_len, i)] *)
Definition union_name (cur_len : nat) : string := "union_" +:+ pretty cur_len.
Definition union_arg_name (cur_len i : nat) : string :=
  "union_" +:+ pretty cur_len +:+ "_arg_" +:+ pretty i.

(** ** Literals of class nodes *)

Definition ends_with (suf s : string) : bool :=
  String.prefix (String.rev suf) (String.rev s).

(** [isinstance(c.name, tuple) and c.name[0].startswith(pre)]; on the empty
    tuple [c.name[0]] raises, which [get_literal] has done before any of
    these tests is reached. *)
Definition starts (pre : string) (c : ClassNode) : bool :=
  match name c with
  | NTuple (c0 :: _) => String.prefix pre c0
  | _ => false
  end.

(** Modelled from the spec: [ClassNode.quantified], the bound variables
    [y0], [y1], ... of a parametric pseudo-class, one per field of its
    constructor and of the field's sort (the integer sort for the
    default-argument count of a function, the type sort otherwise); none for
    an ordinary class. *)
Definition quantified (c : ClassNode) : list var :=
  match name c with
  | NTuple (_ :: accs) =>
      imap (λ i arg, mkVar ("y" +:+ pretty i)
                       (if ends_with "defaults_args" arg then IntSort else TypeSort)) accs
  | _ => []
  end.

(** Modelled from the spec: [ClassNode.get_literal], the class constructor,
    applied for a parametric pseudo-class to its bound variables. *)
Definition get_literal (c : ClassNode) : res expr :=
  match name c with
  | NStr s => Ok (ECon s [])
  | NTuple [] => Err IndexError
  | NTuple (c0 :: _) => Ok (ECon c0 (EVar <$> quantified c))
  end.

(** Modelled from the spec: [ClassNode.get_literal_with_args], the literal
    rewritten with the substructure of [x]: the constructor applied to its
    accessors at [x]. *)
Definition get_literal_with_args (c : ClassNode) (x : expr) : res expr :=
  match name c with
  | NStr s => Ok (ECon s [])
  | NTuple [] => Err IndexError
  | NTuple (c0 :: accs) => Ok (ECon c0 ((λ a, EAcc a x) <$> accs))
  end.

(** ** The subtyping axioms *)

Definition x_const : var := mkVar "x" TypeSort.

Fixpoint mapM_res {A B} (f : A → res B) (l : list A) : res (list B) :=
  match l with
  | [] => Ok []
  | a :: l' => b ← f a; bs ← mapM_res f l'; Ok (b :: bs)
  end.

(** [l[i]] and [l[-1]] *)
Definition py_index {A} (l : list A) (i : nat) : res A :=
  match l !! i with Some a => Ok a | None => Err IndexError end.
Definition py_last {A} (l : list A) : res A :=
  match last l with Some a => Ok a | None => Err IndexError end.
(** [l[1:-1]] *)
Definition py_inner {A} (l : list A) : list A := take (length l - 2) (drop 1 l).
(** [enumerate(l)] *)
Definition enumerate {A} (l : list A) : list (nat * A) := imap pair l.

Definition nodes_of (h : heap) (ids : list nat) : list (nat * ClassNode) :=
  omap (λ j, pair j <$> h !! j) ids.

(** ** The attributes of the type sort *)

(** An [OrderedDict] with string keys: assignment to a present key keeps
    its position, assignment to a new key appends. *)
Fixpoint od_set {V} (d : list (string * V)) (k : string) (v : V) : list (string * V) :=
  match d with
  | [] => [(k, v)]
  | (k', v') :: d' => if decide (k' = k) then (k, v) :: d' else (k', v') :: od_set d' k v
  end.

Fixpoint od_get {V} (d : list (string * V)) (k : string) : option V :=
  match d with
  | [] => None
  | (k', v) :: d' => if decide (k' = k) then Some v else od_get d' k
  end.

(** A declared constructor: its name and its fields (accessor name and
    sort), as passed to [type_sort.declare]. *)
Abbreviation signature := (list (string * list (string * sort))).

(** What [getattr(type_sort, name)] returns.  [create()] sets on the sort
    object an attribute for every declared constructor, the constant itself
    when the constructor has no field and the constructor function
    otherwise, and one for every accessor.  (It also sets the recognisers
    [is_<constructor>], which [_not_union] uses; they and the attributes of
    the Python object are no components of class names and are not looked
    up by name here.) *)
Inductive sort_attr : Type :=
  | AttrConst
  | AttrCon (fields : list (string * sort))
  | AttrAcc (s : sort).

(** The sort of the field the accessor [a] reads. *)
Fixpoint acc_sort (type_sort : signature) (a : string) : option sort :=
  match type_sort with
  | [] => None
  | (_, fields) :: type_sort' =>
      match od_get fields a with
      | Some s => Some s
      | None => acc_sort type_sort' a
      end
  end.

(** [getattr(type_sort, name)] *)
Definition sort_attr_of (type_sort : signature) (name : string) : res sort_attr :=
  match od_get type_sort name with
  | Some [] => Ok AttrConst
  | Some fields => Ok (AttrCon fields)
  | None =>
      match acc_sort type_sort name with
      | Some s => Ok (AttrAcc s)
      | None => Err AttributeError
      end
  end.

(** The sort of a term. *)
Definition expr_sort (type_sort : signature) (e : expr) : sort :=
  match e with
  | EVar v => vsort v
  | ECon _ _ => TypeSort
  | EAcc a _ => default TypeSort (acc_sort type_sort a)
  end.

(** [getattr(type_sort, name)(args)]: a constant is not callable, and the
    Z3 bindings refuse a function applied to a wrong number of arguments or
    to an argument that has not the sort of its field. *)
Definition z3_call (type_sort : signature) (name : string) (args : list expr)
    : res expr :=
  attr ← sort_attr_of type_sort name;
  match attr with
  | AttrConst => Err TypeError
  | AttrCon fields =>
      if decide (expr_sort type_sort <$> args = fields.*2)
      then Ok (ECon name args) else Err Z3Exception
  | AttrAcc _ =>
      match args with
      | [e] => if decide (expr_sort type_sort e = TypeSort)
               then Ok (EAcc name e) else Err Z3Exception
      | _ => Err Z3Exception
      end
  end.

(** [type_sort.none], the attribute used as a term: the constant. *)
Definition sort_constant (type_sort : signature) (name : string) : res expr :=
  attr ← sort_attr_of type_sort name;
  match attr with
  | AttrConst => Ok (ECon name [])
  | _ => Err Z3Exception
  end.

(** [self.subtype(a, b)]: [subtype] is a function on the type sort, and the
    Z3 bindings refuse an argument of another sort. *)
Definition z3_subtype (type_sort : signature) (a b : expr) : res formula :=
  if decide (expr_sort type_sort a = TypeSort ∧ expr_sort type_sort b = TypeSort)
  then Ok (FSubtype a b) else Err Z3Exception.

Section Axioms.
Variable cfg : Config.

(** [Z3Types._not_union] *)
Definition _not_union (e : expr) : formula :=
  FAnd ((λ cur_len, FNot (FIs (union_name cur_len) e)) <$> union_range cfg).

(** The accessors of [x] at a union of length [cur_len]. *)
Definition union_args (x : expr) (cur_len : nat) : list expr :=
  (λ arg_i, EAcc (union_arg_name cur_len (arg_i + 1)) x) <$> seq 0 cur_len.

(** [Z3Types.get_union_as_union_supertype_axioms] *)
Definition get_union_as_union_supertype_axioms (options : list expr) (x : expr)
    : list formula :=
  (λ cur_len,
     let args := union_args x cur_len in
     FAnd (FEq x (ECon (union_name cur_len) args)
           :: (_not_union <$> args)
           ++ [FAnd ((λ o, FOr ((λ arg, FSubtype o arg) <$> args)) <$> options)]))
  <$> union_range cfg.

(** [Z3Types.get_union_as_supertype_axioms] *)
Definition get_union_as_supertype_axioms (c_literal x : expr) : list formula :=
  (λ cur_len,
     let args := union_args x cur_len in
     FAnd (FEq x (ECon (union_name cur_len) args)
           :: FOr ((λ arg, FSubtype c_literal arg) <$> args)
           :: (args ≫= λ arg,
                 (λ _ : nat, FNeq arg (ECon "union_2"
                                [EAcc "union_2_arg_1" arg; EAcc "union_2_arg_2" arg]))
                 <$> union_range cfg)))
  <$> union_range cfg.

(** [Z3Types.get_union_as_union_subtype_axioms] *)
Definition get_union_as_union_subtype_axioms (options : list expr) (x : expr)
    : list formula :=
  (λ cur_len,
     let args := union_args x cur_len in
     FAnd (FEq x (ECon (union_name cur_len) args)
           :: (_not_union <$> args)
           ++ [FAnd ((λ o, FOr ((λ arg, FSubtype arg o) <$> args)) <$> options)]))
  <$> union_range cfg.

(** [Z3Types.get_union_as_subtype_axioms] *)
Definition get_union_as_subtype_axioms (c_literal x : expr) : list formula :=
  (λ cur_len,
     let args := union_args x cur_len in
     FAnd (FEq x (ECon (union_name cur_len) args)
           :: ((λ arg, FSubtype arg c_literal) <$> args)))
  <$> union_range cfg.

(** The sort given to [create_subtype_axioms]. *)
Variable type_sort : signature.

(** The accessor terms of [x] for the names [c.name[1:]], when these name
    accessors. *)
Definition accessors_at (c : ClassNode) (x : expr) : list expr :=
  match name c with
  | NTuple (_ :: accs) => (λ acc_name, EAcc acc_name x) <$> accs
  | _ => []
  end.

(** [accessors]: [getattr(type_sort, acc_name)(x)] for [acc_name] in
    [c.name[1:]]. *)
Definition accessors_of (c : ClassNode) (x : expr) : res (list expr) :=
  match name c with
  | NTuple (_ :: accs) => mapM_res (λ acc_name, z3_call type_sort acc_name [x]) accs
  | _ => Ok []
  end.

(** [c.name[0]] *)
Definition constructor_name (c : ClassNode) : string :=
  match name c with
  | NTuple (c0 :: _) => c0
  | NStr s => s
  | NTuple [] => ""
  end.

(** The variance conjuncts [args_sub] of the axiom triggered by
    [subtype(C, X)]. *)
Definition args_sub_A (c : ClassNode) (accessors : list expr) : res (list formula) :=
  let consts := EVar <$> quantified c in
  if starts "tuple" c then
    mapM_res (λ '(i, accessor), ci ← py_index consts i;
                                 z3_subtype type_sort ci accessor)
             (enumerate accessors)
  else
    l ← mapM_res (λ '(i, accessor), ci ← py_index consts (i + 1);
                                     z3_subtype type_sort accessor ci)
                 (enumerate (py_inner accessors));
    cl ← py_last consts;
    al ← py_last accessors;
    s ← z3_subtype type_sort cl al;
    Ok (l ++ [s]).

(** The variance conjuncts [args_sub] of the axiom triggered by
    [subtype(X, C)]. *)
Definition args_sub_B (c : ClassNode) (accessors : list expr) : res (list formula) :=
  let consts := EVar <$> quantified c in
  if starts "tuple" c then
    mapM_res (λ '(i, accessor), ci ← py_index consts i;
                                 z3_subtype type_sort accessor ci)
             (enumerate accessors)
  else
    l ← mapM_res (λ '(i, accessor), ci ← py_index consts (i + 1);
                                     z3_subtype type_sort ci accessor)
                 (enumerate (py_inner accessors));
    cl ← py_last consts;
    al ← py_last accessors;
    s ← z3_subtype type_sort al cl;
    Ok (l ++ [s]).

(** The guard of the first axiom: [c.name != 'none' or c.name == 'none'
    and not config["none_subtype_of_all"]]. *)
Definition emits_A (c : ClassNode) : bool :=
  negb (bool_decide (name c = NStr "none"))
  || (bool_decide (name c = NStr "none") && negb (none_subtype_of_all cfg)).

(** The disjuncts [options] of the axiom triggered by [subtype(C, X)]. *)
Definition options_A (h : heap) (i : nat) (c : ClassNode) (c_literal : expr)
    : res (list formula) :=
  let x := EVar x_const in
  options ←
    (if starts "tuple" c || starts "func" c then
       accessors ← accessors_of c x;
       args_sub ← args_sub_A c accessors;
       con ← z3_call type_sort (constructor_name c) accessors;
       Ok [FAnd (FEq x con :: args_sub)]
     else if starts "union" c then
       subs ← mapM_res (λ con, z3_subtype type_sort (EVar con) x) (quantified c);
       Ok [FAnd (_not_union x :: subs)]
     else Ok []);
  bases ← (if starts "union" c then Ok []
           else mapM_res (λ '(_, base), lit ← get_literal base; Ok (FEq x lit))
                         (nodes_of h (all_parents h i)));
  Ok (options ++ bases
      ++ (if starts "union" c
          then get_union_as_union_supertype_axioms (EVar <$> quantified c) x
          else get_union_as_supertype_axioms c_literal x)).

(** The axiom triggered by [subtype(C, X)]. *)
Definition axiom_A (h : heap) (i : nat) (c : ClassNode) : res formula :=
  c_literal ← get_literal c;
  options ← options_A h i c c_literal;
  let subtype_expr := FSubtype c_literal (EVar x_const) in
  Ok (FForAll (x_const :: quantified c)
        (FIff subtype_expr
           (if starts "union" c
            then FAnd (((λ con, _not_union (EVar con)) <$> quantified c) ++ [FOr options])
            else FOr options))
        [subtype_expr]).

(** The disjuncts [options] of the axiom triggered by [subtype(X, C)]. *)
Definition options_B (h : heap) (i : nat) (c : ClassNode) (c_literal : expr)
    : res (list formula) :=
  let x := EVar x_const in
  options ← (if none_subtype_of_all cfg
             then none ← sort_constant type_sort "none"; Ok [FEq x none]
             else Ok []);
  variance ←
    (if starts "tuple" c || starts "func" c then
       accessors ← accessors_of c x;
       args_sub ← args_sub_B c accessors;
       con ← z3_call type_sort (constructor_name c) accessors;
       Ok [FAnd (FEq x con :: args_sub)]
     else Ok []);
  unions ←
    (if starts "union" c then
       subs ← mapM_res (λ con, z3_subtype type_sort x (EVar con)) (quantified c);
       Ok [FAnd [_not_union x; FOr subs]]
     else Ok []);
  subs ← (if starts "union" c then Ok []
          else mapM_res (λ '(j, sub),
                           if decide (j = i) then Ok (FEq x c_literal)
                           else lit ← get_literal_with_args sub x; Ok (FEq x lit))
                        (nodes_of h (all_children h i)));
  Ok (options ++ variance ++ unions ++ subs
      ++ (if starts "union" c
          then get_union_as_union_subtype_axioms (EVar <$> quantified c) x
          else get_union_as_subtype_axioms c_literal x)).

(** The axiom triggered by [subtype(X, C)]. *)
Definition axiom_B (h : heap) (i : nat) (c : ClassNode) : res formula :=
  c_literal ← get_literal c;
  options ← options_B h i c c_literal;
  let subtype_expr := FSubtype (EVar x_const) c_literal in
  Ok (FForAll (x_const :: quantified c)
        (FIff subtype_expr
           (if starts "union" c
            then FAnd (((λ con, _not_union (EVar con)) <$> quantified c) ++ [FOr options])
            else FOr options))
        [subtype_expr]).

(** [pat in s] on strings. *)
Definition contains (pat s : string) : bool :=
  match String.index 0 pat s with Some _ => true | None => false end.

(** [str(axiom)], the rendering of a formula by the Z3 bindings. *)
Variable z3_str : formula → string.

(** [if pat in str(axiom): print(axiom)] *)
Definition debug_print (pat : string) (axiom : formula) : list string :=
  if contains pat (z3_str axiom) then [z3_str axiom] else [].

(** The body of the loop [for c in tree.all_children()]: the axioms it
    appends and the lines it prints. *)
Definition node_axioms (h : heap) (i : nat) (c : ClassNode)
    : res (list formula * list string) :=
  c_literal ← get_literal c;
  '(axs, out) ←
    (if emits_A c then
       axiom ← axiom_A h i c;
       Ok ([axiom], debug_print "subtype(union_2(y0, y1), x)" axiom)
     else Ok ([], []));
  axiom ← axiom_B h i c;
  Ok (axs ++ [axiom], out ++ debug_print "subtype(x, union_2(y0, y1))" axiom).

Fixpoint axioms_loop (h : heap) (cs : list (nat * ClassNode))
    (axioms : list formula) (out : list string)
    : res (list formula * list string) :=
  match cs with
  | [] => Ok (axioms, out)
  | (i, c) :: cs' =>
      '(axs, o) ← node_axioms h i c;
      axioms_loop h cs' (axioms ++ axs) (out ++ o)
  end.

(** [Z3Types.create_subtype_axioms(all_classes, type_sort)]: the axioms
    returned and the lines written to standard output. *)
Definition create_subtype_axioms (fuel : nat) (all_classes : class_dict)
    : outcome (list formula * list string) :=
  match create_class_tree fuel all_classes with
  | Done tree =>
      match axioms_loop tree (nodes_of tree (all_children tree 0)) [] [] with
      | Ok r => Done r
      | Err e => Raise e
      end
  | Raise e => Raise e
  | OutOfFuel => OutOfFuel
  end.
End Axioms.

(** ** The type sort *)

(** [declare_type_sort], as the list of its [declare] calls.
    [classes] are the keys of [classes_to_instance_attrs]. *)
Definition declare_type_sort (cfg : Config) (classes : list string) : signature :=
  [("object", []); ("type", [("instance", TypeSort)]); ("none", []);
   ("complex", []); ("float", []); ("int", []); ("bool", []);
   ("sequence", []); ("str", []); ("bytes", []); ("tuple", [])]
  ++ ((λ cur_len,
         ("tuple_" +:+ pretty cur_len,
          (λ arg, ("tuple_" +:+ pretty cur_len +:+ "_arg_" +:+ pretty (arg + 1), TypeSort))
          <$> seq 0 cur_len))
      <$> seq 0 (max_tuple_length cfg + 1))
  ++ [("list", [("list_type", TypeSort)]);
      ("set", [("set_type", TypeSort)]);
      ("dict", [("dict_key_type", TypeSort); ("dict_value_type", TypeSort)])]
  ++ ((λ cur_len,
         ("func_" +:+ pretty cur_len,
          [("func_" +:+ pretty cur_len +:+ "_defaults_args", IntSort)]
          ++ ((λ arg, ("func_" +:+ pretty cur_len +:+ "_arg_" +:+ pretty (arg + 1), TypeSort))
              <$> seq 0 cur_len)
          ++ [("func_" +:+ pretty cur_len +:+ "_return", TypeSort)]))
      <$> seq 0 (max_function_args cfg + 1))
  ++ ((λ cls, ("class_" +:+ cls, [])) <$> classes)
  ++ ((λ cur_len,
         (union_name cur_len,
          (λ arg, (union_arg_name cur_len (arg + 1), TypeSort)) <$> seq 0 cur_len))
      <$> union_range cfg).

(** ** The attribute tables *)

(** [Const("class_{}_attr_{}".format(cls, attr), type_sort)] *)
Definition attr_const (cls attr : string) : var :=
  mkVar ("class_" +:+ cls +:+ "_attr_" +:+ attr) TypeSort.

(** [create_classes_attributes]: the state of [attributes_map] after the
    call. *)
Definition create_classes_attributes (classes_to_attrs : list (string * list string))
    (attributes_map : list (string * list (string * var)))
    : list (string * list (string * var)) :=
  foldl (λ m '(cls, attrs),
           od_set m cls (foldl (λ a attr, od_set a attr (attr_const cls attr)) [] attrs))
        attributes_map classes_to_attrs.

(** ** Semantics of the axioms

    Values are the terms of the datatype; an interpretation fixes the
    carrier of each sort, the accessors (total functions, free where the
    constructor does not match) and the relation [subtype]. *)

Inductive val : Type :=
  | VInt (z : Z)
  | VCon (c : string) (args : list val).

Record interp : Type := mkInterp {
  i_dom : sort → val → Prop;
  i_acc : string → val → val;
  i_sub : val → val → Prop
}.

Abbreviation env := (var → val).

Fixpoint bind (vs : list var) (vals : list val) (ρ : env) : env :=
  match vs, vals with
  | v :: vs', a :: vals' => λ w, if decide (w = v) then a else bind vs' vals' ρ w
  | _, _ => ρ
  end.

Fixpoint eval (M : interp) (ρ : env) (e : expr) : val :=
  match e with
  | EVar v => ρ v
  | ECon c args => VCon c (eval M ρ <$> args)
  | EAcc a e => i_acc M a (eval M ρ e)
  end.

Definition is_con (c : string) (v : val) : Prop :=
  match v with VCon c' _ => c' = c | VInt _ => False end.

Fixpoint sat (M : interp) (ρ : env) (f : formula) : Prop :=
  match f with
  | FEq a b => eval M ρ a = eval M ρ b
  | FNeq a b => eval M ρ a ≠ eval M ρ b
  | FSubtype a b => i_sub M (eval M ρ a) (eval M ρ b)
  | FIs c e => is_con c (eval M ρ e)
  | FNot f => ¬ sat M ρ f
  | FAnd fs =>
      (fix all (l : list formula) : Prop :=
         match l with [] => True | g :: l' => sat M ρ g ∧ all l' end) fs
  | FOr fs =>
      (fix any (l : list formula) : Prop :=
         match l with [] => False | g :: l' => sat M ρ g ∨ any l' end) fs
  | FIff f g => sat M ρ f ↔ sat M ρ g
  | FForAll vs body _ =>
      ∀ vals, Forall2 (λ v a, i_dom M (vsort v) a) vs vals → sat M (bind vs vals ρ) body
  end.

(** The accessors [accs] project the fields of the constructor [c]. *)
Definition projects (M : interp) (c : string) (accs : list string) : Prop :=
  ∀ vs, length vs = length accs → (λ a, i_acc M a (VCon c vs)) <$> accs = vs.

(** The standard accessors of a signature: the field where the constructor
    matches, [dflt] elsewhere. *)
Fixpoint field_index (a : string) (fields : list (string * sort)) : option nat :=
  match fields with
  | [] => None
  | (a', _) :: fs => if decide (a' = a) then Some 0 else S <$> field_index a fs
  end.

Fixpoint sig_find_acc (sg : signature) (a : string) : option (string * nat) :=
  match sg with
  | [] => None
  | (c, fields) :: sg' =>
      match field_index a fields with
      | Some k => Some (c, k)
      | None => sig_find_acc sg' a
      end
  end.

Definition sig_acc (sg : signature) (dflt : val) (a : string) (v : val) : val :=
  match sig_find_acc sg a, v with
  | Some (c, k), VCon c' args =>
      if decide (c' = c) then default dflt (args !! k) else dflt
  | _, _ => dflt
  end.

(** Well-sorted values of a signature. *)
Fixpoint has_sort (sg : signature) (s : sort) (v : val) {struct v} : bool :=
  match v, s with
  | VInt _, IntSort => true
  | VCon c args, TypeSort =>
      match od_get sg c with
      | Some fields =>
          (fix go (fs : list (string * sort)) (l : list val) {struct l} : bool :=
             match l, fs with
             | [], [] => true
             | a :: l', (_, s') :: fs' => has_sort sg s' a && go fs' l'
             | _, _ => false
             end) fields args
      | None => false
      end
  | _, _ => false
  end.

(** [patterns] of a quantified axiom. *)
Definition patterns_of (f : formula) : list formula :=
  match f with FForAll _ _ pats => pats | _ => [] end.

(** The table [create_classes_attributes] is meant to build: every class
    with its attributes in declaration order. *)
Definition attribute_table (classes_to_attrs : list (string * list string))
    : list (string * list (string * var)) :=
  (λ p : string * list string,
     (p.1, (λ attr : string, (attr, attr_const p.1 attr)) <$> p.2))
  <$> classes_to_attrs.

(** A rendering of terms and formulas in the notation of the Z3 Python
    bindings (without the line breaks of their pretty-printer). *)
Fixpoint show_expr (e : expr) : string :=
  match e with
  | EVar v => vname v
  | ECon c [] => c
  | ECon c args => c +:+ "(" +:+ String.concat ", " (map show_expr args) +:+ ")"
  | EAcc a e => a +:+ "(" +:+ show_expr e +:+ ")"
  end.

Fixpoint show_formula (f : formula) : string :=
  match f with
  | FEq a b => show_expr a +:+ " == " +:+ show_expr b
  | FNeq a b => show_expr a +:+ " != " +:+ show_expr b
  | FSubtype a b => "subtype(" +:+ show_expr a +:+ ", " +:+ show_expr b +:+ ")"
  | FIs c e => "is(" +:+ c +:+ ", " +:+ show_expr e +:+ ")"
  | FNot g => "Not(" +:+ show_formula g +:+ ")"
  | FAnd fs => "And(" +:+ String.concat ", " (map show_formula fs) +:+ ")"
  | FOr fs => "Or(" +:+ String.concat ", " (map show_formula fs) +:+ ")"
  | FIff g1 g2 => show_formula g1 +:+ " == " +:+ show_formula g2
  | FForAll vs body _ =>
      "ForAll([" +:+ String.concat ", " (map vname vs) +:+ "], " +:+ show_formula body +:+ ")"
  end.

(** The texts the two debugging tests look for. *)
Definition marker_A : string := "subtype(union_2(y0, y1), x)".
Definition marker_B : string := "subtype(x, union_2(y0, y1))".

(** The part of the worklist the loop has not visited yet. *)
Definition pending (st : tree_state) : list cname := drop (idx st) (to_cover st).

(** A class the loop would requeue: one of its bases is not covered. *)
Definition blocked (all_classes : class_dict) (cov : gset cname) (c : cname) : bool :=
  match dict_get all_classes c with
  | Some bases => cont_flag cov bases
  | None => false
  end.

(** A class declared with at least one base. *)
Definition linked (all_classes : class_dict) (nm : cname) : Prop :=
  ∃ bases, dict_get all_classes nm = Some bases ∧ bases ≠ [].

(** The root is ['object']; only classes declared with a base have parents
    or are children of a node. *)
Definition heap_inv (all_classes : class_dict) (h : heap) : Prop :=
  (∃ n0, h !! 0 = Some n0 ∧ name n0 = NStr "object")
  ∧ ∀ i n, h !! i = Some n →
      (parents n ≠ [] → linked all_classes (name n))
      ∧ ∀ j, j ∈ children n → ∃ m, h !! j = Some m ∧ linked all_classes (name m).

(** The environment in which the body of an axiom of the node [c] is
    evaluated: [x] bound to [a], the bound variables of [c] to [ys]. *)
Definition env_of (c : ClassNode) (a : val) (ys : list val) (ρ : env) : env :=
  bind (x_const :: quantified c) (a :: ys) ρ.

(** The values the quantifier of an axiom of [c] ranges over. *)
Definition in_dom (M : interp) (c : ClassNode) (a : val) (ys : list val) : Prop :=
  i_dom M TypeSort a ∧ Forall2 (λ v y, i_dom M (vsort v) y) (quantified c) ys.

(** The accessor names of the union of length [cur_len]. *)
Definition union_accs (cur_len : nat) : list string :=
  (λ arg_i, union_arg_name cur_len (arg_i + 1)) <$> seq 0 cur_len.

(** The body of an axiom: the disjunction of the options, guarded for a
    union pseudo-class by its members not being unions. *)
Definition axiom_body (cfg : Config) (c : ClassNode) (options : list formula) : formula :=
  if starts "union" c
  then FAnd (((λ con, _not_union cfg (EVar con)) <$> quantified c) ++ [FOr options])
  else FOr options.

(** The name of a pseudo-class is made of names of the sort: its first
    component names a constructor, and the others name no constructor (they
    name accessors when the sort has them at all). *)
Definition names_sort (type_sort : signature) (c : ClassNode) : Prop :=
  match name c with
  | NTuple (c0 :: accs) =>
      is_Some (od_get type_sort c0) ∧ Forall (λ a, od_get type_sort a = None) accs
  | _ => True
  end.

(** The variance conjuncts over the accessor terms of [x], as the
    generator builds them when the bindings accept every term. *)
Definition variance_A (c : ClassNode) (x : expr) : res (list formula) :=
  let accessors := accessors_at c x in
  let consts := EVar <$> quantified c in
  if starts "tuple" c then
    mapM_res (λ '(i, accessor), ci ← py_index consts i; Ok (FSubtype ci accessor))
             (enumerate accessors)
  else
    l ← mapM_res (λ '(i, accessor), ci ← py_index consts (i + 1);
                                     Ok (FSubtype accessor ci))
                 (enumerate (py_inner accessors));
    cl ← py_last consts;
    al ← py_last accessors;
    Ok (l ++ [FSubtype cl al]).

Definition variance_B (c : ClassNode) (x : expr) : res (list formula) :=
  let accessors := accessors_at c x in
  let consts := EVar <$> quantified c in
  if starts "tuple" c then
    mapM_res (λ '(i, accessor), ci ← py_index consts i; Ok (FSubtype accessor ci))
             (enumerate accessors)
  else
    l ← mapM_res (λ '(i, accessor), ci ← py_index consts (i + 1);
                                     Ok (FSubtype ci accessor))
                 (enumerate (py_inner accessors));
    cl ← py_last consts;
    al ← py_last accessors;
    Ok (l ++ [FSubtype al cl]).



(** The variance conjuncts and disjunct of the axioms of a function
    pseudo-class: arguments contravariant, return covariant. *)
Definition func_args_sub_A (c : ClassNode) (x : expr) : list formula :=
  let accessors := accessors_at c x in
  let consts := EVar <$> quantified c in
  zip_with (λ ci accessor, FSubtype accessor ci) (py_inner consts) (py_inner accessors)
  ++ match last consts, last accessors with
     | Some cl, Some al => [FSubtype cl al]
     | _, _ => []
     end.

Definition func_args_sub_B (c : ClassNode) (x : expr) : list formula :=
  let accessors := accessors_at c x in
  let consts := EVar <$> quantified c in
  zip_with FSubtype (py_inner consts) (py_inner accessors)
  ++ match last consts, last accessors with
     | Some cl, Some al => [FSubtype al cl]
     | _, _ => []
     end.

Definition func_option_A (c : ClassNode) : formula :=
  let x := EVar x_const in
  FAnd (FEq x (ECon (constructor_name c) (accessors_at c x)) :: func_args_sub_A c x).

Definition func_option_B (c : ClassNode) : formula :=
  let x := EVar x_const in
  FAnd (FEq x (ECon (constructor_name c) (accessors_at c x)) :: func_args_sub_B c x).

(** The disjuncts [x == base.get_literal()] of the first axiom and
    [x == c_literal], [x == sub.get_literal_with_args(x)] of the second. *)
Definition base_options (h : heap) (i : nat) : res (list formula) :=
  mapM_res (λ '(_, base), lit ← get_literal base; Ok (FEq (EVar x_const) lit))
           (nodes_of h (all_parents h i)).

Definition sub_options (h : heap) (i : nat) (c_literal : expr) : res (list formula) :=
  mapM_res (λ '(j, sub),
              if decide (j = i) then Ok (FEq (EVar x_const) c_literal)
              else lit ← get_literal_with_args sub (EVar x_const);
                   Ok (FEq (EVar x_const) lit))
           (nodes_of h (all_children h i)).

(** A value built by one of the union constructors of the configuration. *)
Definition is_union_val (cfg : Config) (a : val) : Prop :=
  ∃ k args, k ∈ union_range cfg ∧ a = VCon (union_name k) args.

(** The configuration with [none_subtype_of_all] set to [b]. *)
Definition with_flag (cfg : Config) (b : bool) : Config :=
  mkConfig (max_tuple_length cfg) (max_function_args cfg) (maximum_union_length cfg) b.

(** A value built by the constructor of the unions of length two. *)
Definition is_union2 (a : val) : Prop := ∃ u v, a = VCon "union_2" [u; v].

(** ** Invariants of the hierarchy builder *)

(** The loop of [create_class_tree] never ends: no number of iterations
    lets it return or raise. *)
Definition diverges (all_classes : class_dict) : Prop :=
  ∀ fuel, create_class_tree fuel all_classes = OutOfFuel.

(** Every declared class is covered or still pending, and the pending
    classes are declared. *)
Definition tree_inv (all_classes : class_dict) (st : tree_state) : Prop :=
  NStr "object" ∈ covered st
  ∧ (∀ c, c ∈ keys all_classes → c ∈ covered st ∨ c ∈ pending st)
  ∧ (∀ c, c ∈ pending st → c ∈ keys all_classes).

(** What the loop maintains: the heap invariant, and every declared class
    is covered or still pending. *)
Definition loop_inv (all_classes : class_dict) (st : tree_state) : Prop :=
  heap_inv all_classes (graph st)
  ∧ ∀ c, c ∈ keys all_classes → c ∈ covered st ∨ c ∈ pending st.

(** ** What the axiom generator prints *)

(** An axiom triggered by [subtype(c_literal, x)]: the first axiom of a
    node; the second is triggered by [subtype(x, c_literal)]. *)
Definition is_first_axiom (ax : formula) : bool :=
  match patterns_of ax with
  | [FSubtype _ (EVar v)] => bool_decide (v = x_const)
  | _ => false
  end.

(** The lines printed for a list of axioms: in order, the rendering of
    every first axiom that contains [marker_A] and of every second axiom
    that contains [marker_B]. *)
Definition printed_lines (str : formula → string) (axs : list formula) : list string :=
  axs ≫= λ ax, debug_print str (if is_first_axiom ax then marker_A else marker_B) ax.

(** ** A model

    The configuration with tuples of length at most one, functions of at
    most one argument, unions of length two, and the classes [int],
    [tuple_1] and [func_1] below [object]; and the subtype relation that
    interprets its axioms over the well-sorted values of its type sort. *)

Definition cfgW (b : bool) : Config := mkConfig 1 1 2 b.

Definition clsW : class_dict :=
  [(NStr "int", [NStr "object"]);
   (NTuple ["tuple_1"; "tuple_1_arg_1"], [NStr "object"]);
   (NTuple ["func_1"; "func_1_defaults_args"; "func_1_arg_1"; "func_1_return"],
    [NStr "object"])].

Definition objectW : ClassNode := mkNode (NStr "object") [] [1; 2; 3].
Definition intW : ClassNode := mkNode (NStr "int") [0] [].
Definition tupleW : ClassNode := mkNode (NTuple ["tuple_1"; "tuple_1_arg_1"]) [0] [].
Definition funcW : ClassNode :=
  mkNode (NTuple ["func_1"; "func_1_defaults_args"; "func_1_arg_1"; "func_1_return"])
    [0] [].

Definition treeW : heap := [objectW; intW; tupleW; funcW].

Definition sigW : signature := declare_type_sort (cfgW false) [].

Definition vobject : val := VCon "object" [].
Definition vint : val := VCon "int" [].
Definition vnone : val := VCon "none" [].

(** The literals of the classes of the hierarchy. *)
Definition tree_lit (v : val) : Prop :=
  v = vobject ∨ v = vint ∨ (∃ t, v = VCon "tuple_1" [t])
  ∨ (∃ d a r, v = VCon "func_1" [d; a; r]).

Inductive wsub (b : bool) : val → val → Prop :=
  | ws_none c : b = true → tree_lit c → wsub b vnone c
  | ws_refl c : tree_lit c → wsub b c c
  | ws_obj c : tree_lit c → wsub b c vobject
  | ws_tuple t s : wsub b t s → wsub b (VCon "tuple_1" [t]) (VCon "tuple_1" [s])
  | ws_func d d' a a' r r' :
      wsub b a' a → wsub b r r' →
      wsub b (VCon "func_1" [d; a; r]) (VCon "func_1" [d'; a'; r'])
  | ws_usup c u v :
      tree_lit c → ¬ is_union2 u → ¬ is_union2 v → wsub b c u ∨ wsub b c v →
      wsub b c (VCon "union_2" [u; v])
  | ws_usub c u v :
      tree_lit c → wsub b u c → wsub b v c → wsub b (VCon "union_2" [u; v]) c.

(** The accessors of the model: those of its signature. *)
Definition accW : string → val → val := sig_acc sigW vobject.

Definition MW (b : bool) : interp :=
  mkInterp (λ s v, has_sort sigW s v = true) accW (wsub b).

Definition ρW : env := λ _, vobject.

(** The construction of the hierarchy returns no tree, however many
    iterations its loop is given: it runs for ever or raises. *)
Definition never_returns (all_classes : class_dict) : Prop :=
  ∀ fuel tree, create_class_tree fuel all_classes ≠ Done tree.

(** ** Links of the hierarchy *)

(** [j] is a child of the node [i]. *)
Definition child_of (h : heap) (i j : nat) : Prop :=
  ∃ n, h !! i = Some n ∧ j ∈ children n.

(** The two appends of the loop [for base in bases], for the base node [b]
    and the new node [cur]. *)
Definition link (cur b : nat) (h : heap) : heap :=
  append_child (append_parent h cur b) b cur.

(** Child links and parent links mirror each other, and a node is allocated
    after its parents. *)
Definition links_inv (h : heap) : Prop :=
  ∀ i n, h !! i = Some n →
    (∀ j, j ∈ children n → i < j ∧ ∃ m, h !! j = Some m ∧ i ∈ parents m)
    ∧ (∀ p, p ∈ parents n → p < i ∧ ∃ m, h !! p = Some m ∧ i ∈ children m).

(** The parents of every node but the root are nodes of the declared bases
    of its class, in the order of the declaration. *)
Definition parents_inv (all_classes : class_dict) (h : heap) : Prop :=
  (∃ n0, h !! 0 = Some n0 ∧ name n0 = NStr "object" ∧ parents n0 = [])
  ∧ ∀ j n, h !! j = Some n → j ≠ 0 →
      ∃ bases, dict_get all_classes (name n) = Some bases
               ∧ Forall2 (λ p base, node_name h p = Some base) (parents n) bases.

(** What the loop of [create_class_tree] maintains on a dictionary (whose
    keys are distinct): the links mirror each other, the parents of a node
    are nodes of its bases, and no pending class is covered yet (but
    ['object'], covered from the start). *)
Definition tree_wf (all_classes : class_dict) (st : tree_state) : Prop :=
  links_inv (graph st) ∧ parents_inv all_classes (graph st)
  ∧ NoDup (pending st)
  ∧ (∀ c, c ∈ pending st → c ∈ covered st → c = NStr "object").

(** Every covered class has a node that is reachable from the root. *)
Definition reach_inv (st : tree_state) : Prop :=
  ∀ c, c ∈ covered st →
    ∃ j, rtc (child_of (graph st)) 0 j ∧ node_name (graph st) j = Some c.

(** ** A model of the axioms of a union pseudo-class

    The hierarchy with the pseudo-class of the unions of length two below
    [object], and the relation that holds between the values that are not
    unions or are unions of values that are not unions. *)

Definition clsU : class_dict :=
  [(NTuple ["union_2"; "union_2_arg_1"; "union_2_arg_2"], [NStr "object"])].

Definition objectU : ClassNode := mkNode (NStr "object") [] [1].
Definition unionU : ClassNode :=
  mkNode (NTuple ["union_2"; "union_2_arg_1"; "union_2_arg_2"]) [0] [].

Definition treeU : heap := [objectU; unionU].

Definition flat (b : bool) (v : val) : Prop :=
  ¬ is_union_val (cfgW b) v
  ∨ ∃ xs, v = VCon "union_2" xs ∧ Forall (λ x, ¬ is_union_val (cfgW b) x) xs.

Definition MU (b : bool) : interp :=
  mkInterp (λ s v, has_sort sigW s v = true) accW (λ v w, flat b v ∧ flat b w).

(** No interpretation of [subtype] over the values of the type sort of the
    configuration [cfgW b], with the accessors of the sort, satisfies all
    the axioms generated for the classes. *)
Definition unsatisfiable (b : bool) (all_classes : class_dict) (fuel : nat) : Prop :=
  ¬ ∃ R axs out,
      create_subtype_axioms (cfgW b) sigW show_formula fuel all_classes = Done (axs, out)
      ∧ Forall (sat (mkInterp (λ s v, has_sort sigW s v = true) accW R) ρW) axs.

(** ** The bookkeeping of the solver (class [TypesSolver])

    The part of the state of a [TypesSolver] that its methods [add],
    [init_axioms], [new_element_id] and [new_z3_const] read and write. *)

(** The sort of a constant the solver creates: a sort of the type system
    or [BoolSort()]. *)
Inductive const_sort : Type :=
  | SortOf (s : sort)
  | BoolSort.

Global Instance const_sort_eq_dec : EqDecision const_sort.
Proof. solve_decision. Defined.

Record z3const : Type := mkConst { const_name : string; const_sort_of : const_sort }.

Global Instance z3const_eq_dec : EqDecision z3const.
Proof. solve_decision. Defined.

(** [Implies(assertion, And(args))], as the solver records it. *)
Record tracked : Type := mkTracked { guard : z3const; conjuncts : list formula }.

Record TypesSolver : Type := mkSolver {
  element_id : nat;
  assertions_vars : list z3const;
  assertions_errors : list (z3const * string);
  assertions : list tracked
}.

(** The fields as the first lines of [__init__] set them. *)
Definition solver_new : TypesSolver := mkSolver 0 [] [] [].

(** [self.assertions_errors[assertion] = fail_message] and the lookup, on a
    [dict] in insertion order. *)
Fixpoint errors_set (d : list (z3const * string)) (k : z3const) (v : string)
    : list (z3const * string) :=
  match d with
  | [] => [(k, v)]
  | (k', v') :: d' =>
      if decide (k' = k) then (k, v) :: d' else (k', v') :: errors_set d' k v
  end.

Fixpoint errors_get (d : list (z3const * string)) (k : z3const) : option string :=
  match d with
  | [] => None
  | (k', v) :: d' => if decide (k' = k) then Some v else errors_get d' k
  end.

(** [TypesSolver.new_element_id] *)
Definition new_element_id (s : TypesSolver) : nat * TypesSolver :=
  let s' := mkSolver (element_id s + 1) (assertions_vars s) (assertions_errors s)
              (assertions s) in
  (element_id s', s').

(** [TypesSolver.new_z3_const]; [sort] is [None] when the argument is left
    out, and stands then for the type sort. *)
Definition new_z3_const (name : string) (sort : option const_sort) (s : TypesSolver)
    : z3const * TypesSolver :=
  let sort := default (SortOf TypeSort) sort in
  let '(id, s') := new_element_id s in
  (mkConst (name +:+ "_" +:+ pretty id) sort, s').

(** [TypesSolver.add] *)
Definition add (args : list formula) (fail_message : string) (s : TypesSolver)
    : TypesSolver :=
  let '(assertion, s1) := new_z3_const "assertion_bool" (Some BoolSort) s in
  mkSolver (element_id s1) (assertions_vars s1 ++ [assertion])
    (errors_set (assertions_errors s1) assertion fail_message)
    (assertions s1 ++ [mkTracked assertion args]).

(** [TypesSolver.init_axioms], for the list [subtyping] of the axioms. *)
Definition init_axioms (subtyping : list formula) (s : TypesSolver) : TypesSolver :=
  add subtyping "Subtyping error" s.

(** [TypesSolver.__init__]: the fields are set, then [self.init_axioms()]
    registers the axioms [subtyping] of the type system
    ([self.z3_types.subtyping]). *)
Definition solver_init (subtyping : list formula) : TypesSolver :=
  init_axioms subtyping solver_new.

(** A call of one of the two methods that create constants. *)
Inductive solver_call : Type :=
  | CallAdd (args : list formula) (fail_message : string)
  | CallNewConst (name : string) (sort : option const_sort).

Definition run_call (s : TypesSolver) (c : solver_call) : TypesSolver :=
  match c with
  | CallAdd args fail_message => add args fail_message s
  | CallNewConst name sort => (new_z3_const name sort s).2
  end.

Definition run_calls (calls : list solver_call) (s : TypesSolver) : TypesSolver :=
  foldl run_call s calls.

(** The arguments of the calls of [add], in order. *)
Definition added (calls : list solver_call) : list (list formula * string) :=
  omap (λ c, match c with
             | CallAdd args fail_message => Some (args, fail_message)
             | CallNewConst _ _ => None
             end) calls.

(** The constant a call returns or registers, run from the state [s]. *)
Definition call_const (s : TypesSolver) (c : solver_call) : z3const :=
  match c with
  | CallAdd _ _ => (new_z3_const "assertion_bool" (Some BoolSort) s).1
  | CallNewConst name sort => (new_z3_const name sort s).1
  end.

(** The constants created by a sequence of calls, in order. *)
Fixpoint created (calls : list solver_call) (s : TypesSolver) : list z3const :=
  match calls with
  | [] => []
  | c :: calls' => call_const s c :: created calls' (run_call s c)
  end.

(** The character [_] that separates the name from the number. *)
Definition underscore : Ascii.ascii :=
  Ascii.Ascii true true true true true false true false.

(** The text after the last underscore of a string, if it has one. *)
Fixpoint after_last_underscore (s : string) : option string :=
  match s with
  | EmptyString => None
  | String a s' =>
      match after_last_underscore s' with
      | Some t => Some t
      | None => if decide (a = underscore) then Some s' else None
      end
  end.

Fixpoint no_underscore (s : string) : Prop :=
  match s with
  | EmptyString => True
  | String a s' => a ≠ underscore ∧ no_underscore s'
  end.

(** What the calls maintain from the initial state. *)
Definition tracked_inv (calls : list solver_call) (s : TypesSolver) : Prop :=
  element_id s = length calls
  ∧ (∀ v, v ∈ assertions_vars s →
       ∃ k, k ≤ element_id s
            ∧ v = mkConst ("assertion_bool" +:+ "_" +:+ pretty k) BoolSort)
  ∧ NoDup (assertions_vars s)
  ∧ Forall2 (λ v am, errors_get (assertions_errors s) v = Some am.2)
      (assertions_vars s) (added calls)
  ∧ assertions s = zip_with mkTracked (assertions_vars s) (added calls).*1.

(** ** Families of constructor names *)

(** The family of a constructor name, by its prefix: tuples, functions,
    user classes, unions, and the other (built-in) names. *)
Definition family (s : string) : nat :=
  if String.prefix "tuple_" s then 1
  else if String.prefix "func_" s then 2
  else if String.prefix "class_" s then 3
  else if String.prefix "union_" s then 4
  else 0.

(** The declarations of [declare_type_sort] for a tuple length, a function
    arity, a user class and a union length. *)
Definition tuple_decl (cur_len : nat) : string * list (string * sort) :=
  ("tuple_" +:+ pretty cur_len,
   (λ arg, ("tuple_" +:+ pretty cur_len +:+ "_arg_" +:+ pretty (arg + 1), TypeSort))
   <$> seq 0 cur_len).

Definition func_decl (cur_len : nat) : string * list (string * sort) :=
  ("func_" +:+ pretty cur_len,
   [("func_" +:+ pretty cur_len +:+ "_defaults_args", IntSort)]
   ++ ((λ arg, ("func_" +:+ pretty cur_len +:+ "_arg_" +:+ pretty (arg + 1), TypeSort))
       <$> seq 0 cur_len)
   ++ [("func_" +:+ pretty cur_len +:+ "_return", TypeSort)]).

Definition class_decl (cls : string) : string * list (string * sort) :=
  ("class_" +:+ cls, []).

Definition union_decl (cur_len : nat) : string * list (string * sort) :=
  (union_name cur_len,
   (λ arg, (union_arg_name cur_len (arg + 1), TypeSort)) <$> seq 0 cur_len).

(** The constructors declared whatever the configuration. *)
Definition builtin_decls_1 : list (string * list (string * sort)) :=
  [("object", []); ("type", [("instance", TypeSort)]); ("none", []);
   ("complex", []); ("float", []); ("int", []); ("bool", []);
   ("sequence", []); ("str", []); ("bytes", []); ("tuple", [])].

Definition builtin_decls_2 : list (string * list (string * sort)) :=
  [("list", [("list_type", TypeSort)]);
   ("set", [("set_type", TypeSort)]);
   ("dict", [("dict_key_type", TypeSort); ("dict_value_type", TypeSort)])].

(** ** The constructor tables of [Z3Types.__init__] *)

(** [getattr(type_sort, name)], for the name of a constructor: the
    constructor when the sort declares it. *)
Definition sort_getattr (type_sort : signature) (name : string) : res string :=
  match od_get type_sort name with
  | Some _ => Ok name
  | None => Err AttributeError
  end.

(** [l[i] = v] on a Python list. *)
Definition py_setitem {A} (l : list A) (i : nat) (v : A) : res (list A) :=
  if decide (i < length l) then Ok (<[i:=v]> l) else Err IndexError.

Fixpoint foldM_res {A B} (f : B → A → res B) (b : B) (l : list A) : res B :=
  match l with
  | [] => Ok b
  | a :: l' => b' ← f b a; foldM_res f b' l'
  end.

Record Z3Types : Type := mkZ3Types {
  tuples : list string;
  funcs : list string;
  classes : list (string * string);
  unions : list (option string)
}.

(** The loops of [Z3Types.__init__] that fill [self.tuples], [self.funcs],
    [self.classes] and [self.unions] from the sort just declared. *)
Definition Z3Types_init (cfg : Config) (classes_to_instance_attrs : list string)
    : res Z3Types :=
  let type_sort := declare_type_sort cfg classes_to_instance_attrs in
  tuples ← mapM_res (λ cur_len, sort_getattr type_sort ("tuple_" +:+ pretty cur_len))
                    (seq 0 (max_tuple_length cfg + 1));
  funcs ← mapM_res (λ cur_len, sort_getattr type_sort ("func_" +:+ pretty cur_len))
                   (seq 0 (max_function_args cfg + 1));
  classes ← foldM_res (λ d cls, c ← sort_getattr type_sort ("class_" +:+ cls);
                                Ok (od_set d cls c))
                      [] classes_to_instance_attrs;
  unions ← foldM_res (λ l cur_len, c ← sort_getattr type_sort (union_name cur_len);
                                   py_setitem l cur_len (Some c))
                     (replicate (maximum_union_length cfg + 1) None) (union_range cfg);
  Ok (mkZ3Types tuples funcs classes unions).

(** * Verified properties *)

(** ** Termination of the hierarchy builder *)

Section Tree.
Variable all_classes : class_dict.

Lemma tree_loop_unfold fuel st :
  tree_loop fuel all_classes st =
  match to_cover st !! idx st with
  | None => Done st
  | Some current =>
      match fuel with
      | 0 => OutOfFuel
      | S f =>
          match tree_step all_classes st current with
          | Ok st' => tree_loop f all_classes st'
          | Err e => Raise e
          end
      end
  end.
Proof. by destruct fuel. Qed.

Lemma pending_head st c l : pending st = c :: l → to_cover st !! idx st = Some c.
Proof.
  unfold pending. intros Hp.
  pose proof (lookup_drop (to_cover st) (idx st) 0) as Hl.
  rewrite Hp, Nat.add_0_r in Hl. done.
Qed.

Lemma pending_nil st : pending st = [] → to_cover st !! idx st = None.
Proof.
  unfold pending. intros Hp. apply lookup_ge_None.
  apply (f_equal length) in Hp. rewrite length_drop in Hp. simpl in Hp. lia.
Qed.

Lemma pending_tail st c l : pending st = c :: l → drop (S (idx st)) (to_cover st) = l.
Proof.
  unfold pending. intros Hp.
  replace (S (idx st)) with (idx st + 1) by lia.
  rewrite <- drop_drop, Hp. done.
Qed.

Lemma tree_loop_mono fuel k st r :
  tree_loop fuel all_classes st = r → r ≠ OutOfFuel →
  tree_loop (fuel + k) all_classes st = r.
Proof.
  revert st. induction fuel as [|f IH]; intros st; rewrite !tree_loop_unfold.
  - destruct (to_cover st !! idx st); [|done]. by intros <-.
  - simpl. destruct (to_cover st !! idx st) as [c|]; [|done].
    destruct (tree_step all_classes st c); [|done]. apply IH.
Qed.

Lemma dict_get_keys (d : class_dict) c : c ∈ keys d → is_Some (dict_get d c).
Proof.
  unfold keys. induction d as [|[k v] d IH]; simpl.
  - intros H. by apply elem_of_nil in H.
  - intros H. case_decide; [eauto|].
    apply elem_of_cons in H as [->|H]; [done|]. by apply IH.
Qed.

Lemma dict_get_Some_keys (d : class_dict) c bases :
  dict_get d c = Some bases → c ∈ keys d.
Proof.
  unfold keys. induction d as [|[k v] d IH]; simpl; [done|].
  case_decide as Hk.
  - intros _. subst. by left.
  - intros H. right. by apply IH.
Qed.

(** Requeuing: a blocked class at the head of the pending list moves to
    its end, and nothing else changes. *)
Lemma tree_step_requeue st c l :
  pending st = c :: l → blocked all_classes (covered st) c = true →
  ∃ st', tree_step all_classes st c = Ok st'
         ∧ pending st' = l ++ [c] ∧ covered st' = covered st ∧ graph st' = graph st.
Proof.
  intros Hp Hb. unfold blocked in Hb. unfold tree_step.
  destruct (dict_get all_classes c) as [bases|]; [|done]. rewrite Hb.
  eexists. split; [done|]. split_and!; [|done..].
  unfold pending. simpl.
  assert (idx st < length (to_cover st)).
  { apply lookup_lt_is_Some. rewrite (pending_head _ _ _ Hp). eauto. }
  rewrite drop_app_le by lia. by rewrite (pending_tail _ _ _ Hp).
Qed.

Lemma tree_loop_rotate l1 : ∀ st c l2,
  pending st = l1 ++ c :: l2 →
  Forall (λ d, blocked all_classes (covered st) d = true) l1 →
  ∃ st', (∀ f, tree_loop (length l1 + f) all_classes st = tree_loop f all_classes st')
         ∧ pending st' = c :: l2 ++ l1 ∧ covered st' = covered st
         ∧ graph st' = graph st.
Proof.
  induction l1 as [|d l1 IH]; intros st c l2 Hp Hbl.
  - exists st. rewrite app_nil_r. done.
  - apply Forall_cons in Hbl as [Hd Hbl]. simpl in Hp.
    destruct (tree_step_requeue st d _ Hp Hd) as (st1 & Hstep & Hp1 & Hc1 & Hg1).
    rewrite <- app_assoc in Hp1. simpl in Hp1.
    destruct (IH st1 c (l2 ++ [d]) Hp1) as (st' & Hrun & Hp' & Hc' & Hg').
    { by rewrite Hc1. }
    exists st'. split_and!; [|by rewrite Hp', <- app_assoc|congruence..].
    intros f. change (length (d :: l1) + f) with (S (length l1 + f)).
    rewrite (tree_loop_unfold _ st), (pending_head _ _ _ Hp), Hstep.
    apply Hrun.
Qed.

(** Covering: a class at the head of the pending list whose bases are all
    covered is materialised, or attaching it fails. *)
Lemma tree_step_cover st c l :
  pending st = c :: l → c ∈ keys all_classes →
  blocked all_classes (covered st) c = false →
  (∃ e, tree_step all_classes st c = Err e)
  ∨ (∃ st', tree_step all_classes st c = Ok st'
            ∧ pending st' = l ∧ covered st' = {[c]} ∪ covered st).
Proof.
  intros Hp Hk Hb. unfold blocked in Hb. unfold tree_step.
  destruct (dict_get_keys _ _ Hk) as [bases Hbases]. rewrite Hbases in *. rewrite Hb.
  destruct (attach _ _ bases) as [g|e]; simpl; [|eauto].
  right. eexists. split; [done|]. split; [|done].
  unfold pending. simpl. by apply pending_tail in Hp.
Qed.

Lemma first_unblocked cov (l : list cname) :
  (∃ c, c ∈ l ∧ blocked all_classes cov c = false) →
  ∃ l1 c l2, l = l1 ++ c :: l2
             ∧ Forall (λ d, blocked all_classes cov d = true) l1
             ∧ blocked all_classes cov c = false.
Proof.
  induction l as [|d l IH]; intros (c & Hin & Hc).
  - by apply elem_of_nil in Hin.
  - destruct (blocked all_classes cov d) eqn:Hd.
    + apply elem_of_cons in Hin as [->|Hin]; [congruence|].
      destruct IH as (l1 & c' & l2 & -> & Hl1 & Hc'); [eauto|].
      exists (d :: l1), c', l2. split_and!; [done| |done]. by constructor.
    + exists [], d, l. split_and!; [done|constructor|done].
Qed.

Lemma least_rank (rank : cname → nat) (l : list cname) :
  l ≠ [] → ∃ c, c ∈ l ∧ ∀ d, d ∈ l → rank c ≤ rank d.
Proof.
  induction l as [|a l IH]; [done|]. intros _.
  destruct l as [|b l].
  - exists a. split; [by left|]. intros d Hd.
    apply list_elem_of_singleton in Hd as ->. done.
  - destruct IH as (c & Hc & Hmin); [done|].
    destruct (decide (rank a ≤ rank c)).
    + exists a. split; [by left|]. intros d Hd.
      apply elem_of_cons in Hd as [->|Hd]; [done|]. specialize (Hmin d Hd). lia.
    + exists c. split; [by right|]. intros d Hd.
      apply elem_of_cons in Hd as [->|Hd]; [lia|]. by apply Hmin.
Qed.

Variable rank : cname → nat.
Hypothesis ranked : ∀ c bases b,
  dict_get all_classes c = Some bases → b ∈ bases →
  b = NStr "object" ∨ (b ∈ keys all_classes ∧ rank b < rank c).

Lemma pending_has_unblocked st :
  tree_inv all_classes st → pending st ≠ [] →
  ∃ c, c ∈ pending st ∧ blocked all_classes (covered st) c = false.
Proof.
  intros (Hobj & Hall & Hkeys) Hne.
  destruct (least_rank rank (pending st) Hne) as (c & Hc & Hmin).
  exists c. split; [done|]. unfold blocked.
  destruct (dict_get all_classes c) as [bases|] eqn:Hbases; [|done].
  unfold cont_flag. apply bool_decide_eq_false. rewrite Exists_exists.
  intros (b & Hb & Hncov). apply Hncov.
  destruct (ranked c bases b Hbases Hb) as [->|[Hbk Hlt]]; [done|].
  destruct (Hall b Hbk) as [?|Hbp]; [done|].
  specialize (Hmin b Hbp). lia.
Qed.

Lemma tree_loop_terminates n : ∀ st,
  length (pending st) = n → tree_inv all_classes st →
  ∃ fuel, tree_loop fuel all_classes st ≠ OutOfFuel.
Proof.
  induction n as [|n IH]; intros st Hlen Hinv.
  - exists 0. rewrite tree_loop_unfold, pending_nil; [done|].
    by apply nil_length_inv.
  - assert (Hne : pending st ≠ []) by (intros E; by rewrite E in Hlen).
    destruct (first_unblocked (covered st) (pending st)) as (l1 & c & l2 & Hp & Hl1 & Hc).
    { by apply pending_has_unblocked. }
    destruct (tree_loop_rotate l1 st c l2 Hp Hl1) as (st1 & Hrun & Hp1 & Hc1 & Hg1).
    destruct Hinv as (Hobj & Hall & Hkeys).
    assert (Hck : c ∈ keys all_classes).
    { apply Hkeys. rewrite Hp. apply elem_of_app. right. by left. }
    rewrite <- Hc1 in Hc.
    destruct (tree_step_cover st1 c _ Hp1 Hck Hc) as [[e He]|(st2 & Hstep & Hp2 & Hc2)].
    + exists (length l1 + 1). rewrite Hrun.
      rewrite tree_loop_unfold, (pending_head _ _ _ Hp1), He. done.
    + destruct (IH st2) as [fuel Hfuel].
      * rewrite Hp2, length_app. rewrite Hp, length_app in Hlen. simpl in Hlen. lia.
      * split_and!.
        -- rewrite Hc2, Hc1. set_solver.
        -- intros d Hd. rewrite Hc2, Hc1, Hp2.
           destruct (Hall d Hd) as [?|Hdp]; [set_solver|].
           rewrite Hp in Hdp. set_solver.
        -- intros d Hd. apply Hkeys. rewrite Hp. rewrite Hp2 in Hd. set_solver.
      * exists (length l1 + S fuel). rewrite Hrun.
        rewrite tree_loop_unfold, (pending_head _ _ _ Hp1), Hstep. done.
Qed.

Lemma tree_init_inv : tree_inv all_classes (tree_init all_classes).
Proof.
  unfold tree_inv, tree_init, pending; simpl. rewrite drop_0.
  split_and!; [set_solver|auto..].
Qed.
End Tree.

(** C1 (as stated, refuted): on [{A: [B]}] with [B] never declared the loop
    requeues [A] for ever: no number of iterations ends it, and no error is
    raised. *)
Lemma create_class_tree_loops_on_missing_base :
  diverges [(NStr "A", [NStr "B"])].
Proof.
  assert (H : ∀ fuel n,
    tree_loop fuel [(NStr "A", [NStr "B"])]
      (mkState [mkNode (NStr "object") [] []] (replicate (S n) (NStr "A"))
         {[NStr "object"]} n) = OutOfFuel).
  { induction fuel as [|f IH]; intros n; rewrite tree_loop_unfold;
      cbn [to_cover idx]; rewrite lookup_replicate_2 by lia; [done|].
    unfold tree_step. cbn [dict_get covered graph to_cover idx].
    rewrite decide_True by done.
    replace (cont_flag {[NStr "object"]} [NStr "B"]) with true by (by vm_compute).
    specialize (IH (S n)).
    rewrite <- (replicate_S_end (S n)). done. }
  intros fuel. unfold create_class_tree, create_class_tree_state, tree_init.
  change (keys [(NStr "A", [NStr "B"])]) with (replicate 1 (NStr "A")).
  by rewrite (H fuel 0).
Qed.

(** ** Attribute tables *)

Lemma od_set_fresh {V} (d : list (string * V)) k v :
  k ∉ d.*1 → od_set d k v = d ++ [(k, v)].
Proof.
  induction d as [|[k' v'] d IH]; simpl; [done|].
  intros Hk. apply not_elem_of_cons in Hk as [Hne Hk].
  case_decide; [congruence|]. by rewrite IH.
Qed.

Lemma class_attrs_fold cls attrs (acc : list (string * var)) :
  NoDup (acc.*1 ++ attrs) →
  foldl (λ a attr, od_set a attr (attr_const cls attr)) acc attrs
  = acc ++ ((λ attr, (attr, attr_const cls attr)) <$> attrs).
Proof.
  revert acc. induction attrs as [|a attrs IH]; intros acc Hnd; simpl.
  - by rewrite app_nil_r.
  - apply NoDup_app in Hnd as (Hacc & Hdisj & Hattrs).
    apply NoDup_cons in Hattrs as [Ha Hattrs].
    rewrite od_set_fresh by (intros Hin; apply (Hdisj _ Hin); left).
    rewrite IH.
    + by rewrite <- app_assoc.
    + rewrite fmap_app. simpl. rewrite <- app_assoc. simpl.
      apply NoDup_app. split_and!; [done| |by apply NoDup_cons].
      intros y Hy. by apply Hdisj.
Qed.

Lemma create_classes_attributes_fold cta (acc : list (string * list (string * var))) :
  NoDup (acc.*1 ++ cta.*1) →
  Forall (λ p, NoDup p.2) cta →
  create_classes_attributes cta acc = acc ++ attribute_table cta.
Proof.
  unfold create_classes_attributes, attribute_table.
  revert acc. induction cta as [|[cls attrs] cta IH]; intros acc Hnd Hat; simpl.
  - by rewrite app_nil_r.
  - apply Forall_cons in Hat as [Hattrs Hat]. simpl in *.
    pose proof Hnd as Hnd'.
    apply NoDup_app in Hnd as (Hacc & Hdisj & Hcta).
    rewrite od_set_fresh by (intros Hin; apply (Hdisj _ Hin); left).
    rewrite (class_attrs_fold cls attrs []) by done. simpl.
    rewrite IH; [by rewrite <- app_assoc| |done].
    rewrite fmap_app. simpl. by rewrite <- app_assoc.
Qed.

(** C8 (as amended): for a dictionary of classes (distinct keys) whose
    attribute lists have no repetition, the builder maps every class, in
    order, to its attributes in declaration order, each attribute to the
    constant [class_<cls>_attr_<attr>] of the type sort; the constant is
    determined by the pair alone, so the instance-level and the class-level
    table hold the same constant for a pair they both declare. *)
Theorem create_classes_attributes_table
    (instance_attrs class_attrs : list (string * list string)) :
  NoDup instance_attrs.*1 → Forall (λ p, NoDup p.2) instance_attrs →
  NoDup class_attrs.*1 → Forall (λ p, NoDup p.2) class_attrs →
  create_classes_attributes instance_attrs [] = attribute_table instance_attrs
  ∧ create_classes_attributes class_attrs [] = attribute_table class_attrs
  ∧ ∀ cls attr ia ca v w,
      od_get (create_classes_attributes instance_attrs []) cls = Some ia →
      od_get ia attr = Some v →
      od_get (create_classes_attributes class_attrs []) cls = Some ca →
      od_get ca attr = Some w →
      v = attr_const cls attr ∧ w = v.
Proof.
  intros Hi Hia Hc Hca.
  rewrite !(create_classes_attributes_fold _ []) by done. simpl.
  split_and!; [done..|].
  assert (Hget : ∀ cta cls attr m v,
            od_get (attribute_table cta) cls = Some m →
            od_get m attr = Some v → v = attr_const cls attr).
  { intros cta cls attr m v. unfold attribute_table.
    induction cta as [|[cls' attrs] cta IH]; simpl; [done|].
    case_decide as Hcls; [|done]. subst cls'. intros [= <-].
    clear IH. induction attrs as [|a attrs IH]; simpl; [done|].
    case_decide as Ha; [|done]. subst a. by intros [= <-]. }
  intros cls attr ia ca v w H1 H2 H3 H4.
  rewrite (Hget _ _ _ _ _ H1 H2), (Hget _ _ _ _ _ H3 H4). done.
Qed.

Lemma create_classes_attributes_table_witness :
  create_classes_attributes [("A", ["x"; "y"]); ("B", ["x"])] []
  = attribute_table [("A", ["x"; "y"]); ("B", ["x"])]
  ∧ od_get (create_classes_attributes [("A", ["y"])] []) "A"
    = Some [("y", mkVar "class_A_attr_y" TypeSort)].
Proof.
  destruct (create_classes_attributes_table
              [("A", ["x"; "y"]); ("B", ["x"])] [("A", ["y"])]) as (H1 & H2 & H3).
  - compute_done.
  - compute_done.
  - compute_done.
  - compute_done.
  - split; [exact H1|]. rewrite H2. reflexivity.
Defined.

(** C8 (as stated, refuted): the two tables are not independent.  For the
    pair (A, x) declared both as an instance attribute and as a class
    attribute, both tables hold the very same constant, and two different
    pairs can be given one name. *)
Lemma attribute_tables_share_constant :
  (∃ ia ca v,
     od_get (create_classes_attributes [("A", ["x"])] []) "A" = Some ia
     ∧ od_get (create_classes_attributes [("A", ["x"])] []) "A" = Some ca
     ∧ od_get ia "x" = Some v ∧ od_get ca "x" = Some v)
  ∧ attr_const "A" "b_attr_c" = attr_const "A_attr_b" "c".
Proof.
  split; [|reflexivity].
  eexists _, _, _. repeat split; reflexivity.
Qed.

(** ** Emission of the first axiom *)

Lemma axiom_A_patterns cfg type_sort h i c ax :
  axiom_A cfg type_sort h i c = Ok ax →
  ∃ lit, get_literal c = Ok lit ∧ patterns_of ax = [FSubtype lit (EVar x_const)].
Proof.
  unfold axiom_A. destruct (get_literal c) as [lit|]; simpl; [|done].
  destruct (options_A cfg type_sort h i c lit); simpl; [|done].
  intros [= <-]. eauto.
Qed.

Lemma axiom_B_patterns cfg type_sort h i c ax :
  axiom_B cfg type_sort h i c = Ok ax →
  ∃ lit, get_literal c = Ok lit ∧ patterns_of ax = [FSubtype (EVar x_const) lit].
Proof.
  unfold axiom_B. destruct (get_literal c) as [lit|]; simpl; [|done].
  destruct (options_B cfg type_sort h i c lit); simpl; [|done].
  intros [= <-]. eauto.
Qed.

Lemma get_literal_con c lit : get_literal c = Ok lit → ∃ c0 args, lit = ECon c0 args.
Proof.
  unfold get_literal. destruct (name c) as [s|[|c0 l]]; intros [= <-]; eauto.
Qed.

Lemma node_axioms_inv cfg type_sort str h i c axs out :
  node_axioms cfg type_sort str h i c = Ok (axs, out) →
  ∃ b, axiom_B cfg type_sort h i c = Ok b
       ∧ ((emits_A cfg c = true ∧ ∃ a, axiom_A cfg type_sort h i c = Ok a ∧ axs = [a; b]
           ∧ out = debug_print str "subtype(union_2(y0, y1), x)" a
                   ++ debug_print str "subtype(x, union_2(y0, y1))" b)
          ∨ (emits_A cfg c = false ∧ axs = [b]
             ∧ out = debug_print str "subtype(x, union_2(y0, y1))" b)).
Proof.
  unfold node_axioms. destruct (get_literal c) as [lit|]; simpl; [|done].
  destruct (emits_A cfg c).
  - destruct (axiom_A cfg type_sort h i c) as [a|]; simpl; [|done].
    destruct (axiom_B cfg type_sort h i c) as [b|]; simpl; [|done].
    intros [= <- <-]. exists b. split; [done|]. left. eauto.
  - simpl. destruct (axiom_B cfg type_sort h i c) as [b|]; simpl; [|done].
    intros [= <- <-]. exists b. split; [done|]. right. eauto.
Qed.

(** C4 (as amended): among the axioms the loop body appends for a node,
    the one with trigger [subtype(c_literal, x)] is present unless the node
    is ['none'] and [none_subtype_of_all] is set; it is skipped exactly for
    ['none'] with the flag set. *)
Theorem axiom_A_emitted_iff cfg type_sort str h i c axs out :
  node_axioms cfg type_sort str h i c = Ok (axs, out) →
  (∃ lit ax, get_literal c = Ok lit ∧ ax ∈ axs
             ∧ patterns_of ax = [FSubtype lit (EVar x_const)])
  ↔ ¬ (name c = NStr "none" ∧ none_subtype_of_all cfg = true).
Proof.
  intros Hn. apply node_axioms_inv in Hn as (b & Hb & Hcase).
  assert (Hg : emits_A cfg c = true
               ↔ ¬ (name c = NStr "none" ∧ none_subtype_of_all cfg = true)).
  { unfold emits_A. case_bool_decide as Hnone; destruct (none_subtype_of_all cfg);
      simpl; intuition congruence. }
  rewrite <- Hg. clear Hg.
  apply axiom_B_patterns in Hb as (litb & Hlitb & Hpb).
  destruct Hcase as [(He & a & Ha & -> & _)|(He & -> & _)].
  - split; [done|]. intros _.
    apply axiom_A_patterns in Ha as (lit & Hlit & Hp).
    exists lit, a. split_and!; [done| |done]. by left.
  - split; [|by rewrite He]. intros (lit & ax & Hlit & Hin & Hp).
    apply list_elem_of_singleton in Hin as ->.
    rewrite Hlit in Hlitb. injection Hlitb as <-.
    apply get_literal_con in Hlit as (c0 & args & ->).
    rewrite Hp in Hpb. discriminate.
Qed.

Lemma axiom_A_emitted_iff_witness :
  ¬ (NStr "none" = NStr "none" ∧ false = true).
Proof.
  eapply (axiom_A_emitted_iff (mkConfig 0 0 2 false)
            (declare_type_sort (mkConfig 0 0 2 false) []) (λ _, "")
            [mkNode (NStr "object") [] [1]; mkNode (NStr "none") [0] []] 1
            (mkNode (NStr "none") [0] [])).
  - vm_compute. reflexivity.
  - eexists _, _. split; [reflexivity|]. split; [left|reflexivity].
Defined.

(** C4 (as stated, refuted): with [none_subtype_of_all = false] the first
    axiom of ['none'] is emitted, not skipped; it is with the flag set that
    it is skipped. *)
Lemma axiom_A_none_emitted_when_flag_false :
  (∃ axs out ax,
     create_subtype_axioms (mkConfig 0 0 2 false) (declare_type_sort (mkConfig 0 0 2 false) []) (λ _, "") 5
       [(NStr "none", [NStr "object"])] = Done (axs, out)
     ∧ ax ∈ axs ∧ patterns_of ax = [FSubtype (ECon "none" []) (EVar x_const)])
  ∧ (∃ axs out,
     create_subtype_axioms (mkConfig 0 0 2 true) (declare_type_sort (mkConfig 0 0 2 true) []) (λ _, "") 5
       [(NStr "none", [NStr "object"])] = Done (axs, out)
     ∧ ∀ ax, ax ∈ axs → patterns_of ax ≠ [FSubtype (ECon "none" []) (EVar x_const)]).
Proof.
  split.
  - eexists _, _, _. split_and!; [vm_compute; reflexivity| |].
    + do 2 right. left.
    + reflexivity.
  - eexists _, _. split; [vm_compute; reflexivity|].
    intros ax Hin. repeat (apply elem_of_cons in Hin as [->|Hin]; [discriminate|]).
    by apply elem_of_nil in Hin.
Qed.

(** ** Output of the axiom generator *)

Lemma printed_lines_app str axs1 axs2 :
  printed_lines str (axs1 ++ axs2) = printed_lines str axs1 ++ printed_lines str axs2.
Proof. unfold printed_lines. apply bind_app. Qed.

Lemma axiom_A_is_first cfg type_sort h i c ax :
  axiom_A cfg type_sort h i c = Ok ax → is_first_axiom ax = true.
Proof.
  intros Hax. apply axiom_A_patterns in Hax as (lit & _ & Hp).
  unfold is_first_axiom. rewrite Hp. by apply bool_decide_eq_true.
Qed.

Lemma axiom_B_is_second cfg type_sort h i c ax :
  axiom_B cfg type_sort h i c = Ok ax → is_first_axiom ax = false.
Proof.
  intros Hax. apply axiom_B_patterns in Hax as (lit & Hlit & Hp).
  apply get_literal_con in Hlit as (c0 & args & ->).
  unfold is_first_axiom. by rewrite Hp.
Qed.

Lemma node_axioms_printed cfg type_sort str h i c axs out :
  node_axioms cfg type_sort str h i c = Ok (axs, out) →
  out = printed_lines str axs
  ∧ ∀ str', ∃ out', node_axioms cfg type_sort str' h i c = Ok (axs, out').
Proof.
  intros Hn. pose proof Hn as Hn'.
  apply node_axioms_inv in Hn as (b & Hb & Hcase). split.
  - unfold printed_lines.
    destruct Hcase as [(He & a & Ha & -> & ->)|(He & -> & ->)]; simpl;
      rewrite ?(axiom_A_is_first _ _ _ _ _ _ Ha), (axiom_B_is_second _ _ _ _ _ _ Hb);
      by rewrite app_nil_r.
  - intros str'. unfold node_axioms in *.
    destruct (get_literal c); simpl in *; [|done].
    destruct (emits_A cfg c); simpl in *.
    + destruct (axiom_A cfg type_sort h i c); simpl in *; [|done].
      destruct (axiom_B cfg type_sort h i c); simpl in *; [|done].
      injection Hn' as <- <-. eauto.
    + destruct (axiom_B cfg type_sort h i c); simpl in *; [|done].
      injection Hn' as <- <-. eauto.
Qed.

Lemma axioms_loop_printed cfg type_sort str h cs axs0 out0 axs out :
  axioms_loop cfg type_sort str h cs axs0 out0 = Ok (axs, out) →
  ∃ axs1, axs = axs0 ++ axs1 ∧ out = out0 ++ printed_lines str axs1
    ∧ ∀ str' out0', ∃ out', axioms_loop cfg type_sort str' h cs axs0 out0' = Ok (axs, out').
Proof.
  revert axs0 out0. induction cs as [|[i c] cs IH]; intros axs0 out0; simpl.
  - intros [= <- <-]. exists []. rewrite !app_nil_r. split_and!; [done..|by eauto].
  - destruct (node_axioms cfg type_sort str h i c) as [[axs1 o1]|] eqn:Hn; simpl; [|done].
    intros Hl. apply IH in Hl as (axs2 & -> & -> & Hstr).
    apply node_axioms_printed in Hn as [-> Hstr1].
    exists (axs1 ++ axs2). rewrite printed_lines_app, !app_assoc.
    split_and!; [done..|].
    intros str' out0'. destruct (Hstr1 str') as [o1' ->]. simpl. apply Hstr.
Qed.

(** C9 (as amended): the only output of [create_subtype_axioms] is, in the
    order of the returned axioms, the rendering of every axiom triggered by
    [subtype(c_literal, x)] whose rendering contains the text
    [subtype(union_2(y0, y1), x)] and of every axiom triggered by
    [subtype(x, c_literal)] whose rendering contains
    [subtype(x, union_2(y0, y1))]; the axiom list returned does not depend
    on the rendering. *)
Theorem create_subtype_axioms_output cfg type_sort str fuel all_classes axs out :
  create_subtype_axioms cfg type_sort str fuel all_classes = Done (axs, out) →
  out = printed_lines str axs
  ∧ ∀ str', create_subtype_axioms cfg type_sort str' fuel all_classes
            = Done (axs, printed_lines str' axs).
Proof.
  unfold create_subtype_axioms.
  destruct (create_class_tree fuel all_classes) as [tree| |]; [|done..].
  destruct (axioms_loop cfg type_sort str tree _ [] []) as [[axs' out']|] eqn:Hl; [|done].
  intros [= -> ->].
  pose proof Hl as Hl'.
  apply axioms_loop_printed in Hl as (axs1 & -> & -> & Hstr).
  split; [done|]. intros str'. destruct (Hstr str' []) as [out' Hout].
  rewrite Hout. apply axioms_loop_printed in Hout as (axs2 & Heq & -> & _).
  simpl in Heq. by subst axs2.
Qed.

Lemma union2_axioms_printed :
  ∃ axs line1 line2,
    create_subtype_axioms (mkConfig 0 0 2 false)
      (declare_type_sort (mkConfig 0 0 2 false) []) show_formula 5
      [(NTuple ["union_2"; "union_2_arg_1"; "union_2_arg_2"], [NStr "object"])]
    = Done (axs, [line1; line2]).
Proof. eexists _, _, _. vm_compute. reflexivity. Qed.

Lemma create_subtype_axioms_output_witness :
  ∃ axs line1 line2,
    [line1; line2] = printed_lines show_formula axs
    ∧ ∀ str', create_subtype_axioms (mkConfig 0 0 2 false)
                (declare_type_sort (mkConfig 0 0 2 false) []) str' 5
                [(NTuple ["union_2"; "union_2_arg_1"; "union_2_arg_2"], [NStr "object"])]
              = Done (axs, printed_lines str' axs).
Proof.
  destruct union2_axioms_printed as (axs & line1 & line2 & Hax).
  exists axs, line1, line2.
  exact (create_subtype_axioms_output _ _ _ _ _ _ _ Hax).
Defined.

(** C9 (as stated, refuted): with the pseudo-class of the unions of length
    two in the hierarchy, [create_subtype_axioms] prints two axioms. *)
Lemma create_subtype_axioms_prints :
  ∃ axs line1 line2,
    create_subtype_axioms (mkConfig 0 0 2 false) (declare_type_sort (mkConfig 0 0 2 false) []) show_formula 5
      [(NTuple ["union_2"; "union_2_arg_1"; "union_2_arg_2"], [NStr "object"])]
    = Done (axs, [line1; line2]).
Proof. eexists _, _, _. vm_compute. reflexivity. Qed.

(** ** Classes declared without bases *)

Section Unattached.
Variable all_classes : class_dict.

Lemma all_children_fuel_elem fuel (h : heap) i j :
  j ∈ all_children_fuel fuel h i →
  j = i ∨ ∃ k n, h !! k = Some n ∧ j ∈ children n.
Proof.
  revert i. induction fuel as [|f IH]; intros i; simpl.
  - intros H. by apply elem_of_nil in H.
  - intros H. apply elem_of_cons in H as [->|H]; [by left|].
    destruct (h !! i) as [n|] eqn:Hn; [|by apply elem_of_nil in H].
    apply list_elem_of_In, in_concat in H as (l & Hl & Hj).
    apply in_map_iff in Hl as (c & <- & Hc).
    apply list_elem_of_In in Hj, Hc.
    destruct (IH _ Hj) as [->|?]; [|by right].
    right. eauto.
Qed.

Lemma heap_inv_alter_parent h cur b :
  heap_inv all_classes h →
  (∃ m, h !! cur = Some m ∧ linked all_classes (name m)) →
  heap_inv all_classes (append_parent h cur b).
Proof.
  intros [(n0 & H0 & Hname) Hall] (m & Hm & Hlink). unfold append_parent. split.
  - destruct (decide (cur = 0)) as [->|Hne].
    + rewrite list_lookup_alter_eq, H0. simpl. eauto.
    + rewrite list_lookup_alter_ne by done. eauto.
  - intros i n Hi.
    assert (Hkeep : ∀ j, (∃ m', h !! j = Some m' ∧ linked all_classes (name m')) →
              ∃ m', alter (λ n, mkNode (name n) (parents n ++ [b]) (children n)) cur h !! j
                    = Some m' ∧ linked all_classes (name m')).
    { intros j (m' & Hj & Hl). destruct (decide (cur = j)) as [->|Hne].
      - rewrite list_lookup_alter_eq, Hj. simpl. eauto.
      - rewrite list_lookup_alter_ne by done. eauto. }
    destruct (decide (cur = i)) as [->|Hne].
    + rewrite list_lookup_alter_eq, Hm in Hi. simpl in Hi. injection Hi as <-. simpl.
      split; [done|]. intros j Hj. apply Hkeep. by apply (Hall i m Hm).
    + rewrite list_lookup_alter_ne in Hi by done.
      destruct (Hall i n Hi) as [Hp Hc]. split; [done|].
      intros j Hj. apply Hkeep. by apply Hc.
Qed.

Lemma heap_inv_alter_child h cur b :
  heap_inv all_classes h →
  (∃ m, h !! cur = Some m ∧ linked all_classes (name m)) →
  heap_inv all_classes (append_child h b cur).
Proof.
  intros [(n0 & H0 & Hname) Hall] Hcur. unfold append_child.
  assert (Hkeep : ∀ j, (∃ m', h !! j = Some m' ∧ linked all_classes (name m')) →
            ∃ m', alter (λ n, mkNode (name n) (parents n) (children n ++ [cur])) b h !! j
                  = Some m' ∧ linked all_classes (name m')).
  { intros j (m' & Hj & Hl). destruct (decide (b = j)) as [->|Hne].
    - rewrite list_lookup_alter_eq, Hj. simpl. eauto.
    - rewrite list_lookup_alter_ne by done. eauto. }
  split.
  - destruct (decide (b = 0)) as [->|Hne].
    + rewrite list_lookup_alter_eq, H0. simpl. eauto.
    + rewrite list_lookup_alter_ne by done. eauto.
  - intros i n Hi. destruct (decide (b = i)) as [->|Hne].
    + rewrite list_lookup_alter_eq in Hi.
      destruct (h !! i) as [n'|] eqn:Hn'; [|done]. simpl in Hi. injection Hi as <-.
      simpl. destruct (Hall i n' Hn') as [Hp Hc]. split; [done|].
      intros j Hj. apply Hkeep. apply elem_of_app in Hj as [Hj|Hj]; [by apply Hc|].
      apply list_elem_of_singleton in Hj as ->. done.
    + rewrite list_lookup_alter_ne in Hi by done.
      destruct (Hall i n Hi) as [Hp Hc]. split; [done|].
      intros j Hj. apply Hkeep. by apply Hc.
Qed.

Lemma attach_heap_inv bases : ∀ h cur h',
  heap_inv all_classes h →
  (bases ≠ [] → ∃ m, h !! cur = Some m ∧ linked all_classes (name m)) →
  attach h cur bases = Ok h' → heap_inv all_classes h'.
Proof.
  induction bases as [|base rest IH]; intros h cur h' Hinv Hcur; simpl.
  - by intros [= <-].
  - destruct (find h 0 base) as [b|]; [|done].
    destruct Hcur as (m & Hm & Hl); [done|].
    apply IH.
    + apply heap_inv_alter_child; [apply heap_inv_alter_parent; eauto|].
      unfold append_parent.
      rewrite list_lookup_alter_eq, Hm. simpl. eauto.
    + intros _. unfold append_child, append_parent.
      destruct (decide (b = cur)) as [->|Hne].
      * rewrite !list_lookup_alter_eq, Hm. simpl. eauto.
      * rewrite list_lookup_alter_ne, list_lookup_alter_eq, Hm by done. simpl. eauto.
Qed.

Lemma heap_inv_alloc h nm :
  heap_inv all_classes h → heap_inv all_classes (h ++ [mkNode nm [] []]).
Proof.
  intros [(n0 & H0 & Hname) Hall]. split.
  - exists n0. split; [|done]. by apply lookup_app_l_Some.
  - intros i n Hi. apply lookup_app_Some in Hi as [Hi|[_ Hi]].
    + destruct (Hall i n Hi) as [Hp Hc]. split; [done|].
      intros j Hj. destruct (Hc j Hj) as (m & Hm & Hl).
      exists m. split; [|done]. by apply lookup_app_l_Some.
    + apply list_lookup_singleton_Some in Hi as [_ <-]. simpl. split; [done|].
      intros j Hj. by apply elem_of_nil in Hj.
Qed.

(** The two ways an iteration of the loop can go. *)
Lemma tree_step_cases st c l st' :
  pending st = c :: l → tree_step all_classes st c = Ok st' →
  (pending st' = l ++ [c] ∧ covered st' = covered st ∧ graph st' = graph st)
  ∨ (pending st' = l ∧ covered st' = {[c]} ∪ covered st
     ∧ ∃ bases, dict_get all_classes c = Some bases
                ∧ attach (graph st ++ [mkNode c [] []]) (length (graph st)) bases
                  = Ok (graph st')).
Proof.
  intros Hp. unfold tree_step.
  destruct (dict_get all_classes c) as [bases|] eqn:Hb; [|done].
  destruct (cont_flag (covered st) bases) eqn:Hc.
  - intros [= <-]. left.
    destruct (tree_step_requeue all_classes st c l Hp) as (st1 & Hs & ?).
    { unfold blocked. by rewrite Hb. }
    unfold tree_step in Hs. rewrite Hb, Hc in Hs. by injection Hs as <-.
  - destruct (attach _ _ bases) as [g|] eqn:Ha; simpl; [|done].
    intros [= <-]. right. simpl. split_and!; [|done|eauto].
    unfold pending. simpl. by apply pending_tail in Hp.
Qed.

Lemma tree_step_heap_inv st c l st' :
  pending st = c :: l → tree_step all_classes st c = Ok st' →
  heap_inv all_classes (graph st) → heap_inv all_classes (graph st').
Proof.
  intros Hp Hs Hinv.
  destruct (tree_step_cases st c l st' Hp Hs) as [(_ & _ & ->)|(_ & _ & bases & Hb & Ha)];
    [done|].
  eapply attach_heap_inv; [|intros Hne|exact Ha].
  - by apply heap_inv_alloc.
  - eexists. split; [apply list_lookup_middle; done|]. simpl. by exists bases.
Qed.

Lemma tree_loop_inv fuel : ∀ st st',
  tree_loop fuel all_classes st = Done st' → loop_inv all_classes st →
  loop_inv all_classes st' ∧ pending st' = [].
Proof.
  induction fuel as [|f IH]; intros st st'; rewrite tree_loop_unfold.
  - destruct (to_cover st !! idx st) eqn:Hl; [done|]. intros [= <-] Hinv.
    split; [done|]. unfold pending. apply drop_ge. by apply lookup_ge_None.
  - destruct (to_cover st !! idx st) as [c|] eqn:Hl.
    + destruct (tree_step all_classes st c) as [st1|] eqn:Hs; [|done].
      intros Hrun [Hh Hcov]. apply (IH st1 st' Hrun).
      assert (Hp : pending st = c :: drop (S (idx st)) (to_cover st)).
      { unfold pending. by apply drop_S. }
      split; [by eapply tree_step_heap_inv|].
      intros d Hd.
      destruct (tree_step_cases st c _ st1 Hp Hs) as [(-> & -> & _)|(-> & -> & _)];
        destruct (Hcov d Hd) as [?|Hdp]; try rewrite Hp in Hdp; set_solver.
    + intros [= <-] Hinv. split; [done|].
      unfold pending. apply drop_ge. by apply lookup_ge_None.
Qed.

Lemma tree_init_loop_inv : loop_inv all_classes (tree_init all_classes).
Proof.
  split.
  - split; [by eexists|]. intros [|i] n; simpl; [|done]. intros [= <-]. simpl.
    split; [done|]. intros j Hj. by apply elem_of_nil in Hj.
  - intros c Hc. right. unfold pending, tree_init. simpl. by rewrite drop_0.
Qed.

Lemma axioms_loop_origin cfg type_sort str h cs : ∀ axs0 out0 axs out,
  axioms_loop cfg type_sort str h cs axs0 out0 = Ok (axs, out) →
  ∀ ax, ax ∈ axs → ax ∈ axs0 ∨
    ∃ i n, (i, n) ∈ cs ∧ (axiom_A cfg type_sort h i n = Ok ax ∨ axiom_B cfg type_sort h i n = Ok ax).
Proof.
  induction cs as [|[i c] cs IH]; intros axs0 out0 axs out; simpl.
  - intros [= <- <-]. auto.
  - destruct (node_axioms cfg type_sort str h i c) as [[axs1 o1]|] eqn:Hn; simpl; [|done].
    intros Hl ax Hax. destruct (IH _ _ _ _ Hl ax Hax) as [Hin|(j & n & Hjn & Hor)].
    + apply elem_of_app in Hin as [?|Hin]; [by left|]. right. exists i, c.
      split; [by left|].
      apply node_axioms_inv in Hn as (b & Hb & [(_ & a & Ha & -> & _)|(_ & -> & _)]).
      * apply elem_of_cons in Hin as [->|Hin]; [by left|].
        apply list_elem_of_singleton in Hin as ->. by right.
      * apply list_elem_of_singleton in Hin as ->. by right.
    + right. exists j, n. split; [by right|done].
Qed.

Lemma axioms_loop_complete cfg type_sort str h cs : ∀ axs0 out0 axs out,
  axioms_loop cfg type_sort str h cs axs0 out0 = Ok (axs, out) →
  (∀ ax, ax ∈ axs0 → ax ∈ axs)
  ∧ ∀ i c, (i, c) ∈ cs →
      (∃ b, axiom_B cfg type_sort h i c = Ok b ∧ b ∈ axs)
      ∧ (emits_A cfg c = true → ∃ a, axiom_A cfg type_sort h i c = Ok a ∧ a ∈ axs).
Proof.
  induction cs as [|[i c] cs IH]; intros axs0 out0 axs out; simpl.
  - intros [= <- <-]. split; [done|]. intros i c H. by apply elem_of_nil in H.
  - destruct (node_axioms cfg type_sort str h i c) as [[axs1 o1]|] eqn:Hn; simpl; [|done].
    intros Hl. destruct (IH _ _ _ _ Hl) as [Hpre Hcs]. split.
    + intros ax Hax. apply Hpre. apply elem_of_app. by left.
    + intros j d Hjd. apply elem_of_cons in Hjd as [[= -> ->]|Hjd]; [|by apply Hcs].
      apply node_axioms_inv in Hn as (b & Hb & [(He & a & Ha & -> & _)|(He & -> & _)]).
      * split.
        -- exists b. split; [done|]. apply Hpre. set_solver.
        -- intros _. exists a. split; [done|]. apply Hpre. set_solver.
      * split; [|by rewrite He].
        exists b. split; [done|]. apply Hpre. set_solver.
Qed.
End Unattached.

(** The axioms of every node below the root are among those returned. *)
Lemma generated_axioms cfg type_sort str fuel all_classes tree axs out i c :
  create_class_tree fuel all_classes = Done tree →
  create_subtype_axioms cfg type_sort str fuel all_classes = Done (axs, out) →
  (i, c) ∈ nodes_of tree (all_children tree 0) →
  (∃ b, axiom_B cfg type_sort tree i c = Ok b ∧ b ∈ axs)
  ∧ (emits_A cfg c = true → ∃ a, axiom_A cfg type_sort tree i c = Ok a ∧ a ∈ axs).
Proof.
  intros Htree. unfold create_subtype_axioms. rewrite Htree.
  destruct (axioms_loop _ _ _ _ _ _ _) as [[axs' out']|] eqn:Hl; [|done].
  intros [= <- <-] Hin.
  destruct (axioms_loop_complete _ _ _ _ _ _ _ _ _ Hl) as [_ H]. by apply H.
Qed.

(** X13: a class other than ['object'] declared with an empty list of
    bases is marked covered, but every node carrying its name has no
    parents and is the child of no node, so that no node reachable from the
    root carries its name and every generated axiom comes from a node with
    another name. *)
Theorem unattached_class_has_no_axioms cfg type_sort str fuel all_classes c st axs out :
  dict_get all_classes c = Some [] → c ≠ NStr "object" →
  create_class_tree_state fuel all_classes = Done st →
  create_subtype_axioms cfg type_sort str fuel all_classes = Done (axs, out) →
  c ∈ covered st
  ∧ (∀ i n, graph st !! i = Some n → name n = c →
       parents n = [] ∧ ∀ k m, graph st !! k = Some m → i ∉ children m)
  ∧ (∀ j, j ∈ all_children (graph st) 0 → node_name (graph st) j ≠ Some c)
  ∧ (∀ ax, ax ∈ axs →
       ∃ i n, graph st !! i = Some n ∧ name n ≠ c
              ∧ (axiom_A cfg type_sort (graph st) i n = Ok ax
                 ∨ axiom_B cfg type_sort (graph st) i n = Ok ax)).
Proof.
  intros Hc Hobj Hst Hax.
  unfold create_class_tree_state in Hst.
  destruct (tree_loop_inv all_classes fuel _ _ Hst (tree_init_loop_inv all_classes))
    as [[[(n0 & H0 & Hn0) Hheap] Hcov] Hpend].
  assert (Hnolink : ¬ linked all_classes c).
  { intros (bases & Hb & Hne). congruence. }
  assert (Hreach : ∀ j, j ∈ all_children (graph st) 0 → node_name (graph st) j ≠ Some c).
  { intros j Hj. unfold node_name.
    apply all_children_fuel_elem in Hj as [->|(k & n & Hk & Hj)].
    - rewrite H0. simpl. congruence.
    - destruct (Hheap k n Hk) as [_ Hch]. destruct (Hch j Hj) as (m & -> & Hl).
      simpl. intros [= E]. by rewrite E in Hl. }
  split_and!.
  - destruct (Hcov c) as [?|Hp]; [by eapply dict_get_Some_keys|done|].
    rewrite Hpend in Hp. by apply elem_of_nil in Hp.
  - intros i n Hi Hname. split.
    + destruct (Hheap i n Hi) as [Hp _]. destruct (parents n); [done|].
      exfalso. apply Hnolink. rewrite <- Hname. by apply Hp.
    + intros k m Hk Hin. destruct (Hheap k m Hk) as [_ Hch].
      destruct (Hch i Hin) as (n' & Hi' & Hl). rewrite Hi in Hi'. injection Hi' as <-.
      by rewrite Hname in Hl.
  - done.
  - unfold create_subtype_axioms, create_class_tree, create_class_tree_state in Hax.
    rewrite Hst in Hax. simpl in Hax.
    destruct (axioms_loop cfg type_sort str (graph st) _ [] []) as [[axs' out']|] eqn:Hl; [|done].
    injection Hax as -> ->. intros ax Hin.
    destruct (axioms_loop_origin cfg type_sort str _ _ _ _ _ _ Hl ax Hin) as [Hnil|(i & n & Hi & Hor)].
    { by apply elem_of_nil in Hnil. }
    unfold nodes_of in Hi. apply list_elem_of_omap in Hi as (j & Hj & Hjn).
    destruct (graph st !! j) as [n'|] eqn:Hn'; [|done]. simpl in Hjn.
    injection Hjn as <- <-. exists j, n'. split_and!; [done| |done].
    intros E. apply (Hreach j Hj). unfold node_name. by rewrite Hn', <- E.
Qed.

Lemma unattached_example_tree :
  create_class_tree_state 5 [(NStr "A", []); (NStr "B", [NStr "object"])]
  = Done (mkState [mkNode (NStr "object") [] [2]; mkNode (NStr "A") [] [];
                   mkNode (NStr "B") [0] []]
            [NStr "A"; NStr "B"] ({[NStr "B"]} ∪ ({[NStr "A"]} ∪ {[NStr "object"]})) 2).
Proof. vm_compute. reflexivity. Qed.

Lemma unattached_example_axioms :
  ∃ axs, create_subtype_axioms (mkConfig 0 0 2 false)
           (declare_type_sort (mkConfig 0 0 2 false) []) show_formula 5
           [(NStr "A", []); (NStr "B", [NStr "object"])] = Done (axs, []).
Proof. eexists. vm_compute. reflexivity. Qed.

Lemma unattached_class_has_no_axioms_witness :
  ∃ axs,
    create_subtype_axioms (mkConfig 0 0 2 false)
      (declare_type_sort (mkConfig 0 0 2 false) []) show_formula 5
      [(NStr "A", []); (NStr "B", [NStr "object"])] = Done (axs, [])
    ∧ ∀ ax, ax ∈ axs →
        ∃ i n, [mkNode (NStr "object") [] [2]; mkNode (NStr "A") [] [];
                mkNode (NStr "B") [0] []] !! i = Some n
               ∧ name n ≠ NStr "A"
               ∧ (axiom_A (mkConfig 0 0 2 false)
                    (declare_type_sort (mkConfig 0 0 2 false) [])
                    [mkNode (NStr "object") [] [2]; mkNode (NStr "A") [] [];
                     mkNode (NStr "B") [0] []] i n = Ok ax
                  ∨ axiom_B (mkConfig 0 0 2 false)
                      (declare_type_sort (mkConfig 0 0 2 false) [])
                      [mkNode (NStr "object") [] [2]; mkNode (NStr "A") [] [];
                       mkNode (NStr "B") [0] []] i n = Ok ax).
Proof.
  destruct unattached_example_axioms as [axs Hax].
  exists axs. split; [done|].
  apply (unattached_class_has_no_axioms (mkConfig 0 0 2 false)
           (declare_type_sort (mkConfig 0 0 2 false) []) show_formula 5
           [(NStr "A", []); (NStr "B", [NStr "object"])] (NStr "A") _ axs []
           eq_refl ltac:(discriminate) unattached_example_tree Hax).
Defined.

(** ** Semantics: conjunctions, disjunctions, bindings *)

Lemma sat_and M ρ fs : sat M ρ (FAnd fs) ↔ Forall (sat M ρ) fs.
Proof.
  simpl. induction fs as [|f fs IH].
  - split; [constructor|done].
  - rewrite Forall_cons, <- IH. done.
Qed.

Lemma sat_or M ρ fs : sat M ρ (FOr fs) ↔ Exists (sat M ρ) fs.
Proof.
  simpl. induction fs as [|f fs IH].
  - split; [done|]. intros H. by apply Exists_nil in H.
  - rewrite Exists_cons, <- IH. done.
Qed.

Lemma bind_lookup vs : ∀ vals ρ i v a,
  NoDup vs → vs !! i = Some v → vals !! i = Some a → bind vs vals ρ v = a.
Proof.
  induction vs as [|w vs IH]; intros vals ρ i v a Hnd Hv Ha; [done|].
  destruct vals as [|b vals]; [done|]. apply NoDup_cons in Hnd as [Hw Hnd].
  simpl. destruct i as [|i]; simpl in *.
  - injection Hv as ->. injection Ha as ->. by rewrite decide_True.
  - rewrite decide_False; [by eapply IH|].
    intros ->. apply Hw. by eapply list_elem_of_lookup_2.
Qed.

Lemma bind_fmap vs vals ρ :
  NoDup vs → length vs = length vals → bind vs vals ρ <$> vs = vals.
Proof.
  intros Hnd Hlen. apply list_eq. intros i. rewrite list_lookup_fmap.
  destruct (vs !! i) as [v|] eqn:Hv; simpl.
  - destruct (vals !! i) as [a|] eqn:Ha.
    + f_equal. by eapply bind_lookup.
    + apply lookup_ge_None in Ha. apply lookup_lt_Some in Hv. lia.
  - symmetry. apply lookup_ge_None. apply lookup_ge_None in Hv. lia.
Qed.

Lemma eval_vars M ρ (vs : list var) : eval M ρ <$> (EVar <$> vs) = ρ <$> vs.
Proof. by rewrite <- list_fmap_compose. Qed.

Lemma eval_accs M ρ (accs : list string) x :
  eval M ρ <$> ((λ a, EAcc a x) <$> accs) = (λ a, i_acc M a (eval M ρ x)) <$> accs.
Proof. by rewrite <- list_fmap_compose. Qed.

(** ** The bound variables of a node *)

Lemma quantified_tuple c c0 accs :
  name c = NTuple (c0 :: accs) →
  quantified c = imap (λ i arg, mkVar ("y" +:+ pretty i)
                     (if ends_with "defaults_args" arg then IntSort else TypeSort)) accs.
Proof. unfold quantified. by intros ->. Qed.

Lemma quantified_length c c0 accs :
  name c = NTuple (c0 :: accs) → length (quantified c) = length accs.
Proof. intros H. by rewrite (quantified_tuple _ _ _ H), length_imap. Qed.

Lemma quantified_str c s : name c = NStr s → quantified c = [].
Proof. unfold quantified. by intros ->. Qed.

Lemma quantified_lookup c i v :
  quantified c !! i = Some v → vname v = "y" +:+ pretty i.
Proof.
  unfold quantified. destruct (name c) as [s|[|c0 accs]]; [done..|].
  rewrite list_lookup_imap. destruct (accs !! i); [|done]. by intros [= <-].
Qed.

Lemma quantified_NoDup c : NoDup (x_const :: quantified c).
Proof.
  apply NoDup_cons. split.
  - intros Hin. apply list_elem_of_lookup in Hin as [i Hi].
    apply quantified_lookup in Hi. discriminate Hi.
  - apply NoDup_alt. intros i j v Hi Hj.
    apply quantified_lookup in Hi, Hj. rewrite Hi in Hj.
    apply (inj (String.app "y")) in Hj. by apply (inj pretty) in Hj.
Qed.

Lemma bind_x c a ys ρ : bind (x_const :: quantified c) (a :: ys) ρ x_const = a.
Proof. cbn [bind]. by rewrite decide_True. Qed.

Lemma bind_quantified c a ys ρ :
  length ys = length (quantified c) →
  bind (x_const :: quantified c) (a :: ys) ρ <$> quantified c = ys.
Proof.
  intros Hlen. pose proof (quantified_NoDup c) as Hnd.
  pose proof (bind_fmap (x_const :: quantified c) (a :: ys) ρ Hnd) as H.
  rewrite fmap_cons, bind_x in H.
  specialize (H ltac:(by simpl; rewrite Hlen)). by injection H.
Qed.

(** The value of the literal of a node when its bound variables are bound
    to [ys]. *)
Lemma eval_literal M c lit a ys ρ :
  get_literal c = Ok lit → length ys = length (quantified c) →
  eval M (bind (x_const :: quantified c) (a :: ys) ρ) lit
  = VCon (constructor_name c) ys.
Proof.
  unfold get_literal, constructor_name. intros Hlit Hlen.
  destruct (name c) as [s|[|c0 accs]] eqn:Hname; [| done |].
  - injection Hlit as <-. rewrite (quantified_str _ _ Hname) in Hlen.
    destruct ys; [done|done].
  - injection Hlit as <-. cbn [eval]. rewrite eval_vars.
    by rewrite bind_quantified.
Qed.

(** ** The shape of the axioms and what a model of them satisfies *)

Lemma axiom_A_inv cfg type_sort h i c ax :
  axiom_A cfg type_sort h i c = Ok ax →
  ∃ lit opts, get_literal c = Ok lit ∧ options_A cfg type_sort h i c lit = Ok opts
    ∧ ax = FForAll (x_const :: quantified c)
             (FIff (FSubtype lit (EVar x_const)) (axiom_body cfg c opts))
             [FSubtype lit (EVar x_const)].
Proof.
  unfold axiom_A, mbind, res_bind. destruct (get_literal c) as [lit|]; [|done].
  destruct (options_A cfg type_sort h i c lit) as [opts|] eqn:Hopts; [|done].
  intros [= <-]. exists lit, opts. split_and!; done.
Qed.

Lemma axiom_B_inv cfg type_sort h i c ax :
  axiom_B cfg type_sort h i c = Ok ax →
  ∃ lit opts, get_literal c = Ok lit ∧ options_B cfg type_sort h i c lit = Ok opts
    ∧ ax = FForAll (x_const :: quantified c)
             (FIff (FSubtype (EVar x_const) lit) (axiom_body cfg c opts))
             [FSubtype (EVar x_const) lit].
Proof.
  unfold axiom_B, mbind, res_bind. destruct (get_literal c) as [lit|]; [|done].
  destruct (options_B cfg type_sort h i c lit) as [opts|] eqn:Hopts; [|done].
  intros [= <-]. exists lit, opts. split_and!; done.
Qed.

Lemma in_dom_length M c a ys : in_dom M c a ys → length ys = length (quantified c).
Proof. intros [_ H]. symmetry. by eapply Forall2_length. Qed.

(** A model of the first axiom of [c] relates the literal of [c] to [a]
    exactly when the body holds. *)
Lemma sat_axiom_A cfg type_sort h i c ax lit opts M ρ a ys :
  axiom_A cfg type_sort h i c = Ok ax → get_literal c = Ok lit →
  options_A cfg type_sort h i c lit = Ok opts →
  sat M ρ ax → in_dom M c a ys →
  i_sub M (VCon (constructor_name c) ys) a
  ↔ sat M (env_of c a ys ρ) (axiom_body cfg c opts).
Proof.
  intros Hax Hlit Hopts Hsat Hdom.
  apply axiom_A_inv in Hax as (lit' & opts' & Hlit' & Hopts' & ->).
  rewrite Hlit in Hlit'. injection Hlit' as <-.
  rewrite Hopts in Hopts'. injection Hopts' as <-.
  cbn [sat] in Hsat. specialize (Hsat (a :: ys)). cbn [eval] in Hsat.
  rewrite (eval_literal M c lit a ys ρ Hlit (in_dom_length _ _ _ _ Hdom)) in Hsat.
  rewrite bind_x in Hsat.
  apply Hsat. destruct Hdom. by constructor.
Qed.

Lemma sat_axiom_B cfg type_sort h i c ax lit opts M ρ a ys :
  axiom_B cfg type_sort h i c = Ok ax → get_literal c = Ok lit →
  options_B cfg type_sort h i c lit = Ok opts →
  sat M ρ ax → in_dom M c a ys →
  i_sub M a (VCon (constructor_name c) ys)
  ↔ sat M (env_of c a ys ρ) (axiom_body cfg c opts).
Proof.
  intros Hax Hlit Hopts Hsat Hdom.
  apply axiom_B_inv in Hax as (lit' & opts' & Hlit' & Hopts' & ->).
  rewrite Hlit in Hlit'. injection Hlit' as <-.
  rewrite Hopts in Hopts'. injection Hopts' as <-.
  cbn [sat] in Hsat. specialize (Hsat (a :: ys)). cbn [eval] in Hsat.
  rewrite (eval_literal M c lit a ys ρ Hlit (in_dom_length _ _ _ _ Hdom)) in Hsat.
  rewrite bind_x in Hsat.
  apply Hsat. destruct Hdom. by constructor.
Qed.

Lemma env_of_x c a ys ρ : env_of c a ys ρ x_const = a.
Proof. apply bind_x. Qed.

Lemma env_of_quantified c a ys ρ :
  length ys = length (quantified c) → env_of c a ys ρ <$> quantified c = ys.
Proof. apply bind_quantified. Qed.

(** ** Variance conjuncts *)

Lemma py_index_Some {A} (l : list A) i a : l !! i = Some a → py_index l i = Ok a.
Proof. unfold py_index. by intros ->. Qed.

Lemma mapM_res_enum {A B C} (g : A → B → C) (consts : list A) (φ : nat → nat)
    (l : list B) : ∀ n (cs : list A),
  length cs = length l →
  (∀ j c, cs !! j = Some c → consts !! φ (n + j) = Some c) →
  mapM_res (λ '(i, b), ci ← py_index consts (φ i); Ok (g ci b))
           (imap (λ i b, (n + i, b)) l)
  = Ok (zip_with g cs l).
Proof.
  induction l as [|b l IH]; intros n cs Hlen Hcs; destruct cs as [|c cs]; try done.
  cbn [imap mapM_res zip_with].
  rewrite (py_index_Some _ _ _ (Hcs 0 c eq_refl)).
  rewrite (imap_ext _ (λ i b, (S n + i, b))); [|intros; simpl; f_equal; lia].
  rewrite (IH (S n) cs); [done|by injection Hlen|].
  intros j c' Hj. replace (S n + j) with (n + S j) by lia. by apply Hcs.
Qed.

Lemma sat_zip_subtype M ρ (es1 es2 : list expr) :
  length es1 = length es2 →
  Forall (sat M ρ) (zip_with FSubtype es1 es2)
  ↔ Forall2 (i_sub M) (eval M ρ <$> es1) (eval M ρ <$> es2).
Proof.
  revert es2. induction es1 as [|e1 es1 IH]; intros [|e2 es2] Hlen; try done.
  rewrite !fmap_cons. cbn [zip_with].
  rewrite Forall_cons, Forall2_cons, (IH es2) by (by injection Hlen). done.
Qed.

Lemma sat_zip_subtype_flip M ρ (es1 es2 : list expr) :
  length es1 = length es2 →
  Forall (sat M ρ) (zip_with (λ ci accessor, FSubtype accessor ci) es1 es2)
  ↔ Forall2 (i_sub M) (eval M ρ <$> es2) (eval M ρ <$> es1).
Proof.
  revert es2. induction es1 as [|e1 es1 IH]; intros [|e2 es2] Hlen; try done.
  rewrite !fmap_cons. cbn [zip_with].
  rewrite Forall_cons, Forall2_cons, (IH es2) by (by injection Hlen). done.
Qed.

Lemma z3_subtype_inv type_sort a b f :
  z3_subtype type_sort a b = Ok f → f = FSubtype a b.
Proof. unfold z3_subtype. case_decide; congruence. Qed.

Lemma sort_constant_inv type_sort nm e :
  sort_constant type_sort nm = Ok e → e = ECon nm [].
Proof.
  unfold sort_constant. destruct (sort_attr_of type_sort nm) as [[]|]; simpl; congruence.
Qed.

Lemma z3_call_acc type_sort a x e :
  od_get type_sort a = None → z3_call type_sort a [x] = Ok e → e = EAcc a x.
Proof.
  intros Ha. unfold z3_call, sort_attr_of. rewrite Ha.
  destruct (acc_sort type_sort a); simpl; [|done]. case_decide; congruence.
Qed.

Lemma z3_call_con type_sort c0 args e :
  is_Some (od_get type_sort c0) → z3_call type_sort c0 args = Ok e → e = ECon c0 args.
Proof.
  intros [fields Hc]. unfold z3_call, sort_attr_of. rewrite Hc.
  destruct fields; simpl; [done|]. case_decide; congruence.
Qed.

Lemma bind_Ok {A B} (m : res A) (k : A → res B) (b : B) :
  m ≫= k = Ok b → ∃ a, m = Ok a ∧ k a = Ok b.
Proof. destruct m as [a|]; [|done]. simpl. eauto. Qed.

Lemma mapM_res_weaken {A B} (f g : A → res B) (l : list A) (r : list B) :
  (∀ a b, f a = Ok b → g a = Ok b) → mapM_res f l = Ok r → mapM_res g l = Ok r.
Proof.
  intros Hfg. revert r. induction l as [|a l IH]; intros r; simpl; [done|].
  unfold mbind, res_bind. destruct (f a) as [b|] eqn:Hb; [|done].
  rewrite (Hfg a b Hb). destruct (mapM_res f l) as [bs|]; [|done].
  by rewrite (IH bs eq_refl).
Qed.

Lemma mapM_res_total {A B} (f : A → res B) (g : A → B) (l : list A) (r : list B) :
  (∀ a b, f a = Ok b → b = g a) → mapM_res f l = Ok r → r = g <$> l.
Proof.
  intros Hfg. revert r. induction l as [|a l IH]; intros r; simpl; [congruence|].
  unfold mbind, res_bind. destruct (f a) as [b|] eqn:Hb; [|done].
  destruct (mapM_res f l) as [bs|]; [|done]. intros [= <-].
  by rewrite (Hfg a b Hb), (IH bs eq_refl).
Qed.

Lemma accessors_of_inv type_sort c x l :
  names_sort type_sort c → accessors_of type_sort c x = Ok l → l = accessors_at c x.
Proof.
  unfold names_sort, accessors_of, accessors_at.
  destruct (name c) as [s|[|c0 accs]]; [congruence..|]. intros [_ Hacc].
  revert l. induction accs as [|a accs IH]; intros l; simpl; [congruence|].
  apply Forall_cons in Hacc as [Ha Haccs].
  unfold mbind, res_bind. destruct (z3_call type_sort a [x]) as [e|] eqn:He; [|done].
  destruct (mapM_res _ accs) as [es|]; [|done]. intros [= <-].
  by rewrite (z3_call_acc _ _ _ _ Ha He), (IH Haccs es eq_refl).
Qed.

Lemma args_sub_A_inv type_sort c x l :
  args_sub_A type_sort c (accessors_at c x) = Ok l → variance_A c x = Ok l.
Proof.
  unfold args_sub_A, variance_A. destruct (starts "tuple" c).
  - apply mapM_res_weaken. intros [i a] b. unfold mbind, res_bind.
    destruct (py_index _ i); [|done]. intros H. by rewrite (z3_subtype_inv _ _ _ _ H).
  - intros H.
    apply bind_Ok in H as (l1 & Hl1 & H). apply bind_Ok in H as (cl & Hcl & H).
    apply bind_Ok in H as (al & Hal & H). apply bind_Ok in H as (f & Hf & H).
    injection H as <-. rewrite (z3_subtype_inv _ _ _ _ Hf).
    rewrite (λ Hfg, mapM_res_weaken _
               (λ '(i, accessor), ci ← py_index (EVar <$> quantified c) (i + 1);
                                   Ok (FSubtype accessor ci)) _ _ Hfg Hl1).
    + simpl. rewrite Hcl. simpl. rewrite Hal. done.
    + intros [i a] b. unfold mbind, res_bind.
      destruct (py_index _ (i + 1)); [|done]. intros H.
      by rewrite (z3_subtype_inv _ _ _ _ H).
Qed.

Lemma args_sub_B_inv type_sort c x l :
  args_sub_B type_sort c (accessors_at c x) = Ok l → variance_B c x = Ok l.
Proof.
  unfold args_sub_B, variance_B. destruct (starts "tuple" c).
  - apply mapM_res_weaken. intros [i a] b. unfold mbind, res_bind.
    destruct (py_index _ i); [|done]. intros H. by rewrite (z3_subtype_inv _ _ _ _ H).
  - intros H.
    apply bind_Ok in H as (l1 & Hl1 & H). apply bind_Ok in H as (cl & Hcl & H).
    apply bind_Ok in H as (al & Hal & H). apply bind_Ok in H as (f & Hf & H).
    injection H as <-. rewrite (z3_subtype_inv _ _ _ _ Hf).
    rewrite (λ Hfg, mapM_res_weaken _
               (λ '(i, accessor), ci ← py_index (EVar <$> quantified c) (i + 1);
                                   Ok (FSubtype ci accessor)) _ _ Hfg Hl1).
    + simpl. rewrite Hcl. simpl. rewrite Hal. done.
    + intros [i a] b. unfold mbind, res_bind.
      destruct (py_index _ (i + 1)); [|done]. intros H.
      by rewrite (z3_subtype_inv _ _ _ _ H).
Qed.

(** The variance disjunct of a tuple or function pseudo-class whose name is
    made of names of the sort. *)
Lemma variance_option_A type_sort c x opts :
  names_sort type_sort c → starts "tuple" c || starts "func" c = true →
  (accessors ← accessors_of type_sort c x;
   args_sub ← args_sub_A type_sort c accessors;
   con ← z3_call type_sort (constructor_name c) accessors;
   Ok [FAnd (FEq x con :: args_sub)]) = Ok opts →
  ∃ args_sub, variance_A c x = Ok args_sub
    ∧ opts = [FAnd (FEq x (ECon (constructor_name c) (accessors_at c x)) :: args_sub)].
Proof.
  intros Hns Hst. unfold mbind, res_bind.
  destruct (accessors_of type_sort c x) as [accessors|] eqn:Hacc; [|done].
  apply (accessors_of_inv _ _ _ _ Hns) in Hacc as ->.
  destruct (args_sub_A _ _ _) as [args_sub|] eqn:Hargs; [|done].
  destruct (z3_call _ _ _) as [con|] eqn:Hcon; [|done]. intros [= <-].
  exists args_sub. split; [by apply args_sub_A_inv in Hargs|].
  rewrite (λ Hc, z3_call_con _ _ _ _ Hc Hcon); [done|].
  unfold names_sort in Hns. unfold starts in Hst. unfold constructor_name.
  destruct (name c) as [s|[|c0 accs]]; [done..|]. by destruct Hns.
Qed.

Lemma variance_option_B type_sort c x opts :
  names_sort type_sort c → starts "tuple" c || starts "func" c = true →
  (accessors ← accessors_of type_sort c x;
   args_sub ← args_sub_B type_sort c accessors;
   con ← z3_call type_sort (constructor_name c) accessors;
   Ok [FAnd (FEq x con :: args_sub)]) = Ok opts →
  ∃ args_sub, variance_B c x = Ok args_sub
    ∧ opts = [FAnd (FEq x (ECon (constructor_name c) (accessors_at c x)) :: args_sub)].
Proof.
  intros Hns Hst. unfold mbind, res_bind.
  destruct (accessors_of type_sort c x) as [accessors|] eqn:Hacc; [|done].
  apply (accessors_of_inv _ _ _ _ Hns) in Hacc as ->.
  destruct (args_sub_B _ _ _) as [args_sub|] eqn:Hargs; [|done].
  destruct (z3_call _ _ _) as [con|] eqn:Hcon; [|done]. intros [= <-].
  exists args_sub. split; [by apply args_sub_B_inv in Hargs|].
  rewrite (λ Hc, z3_call_con _ _ _ _ Hc Hcon); [done|].
  unfold names_sort in Hns. unfold starts in Hst. unfold constructor_name.
  destruct (name c) as [s|[|c0 accs]]; [done..|]. by destruct Hns.
Qed.

Lemma accessors_at_tuple c c0 accs x :
  name c = NTuple (c0 :: accs) → accessors_at c x = (λ a, EAcc a x) <$> accs.
Proof. unfold accessors_at. by intros ->. Qed.



(** ** Tuples *)


Lemma prefix_func_not_union s :
  String.prefix "func" s = true → String.prefix "union" s = false.
Proof.
  destruct s as [|a s]; [done|]. cbn [String.prefix].
  destruct (Ascii.ascii_dec _ a) as [<-|]; [|done]. intros _.
  by destruct (Ascii.ascii_dec _ _).
Qed.

Lemma prefix_func_not_tuple s :
  String.prefix "func" s = true → String.prefix "tuple" s = false.
Proof.
  destruct s as [|a s]; [done|]. cbn [String.prefix].
  destruct (Ascii.ascii_dec _ a) as [<-|]; [|done]. intros _.
  by destruct (Ascii.ascii_dec _ _).
Qed.

Lemma starts_tuple c c0 accs pre :
  name c = NTuple (c0 :: accs) → starts pre c = String.prefix pre c0.
Proof. unfold starts. by intros ->. Qed.

Lemma constructor_name_tuple c c0 accs :
  name c = NTuple (c0 :: accs) → constructor_name c = c0.
Proof. unfold constructor_name. by intros ->. Qed.





Lemma axiom_body_not_union cfg c opts :
  starts "union" c = false → axiom_body cfg c opts = FOr opts.
Proof. unfold axiom_body. by intros ->. Qed.


(** ** The disjuncts of the axioms *)

Lemma mapM_res_elem {A B} (f : A → res B) (l : list A) (r : list B) :
  mapM_res f l = Ok r → ∀ y, y ∈ r ↔ ∃ a, a ∈ l ∧ f a = Ok y.
Proof.
  revert r. induction l as [|a l IH]; intros r; simpl.
  - intros [= <-] y. split; [intros H; by apply elem_of_nil in H|].
    intros (a & H & _). by apply elem_of_nil in H.
  - unfold mbind, res_bind. destruct (f a) as [b|] eqn:Hb; [|done].
    destruct (mapM_res f l) as [bs|]; [|done]. intros [= <-] y.
    rewrite elem_of_cons, (IH bs eq_refl). split.
    + intros [->|(a' & Ha' & Hy)]; [exists a; split; [by left|done]|].
      exists a'. split; [by right|done].
    + intros (a' & Ha' & Hy). apply elem_of_cons in Ha' as [->|Ha'].
      * left. congruence.
      * right. eauto.
Qed.

(** The options of a node that is not a union pseudo-class. *)
Lemma options_A_inv cfg type_sort h i c lit opts :
  starts "union" c = false → options_A cfg type_sort h i c lit = Ok opts →
  ∃ var bases,
    opts = var ++ bases ++ get_union_as_supertype_axioms cfg lit (EVar x_const)
    ∧ base_options h i = Ok bases
    ∧ (if starts "tuple" c || starts "func" c
       then names_sort type_sort c →
            ∃ args_sub, variance_A c (EVar x_const) = Ok args_sub
            ∧ var = [FAnd (FEq (EVar x_const)
                             (ECon (constructor_name c) (accessors_at c (EVar x_const)))
                           :: args_sub)]
       else var = []).
Proof.
  intros Hnu. unfold options_A, base_options. rewrite Hnu. intros H.
  apply bind_Ok in H as (var & Hvar & H). apply bind_Ok in H as (bases & Hbases & H).
  injection H as <-. exists var, bases. split_and!; [done..|].
  destruct (starts "tuple" c || starts "func" c) eqn:Hst.
  - intros Hns. apply (variance_option_A _ _ _ _ Hns Hst) in Hvar. done.
  - by injection Hvar as <-.
Qed.

Lemma options_B_inv cfg type_sort h i c lit opts :
  starts "union" c = false → options_B cfg type_sort h i c lit = Ok opts →
  ∃ var subs,
    opts = (if none_subtype_of_all cfg then [FEq (EVar x_const) (ECon "none" [])] else [])
           ++ var ++ subs ++ get_union_as_subtype_axioms cfg lit (EVar x_const)
    ∧ sub_options h i lit = Ok subs
    ∧ (if starts "tuple" c || starts "func" c
       then names_sort type_sort c →
            ∃ args_sub, variance_B c (EVar x_const) = Ok args_sub
            ∧ var = [FAnd (FEq (EVar x_const)
                             (ECon (constructor_name c) (accessors_at c (EVar x_const)))
                           :: args_sub)]
       else var = []).
Proof.
  intros Hnu. unfold options_B, sub_options. rewrite Hnu. intros H.
  apply bind_Ok in H as (none & Hnone & H). apply bind_Ok in H as (var & Hvar & H).
  apply bind_Ok in H as (unions & Hun & H). apply bind_Ok in H as (subs & Hsubs & H).
  injection Hun as <-. injection H as <-. exists var, subs. split_and!; [|done|].
  - f_equal. destruct (none_subtype_of_all cfg); [|by injection Hnone as <-].
    apply bind_Ok in Hnone as (e & He & Hnone). injection Hnone as <-.
    by rewrite (sort_constant_inv _ _ _ He).
  - destruct (starts "tuple" c || starts "func" c) eqn:Hst.
    + intros Hns. apply (variance_option_B _ _ _ _ Hns Hst) in Hvar. done.
    + by injection Hvar as <-.
Qed.

(** A base disjunct holds when [x] is the literal of an ancestor. *)
Lemma sat_base_options M ρ h i bases :
  base_options h i = Ok bases →
  Exists (sat M ρ) bases
  ↔ ∃ j b lit, (j, b) ∈ nodes_of h (all_parents h i) ∧ get_literal b = Ok lit
               ∧ ρ x_const = eval M ρ lit.
Proof.
  intros Hb. rewrite Exists_exists. split.
  - intros (f & Hf & Hsat).
    apply (mapM_res_elem _ _ _ Hb) in Hf as ([j b] & Hin & Hfb).
    unfold mbind, res_bind in Hfb. destruct (get_literal b) as [lit|] eqn:Hlit; [|done].
    injection Hfb as <-. exists j, b, lit. done.
  - intros (j & b & lit & Hin & Hlit & Heq).
    exists (FEq (EVar x_const) lit). split; [|done].
    apply (mapM_res_elem _ _ _ Hb). exists (j, b). split; [done|].
    unfold mbind, res_bind. by rewrite Hlit.
Qed.

(** A descendant disjunct holds when [x] is the literal of the node or is
    built by the constructor of a descendant. *)
Lemma sat_sub_options M ρ h i c_literal subs :
  sub_options h i c_literal = Ok subs →
  Exists (sat M ρ) subs
  ↔ ∃ j d, (j, d) ∈ nodes_of h (all_children h i)
           ∧ ((j = i ∧ ρ x_const = eval M ρ c_literal)
              ∨ (j ≠ i ∧ ∃ lit, get_literal_with_args d (EVar x_const) = Ok lit
                               ∧ ρ x_const = eval M ρ lit)).
Proof.
  intros Hs. rewrite Exists_exists. split.
  - intros (f & Hf & Hsat).
    apply (mapM_res_elem _ _ _ Hs) in Hf as ([j d] & Hin & Hfd).
    exists j, d. split; [done|]. destruct (decide (j = i)) as [->|Hne].
    + injection Hfd as <-. by left.
    + right. split; [done|]. unfold mbind, res_bind in Hfd.
      destruct (get_literal_with_args d _) as [lit|]; [|done].
      injection Hfd as <-. eauto.
  - intros (j & d & Hin & [[-> Heq]|(Hne & lit & Hlit & Heq)]).
    + exists (FEq (EVar x_const) c_literal). split; [|done].
      apply (mapM_res_elem _ _ _ Hs). exists (i, d). split; [done|].
      by rewrite decide_True.
    + exists (FEq (EVar x_const) lit). split; [|done].
      apply (mapM_res_elem _ _ _ Hs). exists (j, d). split; [done|].
      rewrite decide_False by done. unfold mbind, res_bind. by rewrite Hlit.
Qed.

Lemma eval_literal_con M ρ b lit :
  get_literal b = Ok lit → ∃ args, eval M ρ lit = VCon (constructor_name b) args.
Proof.
  unfold get_literal, constructor_name.
  destruct (name b) as [s|[|c0 accs]]; intros [= <-]; simpl; eauto.
Qed.

Lemma eval_literal_with_args_con M ρ d x lit :
  get_literal_with_args d x = Ok lit →
  ∃ args, eval M ρ lit = VCon (constructor_name d) args.
Proof.
  unfold get_literal_with_args, constructor_name.
  destruct (name d) as [s|[|c0 accs]]; intros [= <-]; simpl; eauto.
Qed.

(** The union disjuncts hold only at values built by a union constructor. *)
Lemma sat_union_options_is_union cfg M ρ (body : nat → list formula) :
  Exists (sat M ρ)
    ((λ cur_len, FAnd (FEq (EVar x_const)
                         (ECon (union_name cur_len) (union_args (EVar x_const) cur_len))
                       :: body cur_len)) <$> union_range cfg) →
  is_union_val cfg (ρ x_const).
Proof.
  rewrite Exists_exists. intros (f & Hf & Hsat).
  apply list_elem_of_fmap in Hf as (k & -> & Hk).
  apply sat_and, Forall_cons in Hsat as [Heq _]. cbn [sat eval] in Heq.
  exists k. eexists. split; [done|]. exact Heq.
Qed.

Lemma sat_union_as_supertype_is_union cfg M ρ lit :
  Exists (sat M ρ) (get_union_as_supertype_axioms cfg lit (EVar x_const)) →
  is_union_val cfg (ρ x_const).
Proof. apply (sat_union_options_is_union cfg M ρ (λ _, _ :: _)). Qed.

Lemma sat_union_as_subtype_is_union cfg M ρ lit :
  Exists (sat M ρ) (get_union_as_subtype_axioms cfg lit (EVar x_const)) →
  is_union_val cfg (ρ x_const).
Proof. apply (sat_union_options_is_union cfg M ρ (λ _, _)). Qed.

Lemma union_name_prefix k : String.prefix "union" (union_name k) = true.
Proof. unfold union_name. cbn. repeat (destruct (Ascii.ascii_dec _ _); [|done]). done. Qed.

Lemma not_union_val cfg c0 args :
  String.prefix "union" c0 = false → ¬ is_union_val cfg (VCon c0 args).
Proof.
  intros Hp (k & args' & _ & [= -> _]). by rewrite union_name_prefix in Hp.
Qed.

(** ** Functions *)

Lemma py_inner_mid {A} (d : A) l r : py_inner (d :: l ++ [r]) = l.
Proof.
  unfold py_inner. change (drop 1 (d :: l ++ [r])) with (l ++ [r]).
  replace (length (d :: l ++ [r]) - 2) with (length l)
    by (simpl; rewrite length_app; simpl; lia).
  by rewrite take_app_length.
Qed.

Lemma fmap_py_inner {A B} (f : A → B) l : f <$> py_inner l = py_inner (f <$> l).
Proof. unfold py_inner. by rewrite fmap_take, fmap_drop, length_fmap. Qed.

Lemma last_cons_snoc {A} (d : A) l r : last (d :: l ++ [r]) = Some r.
Proof. rewrite app_comm_cons. apply last_snoc. Qed.

Lemma py_inner_lookup {A} (l : list A) j a :
  py_inner l !! j = Some a → l !! (j + 1) = Some a.
Proof.
  unfold py_inner. intros H. apply lookup_take_Some in H as [H _].
  rewrite lookup_drop in H. by rewrite Nat.add_comm.
Qed.

Lemma args_sub_A_func c c0 accs x :
  name c = NTuple (c0 :: accs) → starts "tuple" c = false → accs ≠ [] →
  variance_A c x = Ok (func_args_sub_A c x).
Proof.
  intros Hname Hst Hne. unfold variance_A, func_args_sub_A. rewrite Hst.
  unfold enumerate.
  rewrite (mapM_res_enum (λ ci accessor, FSubtype accessor ci)
             (EVar <$> quantified c) (λ i, i + 1) _ 0 (py_inner (EVar <$> quantified c))).
  - unfold mbind, res_bind, py_last.
    destruct (last (EVar <$> quantified c)) as [cl|] eqn:Hcl.
    + destruct (last (accessors_at c x)) as [al|] eqn:Hal; [done|].
      apply last_None in Hal. rewrite (accessors_at_tuple _ _ _ _ Hname) in Hal.
      by apply fmap_nil_inv in Hal.
    + apply last_None, fmap_nil_inv in Hcl.
      apply (f_equal length) in Hcl. rewrite (quantified_length _ _ _ Hname) in Hcl.
      by destruct accs.
  - unfold py_inner. rewrite !length_take, !length_drop, !length_fmap.
    rewrite (accessors_at_tuple _ _ _ _ Hname), length_fmap.
    by rewrite (quantified_length _ _ _ Hname).
  - intros j a Hj. by apply py_inner_lookup.
Qed.

Lemma args_sub_B_func c c0 accs x :
  name c = NTuple (c0 :: accs) → starts "tuple" c = false → accs ≠ [] →
  variance_B c x = Ok (func_args_sub_B c x).
Proof.
  intros Hname Hst Hne. unfold variance_B, func_args_sub_B. rewrite Hst.
  unfold enumerate.
  rewrite (mapM_res_enum FSubtype
             (EVar <$> quantified c) (λ i, i + 1) _ 0 (py_inner (EVar <$> quantified c))).
  - unfold mbind, res_bind, py_last.
    destruct (last (EVar <$> quantified c)) as [cl|] eqn:Hcl.
    + destruct (last (accessors_at c x)) as [al|] eqn:Hal; [done|].
      apply last_None in Hal. rewrite (accessors_at_tuple _ _ _ _ Hname) in Hal.
      by apply fmap_nil_inv in Hal.
    + apply last_None, fmap_nil_inv in Hcl.
      apply (f_equal length) in Hcl. rewrite (quantified_length _ _ _ Hname) in Hcl.
      by destruct accs.
  - unfold py_inner. rewrite !length_take, !length_drop, !length_fmap.
    rewrite (accessors_at_tuple _ _ _ _ Hname), length_fmap.
    by rewrite (quantified_length _ _ _ Hname).
  - intros j a Hj. by apply py_inner_lookup.
Qed.

Section FuncOption.
Context (M : interp) (c : ClassNode) (c0 dacc racc : string) (aaccs : list string).
Context (ρ : env) (X : val) (xd xr yd yr : val) (xs ys : list val).
Hypothesis Hname : name c = NTuple (c0 :: dacc :: aaccs ++ [racc]).
Hypothesis Hproj : projects M c0 (dacc :: aaccs ++ [racc]).
Hypothesis Hxs : length xs = length aaccs.
Hypothesis Hys : length ys = length aaccs.
Hypothesis HX : X = VCon c0 (xd :: xs ++ [xr]).

Let ρ' := env_of c X (yd :: ys ++ [yr]) ρ.

Lemma func_eval_consts : eval M ρ' <$> (EVar <$> quantified c) = yd :: ys ++ [yr].
Proof.
  rewrite eval_vars. apply env_of_quantified.
  rewrite (quantified_length _ _ _ Hname). simpl. rewrite !length_app. simpl. lia.
Qed.

Lemma func_eval_accessors :
  eval M ρ' <$> accessors_at c (EVar x_const) = xd :: xs ++ [xr].
Proof.
  rewrite (accessors_at_tuple _ _ _ _ Hname), eval_accs. cbn [eval].
  unfold ρ'. rewrite env_of_x, HX. apply Hproj.
  simpl. rewrite !length_app. simpl. lia.
Qed.

Lemma func_eval_X :
  ρ' x_const = eval M ρ' (ECon (constructor_name c) (accessors_at c (EVar x_const))).
Proof.
  cbn [eval]. rewrite func_eval_accessors, (constructor_name_tuple _ _ _ Hname).
  unfold ρ'. by rewrite env_of_x.
Qed.

Lemma func_last_consts :
  ∃ cl al, last (EVar <$> quantified c) = Some cl
           ∧ last (accessors_at c (EVar x_const)) = Some al
           ∧ eval M ρ' cl = yr ∧ eval M ρ' al = xr.
Proof.
  pose proof func_eval_consts as Hc. pose proof func_eval_accessors as Ha.
  apply (f_equal last) in Hc, Ha. rewrite fmap_last, last_cons_snoc in Hc, Ha.
  destruct (last (EVar <$> quantified c)) as [cl|]; [|done].
  destruct (last (accessors_at c (EVar x_const))) as [al|]; [|done].
  exists cl, al. simpl in Hc, Ha. by injection Hc as ->; injection Ha as ->.
Qed.

Lemma func_inner_consts : eval M ρ' <$> py_inner (EVar <$> quantified c) = ys.
Proof. by rewrite fmap_py_inner, func_eval_consts, py_inner_mid. Qed.

Lemma func_inner_accessors :
  eval M ρ' <$> py_inner (accessors_at c (EVar x_const)) = xs.
Proof. by rewrite fmap_py_inner, func_eval_accessors, py_inner_mid. Qed.

Lemma func_inner_length :
  length (py_inner (EVar <$> quantified c))
  = length (py_inner (accessors_at c (EVar x_const))).
Proof.
  rewrite <- (length_fmap (eval M ρ')), func_inner_consts.
  rewrite <- (length_fmap (eval M ρ') (py_inner (accessors_at _ _))), func_inner_accessors.
  congruence.
Qed.

(** At a function [X] the variance disjunct of the first axiom says: the
    arguments of [X] are subtypes of the bound ones, the bound return is
    a subtype of the return of [X]. *)
Lemma sat_func_option_A :
  sat M ρ' (func_option_A c) ↔ Forall2 (i_sub M) xs ys ∧ i_sub M yr xr.
Proof.
  unfold func_option_A, func_args_sub_A.
  destruct func_last_consts as (cl & al & -> & -> & Hcl & Hal).
  rewrite sat_and, Forall_cons, Forall_app, Forall_singleton.
  rewrite sat_zip_subtype_flip by apply func_inner_length.
  rewrite func_inner_consts, func_inner_accessors.
  cbn [sat]. rewrite Hcl, Hal. pose proof func_eval_X. tauto.
Qed.

Lemma sat_func_option_B :
  sat M ρ' (func_option_B c) ↔ Forall2 (i_sub M) ys xs ∧ i_sub M xr yr.
Proof.
  unfold func_option_B, func_args_sub_B.
  destruct func_last_consts as (cl & al & -> & -> & Hcl & Hal).
  rewrite sat_and, Forall_cons, Forall_app, Forall_singleton.
  rewrite sat_zip_subtype by apply func_inner_length.
  rewrite func_inner_consts, func_inner_accessors.
  cbn [sat]. rewrite Hcl, Hal. pose proof func_eval_X. tauto.
Qed.
End FuncOption.

Lemma Exists_single {A} (P : A → Prop) x : Exists P [x] ↔ P x.
Proof. rewrite Exists_cons, Exists_nil. tauto. Qed.

Lemma nodes_of_elem (h : heap) l j b :
  (j, b) ∈ nodes_of h l ↔ j ∈ l ∧ h !! j = Some b.
Proof.
  unfold nodes_of. rewrite list_elem_of_omap. split.
  - intros (k & Hk & Hkb). destruct (h !! k) as [n|] eqn:Hn; [|done].
    simpl in Hkb. injection Hkb as <- <-. done.
  - intros [Hj Hb]. exists j. by rewrite Hb.
Qed.

Lemma all_parents_self (h : heap) i c : h !! i = Some c → (i, c) ∈ nodes_of h (all_parents h i).
Proof.
  intros Hc. apply nodes_of_elem. split; [|done]. unfold all_parents.
  destruct h as [|n h]; [done|]. cbn [length all_parents_fuel]. by left.
Qed.

Lemma all_children_self (h : heap) i c : h !! i = Some c → (i, c) ∈ nodes_of h (all_children h i).
Proof.
  intros Hc. apply nodes_of_elem. split; [|done]. unfold all_children.
  destruct h as [|n h]; [done|]. cbn [length all_children_fuel]. by left.
Qed.

Lemma get_literal_tuple c c0 accs :
  name c = NTuple (c0 :: accs) → get_literal c = Ok (ECon c0 (EVar <$> quantified c)).
Proof. unfold get_literal. by intros ->. Qed.

(** For a parametric node no other ancestor of which has its constructor,
    the base disjuncts hold at a value of that constructor exactly when it
    is the literal itself. *)
Lemma sat_bases_same_con M (h : heap) i c c0 accs bases xs ys ρ :
  h !! i = Some c → name c = NTuple (c0 :: accs) → base_options h i = Ok bases →
  (∀ j b, (j, b) ∈ nodes_of h (all_parents h i) → j ≠ i → constructor_name b ≠ c0) →
  length ys = length accs →
  Exists (sat M (env_of c (VCon c0 xs) ys ρ)) bases ↔ xs = ys.
Proof.
  intros Hc Hname Hb Hother Hys.
  assert (Hlen : length ys = length (quantified c))
    by (by rewrite (quantified_length _ _ _ Hname)).
  rewrite (sat_base_options _ _ _ _ _ Hb), env_of_x. split.
  - intros (j & b & lit & Hin & Hlit & Heq). destruct (decide (j = i)) as [->|Hne].
    + apply nodes_of_elem in Hin as [_ Hb']. rewrite Hc in Hb'. injection Hb' as <-.
      unfold env_of in Heq. rewrite (eval_literal M c lit _ ys ρ Hlit Hlen) in Heq.
      by injection Heq.
    + destruct (eval_literal_con M (env_of c (VCon c0 xs) ys ρ) b lit Hlit) as [args Hargs].
      rewrite Hargs in Heq. injection Heq as Hcon _.
      by destruct (Hother j b Hin Hne).
  - intros ->. exists i, c. eexists. split; [by apply all_parents_self|].
    split; [by apply (get_literal_tuple _ _ _ Hname)|].
    cbn [eval]. by rewrite eval_vars, env_of_quantified.
Qed.

Lemma sat_subs_same_con M (h : heap) i c c0 accs lit subs xs ys ρ :
  h !! i = Some c → name c = NTuple (c0 :: accs) → get_literal c = Ok lit →
  sub_options h i lit = Ok subs →
  (∀ j d, (j, d) ∈ nodes_of h (all_children h i) → j ≠ i → constructor_name d ≠ c0) →
  length ys = length accs →
  Exists (sat M (env_of c (VCon c0 xs) ys ρ)) subs ↔ xs = ys.
Proof.
  intros Hc Hname Hlit Hs Hother Hys.
  assert (Hlen : length ys = length (quantified c))
    by (by rewrite (quantified_length _ _ _ Hname)).
  rewrite (sat_sub_options _ _ _ _ _ _ Hs), env_of_x.
  unfold env_of at 1. rewrite (eval_literal M c lit _ ys ρ Hlit Hlen).
  rewrite (constructor_name_tuple _ _ _ Hname). split.
  - intros (j & d & Hin & [[-> Heq]|(Hne & lit' & Hlit' & Heq)]).
    + by injection Heq.
    + destruct (eval_literal_with_args_con M (env_of c (VCon c0 xs) ys ρ) d _ lit' Hlit')
        as [args Hargs].
      rewrite Hargs in Heq. injection Heq as Hcon _.
      by destruct (Hother j d Hin Hne).
  - intros ->. exists i, c. split; [by apply all_children_self|]. by left.
Qed.

(** C3 (as amended): for the pseudo-class of the functions of some arity
    (its name lists a constructor of the sort and its accessors), no other
    ancestor (descendant) of which is built by its constructor, in
    every model of its first (second) axiom a function type [f] is a subtype
    of a function type [g] of the same constructor exactly when the
    arguments of [g] are subtypes of those of [f] and the return of [f] is a
    subtype of the return of [g], or [f] and [g] are the same type. *)
Theorem function_variance cfg type_sort (h : heap) i c c0 dacc aaccs racc M ρ d as_ r d' bs s :
  h !! i = Some c → name c = NTuple (c0 :: dacc :: aaccs ++ [racc]) →
  String.prefix "func" c0 = true → names_sort type_sort c →
  projects M c0 (dacc :: aaccs ++ [racc]) →
  length as_ = length aaccs → length bs = length aaccs →
  let f := VCon c0 (d :: as_ ++ [r]) in
  let g := VCon c0 (d' :: bs ++ [s]) in
  (∀ ax, axiom_A cfg type_sort h i c = Ok ax → sat M ρ ax →
     in_dom M c g (d :: as_ ++ [r]) →
     (∀ j b, (j, b) ∈ nodes_of h (all_parents h i) → j ≠ i → constructor_name b ≠ c0) →
     (i_sub M f g ↔ (Forall2 (i_sub M) bs as_ ∧ i_sub M r s) ∨ f = g))
  ∧ (∀ ax, axiom_B cfg type_sort h i c = Ok ax → sat M ρ ax →
     in_dom M c f (d' :: bs ++ [s]) →
     (∀ j b, (j, b) ∈ nodes_of h (all_children h i) → j ≠ i → constructor_name b ≠ c0) →
     (i_sub M f g ↔ (Forall2 (i_sub M) bs as_ ∧ i_sub M r s) ∨ f = g)).
Proof.
  intros Hc Hname Hpre Hns Hproj Has Hbs f g. subst f g.
  assert (Hnu : starts "union" c = false).
  { rewrite (starts_tuple _ _ _ _ Hname). by apply prefix_func_not_union. }
  assert (Hnt : starts "tuple" c = false).
  { rewrite (starts_tuple _ _ _ _ Hname). by apply prefix_func_not_tuple. }
  assert (Hfn : starts "func" c = true) by (by rewrite (starts_tuple _ _ _ _ Hname)).
  assert (Hlen : ∀ (l : list val) (x y : val),
            length l = length aaccs →
            length (x :: l ++ [y]) = length (dacc :: aaccs ++ [racc])).
  { intros l x y Hl. simpl. rewrite !length_app. simpl. lia. }
  split.
  - intros ax Hax Hsat Hdom Hother.
    pose proof Hax as Hax'.
    apply axiom_A_inv in Hax' as (lit & opts & Hlit & Hopts & _).
    destruct (options_A_inv _ _ _ _ _ _ _ Hnu Hopts) as (var & bases & -> & Hbases & Hvar).
    rewrite Hnt, Hfn in Hvar. cbn [orb] in Hvar.
    destruct (Hvar Hns) as (args_sub & Hargs & ->).
    rewrite (args_sub_A_func c c0 _ _ Hname Hnt) in Hargs by done.
    injection Hargs as <-. fold (func_option_A c) in Hopts.
    rewrite <- (constructor_name_tuple _ _ _ Hname) at 1.
    rewrite (sat_axiom_A _ _ _ _ _ _ _ _ _ _ _ _ Hax Hlit Hopts Hsat Hdom).
    rewrite (axiom_body_not_union _ _ _ Hnu), sat_or, !Exists_app, Exists_single.
    fold (func_option_A c).
    rewrite (sat_func_option_A M c c0 dacc racc aaccs ρ _ d' s d r bs as_
               Hname Hproj Hbs Has eq_refl).
    rewrite (sat_bases_same_con M h i c c0 _ bases _ _ ρ Hc Hname Hbases Hother)
      by by apply Hlen.
    split; [intros [?|[Heq|Hu]]|intros [?|Heq]]; auto.
    + right. congruence.
    + apply sat_union_as_supertype_is_union in Hu. rewrite env_of_x in Hu.
      exfalso. revert Hu. apply not_union_val. by apply prefix_func_not_union.
    + right. left. congruence.
  - intros ax Hax Hsat Hdom Hother.
    pose proof Hax as Hax'.
    apply axiom_B_inv in Hax' as (lit & opts & Hlit & Hopts & _).
    destruct (options_B_inv _ _ _ _ _ _ _ Hnu Hopts) as (var & subs & -> & Hsubs & Hvar).
    rewrite Hnt, Hfn in Hvar. cbn [orb] in Hvar.
    destruct (Hvar Hns) as (args_sub & Hargs & ->).
    rewrite (args_sub_B_func c c0 _ _ Hname Hnt) in Hargs by done.
    injection Hargs as <-.
    rewrite <- (constructor_name_tuple _ _ _ Hname) at 2.
    rewrite (sat_axiom_B _ _ _ _ _ _ _ _ _ _ _ _ Hax Hlit Hopts Hsat Hdom).
    rewrite (axiom_body_not_union _ _ _ Hnu), sat_or, !Exists_app, Exists_single.
    fold (func_option_B c).
    rewrite (sat_func_option_B M c c0 dacc racc aaccs ρ _ d r d' s as_ bs
               Hname Hproj Has Hbs eq_refl).
    rewrite (sat_subs_same_con M h i c c0 _ lit subs _ _ ρ Hc Hname Hlit Hsubs Hother)
      by by apply Hlen.
    split; [intros [Hn|[?|[Heq|Hu]]]|intros [?|Heq]]; auto.
    + exfalso. destruct (none_subtype_of_all cfg); [|by apply Exists_nil in Hn].
      rewrite Exists_single in Hn. cbn [sat eval] in Hn. rewrite env_of_x in Hn.
      discriminate Hn.
    + right. congruence.
    + apply sat_union_as_subtype_is_union in Hu. rewrite env_of_x in Hu.
      exfalso. revert Hu. apply not_union_val. by apply prefix_func_not_union.
    + right. right. left. congruence.
Qed.

(** ** Reflexivity, ancestors and descendants *)

(** For a class node [c] that is not a union pseudo-class, every model of its second axiom makes the literal of [c] a subtype of
    itself and makes every value built by the constructor of a transitive
    descendant of [c] a subtype of the literal of [c]; every model of its
    first axiom (emitted unless [c] is ['none'] under
    [none_subtype_of_all]) makes the literal of [c] a subtype of the
    literal of each of its transitive ancestors. *)
Lemma class_axioms_reflexive cfg type_sort (h : heap) i c M ρ :
  h !! i = Some c → starts "union" c = false →
  (∀ ax, axiom_B cfg type_sort h i c = Ok ax → sat M ρ ax →
     (∀ ys, in_dom M c (VCon (constructor_name c) ys) ys →
        i_sub M (VCon (constructor_name c) ys) (VCon (constructor_name c) ys))
     ∧ (∀ j d ld a ys,
          (j, d) ∈ nodes_of h (all_children h i) → j ≠ i →
          get_literal_with_args d (EVar x_const) = Ok ld →
          in_dom M c a ys → a = eval M (env_of c a ys ρ) ld →
          i_sub M a (VCon (constructor_name c) ys)))
  ∧ (∀ ax, emits_A cfg c = true → axiom_A cfg type_sort h i c = Ok ax → sat M ρ ax →
     ∀ j b lb a ys,
       (j, b) ∈ nodes_of h (all_parents h i) → get_literal b = Ok lb →
       in_dom M c a ys → a = eval M (env_of c a ys ρ) lb →
       i_sub M (VCon (constructor_name c) ys) a).
Proof.
  intros Hc Hnu. split.
  - intros ax Hax Hsat.
    pose proof Hax as Hax'.
    apply axiom_B_inv in Hax' as (lit & opts & Hlit & Hopts & _).
    destruct (options_B_inv _ _ _ _ _ _ _ Hnu Hopts) as (var & subs & -> & Hsubs & _).
    split.
    + intros ys Hdom.
      rewrite (sat_axiom_B _ _ _ _ _ _ _ _ _ _ _ _ Hax Hlit Hopts Hsat Hdom).
      rewrite (axiom_body_not_union _ _ _ Hnu), sat_or, !Exists_app.
      right. right. left. apply (sat_sub_options _ _ _ _ _ _ Hsubs).
      exists i, c. split; [by apply all_children_self|]. left. split; [done|].
      rewrite env_of_x. unfold env_of.
      by rewrite (eval_literal M c lit _ ys ρ Hlit (in_dom_length _ _ _ _ Hdom)).
    + intros j d ld a ys Hin Hne Hld Hdom Ha.
      rewrite (sat_axiom_B _ _ _ _ _ _ _ _ _ _ _ _ Hax Hlit Hopts Hsat Hdom).
      rewrite (axiom_body_not_union _ _ _ Hnu), sat_or, !Exists_app.
      right. right. left. apply (sat_sub_options _ _ _ _ _ _ Hsubs).
      exists j, d. split; [done|]. right. split; [done|]. exists ld.
      split; [done|]. by rewrite env_of_x.
  - intros ax _ Hax Hsat j b lb a ys Hin Hlb Hdom Ha.
    pose proof Hax as Hax'.
    apply axiom_A_inv in Hax' as (lit & opts & Hlit & Hopts & _).
    destruct (options_A_inv _ _ _ _ _ _ _ Hnu Hopts) as (var & bases & -> & Hbases & _).
    rewrite (sat_axiom_A _ _ _ _ _ _ _ _ _ _ _ _ Hax Hlit Hopts Hsat Hdom).
    rewrite (axiom_body_not_union _ _ _ Hnu), sat_or, !Exists_app.
    right. left. apply (sat_base_options _ _ _ _ _ Hbases).
    exists j, b, lb. split_and!; [done..|]. by rewrite env_of_x.
Qed.

(** ** The type none *)

Lemma options_B_flag cfg type_sort h i c lit opts :
  options_B cfg type_sort h i c lit = Ok opts →
  ∃ rest, opts = (if none_subtype_of_all cfg
                  then [FEq (EVar x_const) (ECon "none" [])] else []) ++ rest
          ∧ options_B (with_flag cfg false) type_sort h i c lit = Ok rest.
Proof.
  unfold options_B. intros H.
  change (none_subtype_of_all (with_flag cfg false)) with false.
  change (_not_union (with_flag cfg false)) with (_not_union cfg).
  change (get_union_as_union_subtype_axioms (with_flag cfg false))
    with (get_union_as_union_subtype_axioms cfg).
  change (get_union_as_subtype_axioms (with_flag cfg false))
    with (get_union_as_subtype_axioms cfg).
  apply bind_Ok in H as (none & Hnone & H). apply bind_Ok in H as (var & -> & H).
  apply bind_Ok in H as (unions & -> & H). apply bind_Ok in H as (subs & -> & H).
  injection H as <-. eexists. split; [|reflexivity]. f_equal.
  destruct (none_subtype_of_all cfg); [|by injection Hnone as <-].
  apply bind_Ok in Hnone as (e & He & Hnone). injection Hnone as <-.
  by rewrite (sort_constant_inv _ _ _ He).
Qed.

(** The second axiom of every class starts with the
    disjunct [x = none] exactly when [none_subtype_of_all] is set, the other
    disjuncts being the same.  For a class node that is not a union
    pseudo-class, in every model of it: with the flag set none is a subtype
    of the literal of the class; with the flag not set none is a subtype of
    it only by another disjunct, so it is not when neither the class nor a
    descendant is built by the constructor none. *)
Lemma none_axiom_flag cfg type_sort (h : heap) i c M ρ ax lit opts :
  h !! i = Some c → starts "union" c = false →
  axiom_B cfg type_sort h i c = Ok ax → get_literal c = Ok lit →
  options_B cfg type_sort h i c lit = Ok opts → sat M ρ ax →
  (∃ rest, opts = (if none_subtype_of_all cfg
                   then [FEq (EVar x_const) (ECon "none" [])] else []) ++ rest
           ∧ options_B (with_flag cfg false) type_sort h i c lit = Ok rest)
  ∧ (none_subtype_of_all cfg = true →
     ∀ ys, in_dom M c (VCon "none" []) ys →
       i_sub M (VCon "none" []) (VCon (constructor_name c) ys))
  ∧ (none_subtype_of_all cfg = false → names_sort type_sort c →
     (∀ j d, (j, d) ∈ nodes_of h (all_children h i) → constructor_name d ≠ "none") →
     ∀ ys, in_dom M c (VCon "none" []) ys →
       ¬ i_sub M (VCon "none" []) (VCon (constructor_name c) ys)).
Proof.
  intros Hc Hnu Hax Hlit Hopts Hsat. split; [by eapply options_B_flag|].
  pose proof Hopts as Hopts'.
  destruct (options_B_inv _ _ _ _ _ _ _ Hnu Hopts) as (var & subs & -> & Hsubs & Hvar).
  split.
  - intros Hflag ys Hdom.
    rewrite (sat_axiom_B _ _ _ _ _ _ _ _ _ _ _ _ Hax Hlit Hopts' Hsat Hdom).
    rewrite (axiom_body_not_union _ _ _ Hnu), sat_or, !Exists_app. left.
    rewrite Hflag. apply Exists_single. cbn [sat eval]. by rewrite env_of_x.
  - intros Hflag Hns Hother ys Hdom.
    rewrite (sat_axiom_B _ _ _ _ _ _ _ _ _ _ _ _ Hax Hlit Hopts' Hsat Hdom).
    rewrite (axiom_body_not_union _ _ _ Hnu), sat_or, !Exists_app, Hflag.
    assert (Hcn : constructor_name c ≠ "none").
    { apply (Hother i c). by apply all_children_self. }
    intros [Hn|[Hv|[Hs|Hu]]].
    + by apply Exists_nil in Hn.
    + destruct (starts "tuple" c || starts "func" c).
      * destruct (Hvar Hns) as (args_sub & _ & ->). rewrite Exists_single in Hv.
        apply sat_and, Forall_cons in Hv as [Hv _]. cbn [sat eval] in Hv.
        rewrite env_of_x in Hv. by injection Hv as Hv _.
      * subst var. by apply Exists_nil in Hv.
    + apply (sat_sub_options _ _ _ _ _ _ Hsubs) in Hs
        as (j & d & Hin & [[-> Heq]|(Hne & ld & Hld & Heq)]); rewrite env_of_x in Heq.
      * unfold env_of in Heq.
        rewrite (eval_literal M c lit _ ys ρ Hlit (in_dom_length _ _ _ _ Hdom)) in Heq.
        by injection Heq as Heq _.
      * destruct (eval_literal_with_args_con M (env_of c (VCon "none" []) ys ρ) d _ ld Hld)
          as [args Hargs].
        rewrite Hargs in Heq. injection Heq as Heq _. by apply (Hother j d Hin).
    + apply sat_union_as_subtype_is_union in Hu. rewrite env_of_x in Hu.
      by apply not_union_val in Hu.
Qed.

(** ** Unions *)

Lemma union_name_inj k k' : union_name k = union_name k' → k = k'.
Proof.
  unfold union_name. intros H. apply (inj (String.app "union_")) in H.
  by apply (inj pretty) in H.
Qed.

Lemma union_args_accs x k : union_args x k = (λ a, EAcc a x) <$> union_accs k.
Proof. unfold union_args, union_accs. by rewrite <- list_fmap_compose. Qed.

Lemma union_accs_length k : length (union_accs k) = k.
Proof. unfold union_accs. by rewrite length_fmap, length_seq. Qed.

Lemma eval_union_args M ρ k xs :
  projects M (union_name k) (union_accs k) → length xs = k →
  ρ x_const = VCon (union_name k) xs →
  eval M ρ <$> union_args (EVar x_const) k = xs.
Proof.
  intros Hproj Hlen Hx. rewrite union_args_accs, eval_accs. cbn [eval].
  rewrite Hx. apply Hproj. by rewrite union_accs_length.
Qed.

Lemma not_union2_iff M a :
  projects M "union_2" ["union_2_arg_1"; "union_2_arg_2"] →
  a ≠ VCon "union_2" [i_acc M "union_2_arg_1" a; i_acc M "union_2_arg_2" a]
  ↔ ¬ is_union2 a.
Proof.
  intros Hproj. split.
  - intros Hne (u & v & ->). apply Hne.
    pose proof (Hproj [u; v] eq_refl) as H. simpl in H. by injection H as -> ->.
  - intros Hnu Heq. apply Hnu. eexists _, _. exact Heq.
Qed.

(** What the disjuncts of [get_union_as_supertype_axioms] say at a union
    of length [k]: the literal is a subtype of a member, and no member is
    built by the constructor of the unions of length two. *)
Lemma sat_union_as_supertype cfg M ρ lit k xs :
  k ∈ union_range cfg → length xs = k →
  projects M (union_name k) (union_accs k) →
  projects M "union_2" ["union_2_arg_1"; "union_2_arg_2"] →
  ρ x_const = VCon (union_name k) xs →
  Exists (sat M ρ) (get_union_as_supertype_axioms cfg lit (EVar x_const))
  ↔ Exists (i_sub M (eval M ρ lit)) xs ∧ Forall (λ x, ¬ is_union2 x) xs.
Proof.
  intros Hk Hlen Hproj Hproj2 Hx.
  assert (Hbody : ∀ cur_len, cur_len = k →
    sat M ρ (FAnd (FEq (EVar x_const)
                     (ECon (union_name cur_len) (union_args (EVar x_const) cur_len))
                   :: FOr ((λ arg, FSubtype lit arg) <$> union_args (EVar x_const) cur_len)
                   :: (union_args (EVar x_const) cur_len ≫= λ arg,
                         (λ _ : nat, FNeq arg (ECon "union_2"
                            [EAcc "union_2_arg_1" arg; EAcc "union_2_arg_2" arg]))
                         <$> union_range cfg)))
    ↔ Exists (i_sub M (eval M ρ lit)) xs ∧ Forall (λ x, ¬ is_union2 x) xs).
  { intros cur_len ->. rewrite sat_and, !Forall_cons, sat_or, Exists_fmap, Forall_bind.
    cbn [sat eval]. rewrite (eval_union_args M ρ k xs Hproj Hlen Hx), Hx.
    rewrite <- (eval_union_args M ρ k xs Hproj Hlen Hx) at 3 4.
    rewrite Exists_fmap, Forall_fmap.
    assert (Hargs : Forall (λ arg,
               Forall (sat M ρ)
                 ((λ _ : nat, FNeq arg (ECon "union_2"
                     [EAcc "union_2_arg_1" arg; EAcc "union_2_arg_2" arg]))
                  <$> union_range cfg)) (union_args (EVar x_const) k)
             ↔ Forall ((λ x, ¬ is_union2 x) ∘ eval M ρ) (union_args (EVar x_const) k)).
    { apply Forall_iff. intros arg. rewrite Forall_fmap. unfold compose.
      rewrite <- (not_union2_iff M (eval M ρ arg) Hproj2). split.
      - intros H. rewrite Forall_forall in H. exact (H k Hk).
      - intros H. apply Forall_forall. intros _ _. exact H. }
    rewrite Hargs. unfold compose. cbn [sat eval]. tauto. }
  unfold get_union_as_supertype_axioms. rewrite Exists_exists. split.
  - intros (f & Hf & Hsat). apply list_elem_of_fmap in Hf as (cur_len & -> & Hcur).
    assert (cur_len = k) as ->.
    { pose proof Hsat as Hsat'.
      apply sat_and, Forall_cons in Hsat' as [Heq _]. cbn [sat eval] in Heq.
      rewrite Hx in Heq. apply union_name_inj. congruence. }
    by apply (proj1 (Hbody k eq_refl)).
  - intros H. eexists. split; [apply list_elem_of_fmap; by exists k|].
    by apply (proj2 (Hbody k eq_refl)).
Qed.

(** What the disjuncts of [get_union_as_subtype_axioms] say at a union of
    length [k]: every member is a subtype of the literal. *)
Lemma sat_union_as_subtype cfg M ρ lit k xs :
  k ∈ union_range cfg → length xs = k →
  projects M (union_name k) (union_accs k) →
  ρ x_const = VCon (union_name k) xs →
  Exists (sat M ρ) (get_union_as_subtype_axioms cfg lit (EVar x_const))
  ↔ Forall (λ x, i_sub M x (eval M ρ lit)) xs.
Proof.
  intros Hk Hlen Hproj Hx.
  assert (Hbody : ∀ cur_len, cur_len = k →
    sat M ρ (FAnd (FEq (EVar x_const)
                     (ECon (union_name cur_len) (union_args (EVar x_const) cur_len))
                   :: ((λ arg, FSubtype arg lit) <$> union_args (EVar x_const) cur_len)))
    ↔ Forall (λ x, i_sub M x (eval M ρ lit)) xs).
  { intros cur_len ->. rewrite sat_and, !Forall_cons, Forall_fmap.
    cbn [sat eval]. rewrite (eval_union_args M ρ k xs Hproj Hlen Hx), Hx.
    rewrite <- (eval_union_args M ρ k xs Hproj Hlen Hx) at 3.
    rewrite Forall_fmap. unfold compose. cbn [sat eval]. tauto. }
  unfold get_union_as_subtype_axioms. rewrite Exists_exists. split.
  - intros (f & Hf & Hsat). apply list_elem_of_fmap in Hf as (cur_len & -> & Hcur).
    assert (cur_len = k) as ->.
    { pose proof Hsat as Hsat'.
      apply sat_and, Forall_cons in Hsat' as [Heq _]. cbn [sat eval] in Heq.
      rewrite Hx in Heq. apply union_name_inj. congruence. }
    by apply (proj1 (Hbody k eq_refl)).
  - intros H. eexists. split; [apply list_elem_of_fmap; by exists k|].
    by apply (proj2 (Hbody k eq_refl)).
Qed.

Lemma sat_variance_con M ρ type_sort c var (args_sub_of : res (list formula)) :
  names_sort type_sort c →
  (if starts "tuple" c || starts "func" c
   then names_sort type_sort c →
        ∃ args_sub, args_sub_of = Ok args_sub
        ∧ var = [FAnd (FEq (EVar x_const)
                         (ECon (constructor_name c) (accessors_at c (EVar x_const)))
                       :: args_sub)]
   else var = []) →
  Exists (sat M ρ) var → ∃ args, ρ x_const = VCon (constructor_name c) args.
Proof.
  intros Hns. destruct (starts "tuple" c || starts "func" c).
  - intros Hvar Hv. destruct (Hvar Hns) as (args_sub & _ & ->).
    rewrite Exists_single in Hv.
    apply sat_and, Forall_cons in Hv as [Hv _]. cbn [sat eval] in Hv. eauto.
  - intros -> Hv. by apply Exists_nil in Hv.
Qed.

(** For a class node [c] that is not a union pseudo-class
    and a union [U] of length [k] whose constructor builds no ancestor
    (descendant) of [c], in every model of the first axiom of [c] the
    literal of [c] is a subtype of [U] exactly when it is a subtype of a
    member of [U] and no member of [U] is built by the constructor of the
    unions of length two; in every model of the second axiom of [c], [U] is
    a subtype of the literal of [c] exactly when every member of [U] is. *)
Lemma union_axioms_packing cfg type_sort (h : heap) i c M ρ k xs :
  h !! i = Some c → starts "union" c = false → names_sort type_sort c →
  k ∈ union_range cfg → length xs = k →
  projects M (union_name k) (union_accs k) →
  projects M "union_2" ["union_2_arg_1"; "union_2_arg_2"] →
  (∀ ax ys, emits_A cfg c = true → axiom_A cfg type_sort h i c = Ok ax → sat M ρ ax →
     in_dom M c (VCon (union_name k) xs) ys →
     (∀ j b, (j, b) ∈ nodes_of h (all_parents h i) → constructor_name b ≠ union_name k) →
     (i_sub M (VCon (constructor_name c) ys) (VCon (union_name k) xs)
      ↔ Exists (i_sub M (VCon (constructor_name c) ys)) xs
        ∧ Forall (λ x, ¬ is_union2 x) xs))
  ∧ (∀ ax ys, axiom_B cfg type_sort h i c = Ok ax → sat M ρ ax →
     in_dom M c (VCon (union_name k) xs) ys →
     (∀ j d, (j, d) ∈ nodes_of h (all_children h i) → constructor_name d ≠ union_name k) →
     (i_sub M (VCon (union_name k) xs) (VCon (constructor_name c) ys)
      ↔ Forall (λ x, i_sub M x (VCon (constructor_name c) ys)) xs)).
Proof.
  intros Hc Hnu Hns Hk Hlen Hproj Hproj2. split.
  - intros ax ys _ Hax Hsat Hdom Hother.
    pose proof Hax as Hax'.
    apply axiom_A_inv in Hax' as (lit & opts & Hlit & Hopts & _).
    pose proof Hopts as Hopts'.
    destruct (options_A_inv _ _ _ _ _ _ _ Hnu Hopts) as (var & bases & -> & Hbases & Hvar).
    rewrite (sat_axiom_A _ _ _ _ _ _ _ _ _ _ _ _ Hax Hlit Hopts' Hsat Hdom).
    rewrite (axiom_body_not_union _ _ _ Hnu), sat_or, !Exists_app.
    rewrite (sat_union_as_supertype cfg M _ lit k xs Hk Hlen Hproj Hproj2)
      by apply env_of_x.
    unfold env_of at 3.
    rewrite (eval_literal M c lit _ ys ρ Hlit (in_dom_length _ _ _ _ Hdom)).
    split; [intros [Hv|[Hb|Hu]]|auto]; [| |done].
    + eapply sat_variance_con in Hv as (args & Hv); [|done..].
      rewrite env_of_x in Hv. injection Hv as Hv _.
      destruct (Hother i c); [by apply all_parents_self|done].
    + apply (sat_base_options _ _ _ _ _ Hbases) in Hb as (j & b & lb & Hin & Hlb & Heq).
      destruct (eval_literal_con M (env_of c (VCon (union_name k) xs) ys ρ) b lb Hlb)
        as [args Hargs].
      rewrite env_of_x, Hargs in Heq. injection Heq as Heq _.
      by destruct (Hother j b Hin).
  - intros ax ys Hax Hsat Hdom Hother.
    pose proof Hax as Hax'.
    apply axiom_B_inv in Hax' as (lit & opts & Hlit & Hopts & _).
    pose proof Hopts as Hopts'.
    destruct (options_B_inv _ _ _ _ _ _ _ Hnu Hopts) as (var & subs & -> & Hsubs & Hvar).
    rewrite (sat_axiom_B _ _ _ _ _ _ _ _ _ _ _ _ Hax Hlit Hopts' Hsat Hdom).
    rewrite (axiom_body_not_union _ _ _ Hnu), sat_or, !Exists_app.
    rewrite (sat_union_as_subtype cfg M _ lit k xs Hk Hlen Hproj) by apply env_of_x.
    unfold env_of at 4.
    rewrite (eval_literal M c lit _ ys ρ Hlit (in_dom_length _ _ _ _ Hdom)).
    split; [intros [Hn|[Hv|[Hs|Hu]]]|auto]; [| | |done].
    + exfalso. destruct (none_subtype_of_all cfg); [|by apply Exists_nil in Hn].
      rewrite Exists_single in Hn. cbn [sat eval] in Hn. rewrite env_of_x in Hn.
      assert (Hp : union_name k = "none") by congruence.
      pose proof (union_name_prefix k) as Hq. rewrite Hp in Hq. discriminate Hq.
    + eapply sat_variance_con in Hv as (args & Hv); [|done..].
      rewrite env_of_x in Hv. injection Hv as Hv _.
      destruct (Hother i c); [by apply all_children_self|done].
    + apply (sat_sub_options _ _ _ _ _ _ Hsubs) in Hs
        as (j & d & Hin & [[-> Heq]|(Hne & ld & Hld & Heq)]); rewrite env_of_x in Heq.
      * unfold env_of in Heq.
        rewrite (eval_literal M c lit _ ys ρ Hlit (in_dom_length _ _ _ _ Hdom)) in Heq.
        injection Heq as Heq _.
        destruct (Hother i c); [by apply all_children_self|done].
      * destruct (eval_literal_with_args_con M
                    (env_of c (VCon (union_name k) xs) ys ρ) d _ ld Hld) as [args Hargs].
        rewrite Hargs in Heq. injection Heq as Heq _. by destruct (Hother j d Hin).
Qed.

(** ** Under the generated axioms

    The properties of the axioms of a node, for the nodes below the root
    and the list of axioms that [create_subtype_axioms] returns. *)




Lemma literal_none d x :
  get_literal_with_args d x = Ok (ECon "none" [])
  ↔ get_literal d = Ok (ECon "none" []).
Proof.
  unfold get_literal_with_args, get_literal, quantified.
  destruct (name d) as [s|[|c0 [|a accs]]]; try done.
Qed.

(** Without the flag, [x == none] is a disjunct of the second axiom of a
    class exactly when the class or one of its descendants is none. *)
Lemma options_B_none_disjunct cfg type_sort (h : heap) i c lit rest :
  h !! i = Some c → starts "union" c = false → get_literal c = Ok lit →
  options_B (with_flag cfg false) type_sort h i c lit = Ok rest →
  FEq (EVar x_const) (ECon "none" []) ∈ rest
  ↔ ∃ j d, (j, d) ∈ nodes_of h (all_children h i)
           ∧ get_literal d = Ok (ECon "none" []).
Proof.
  intros Hc Hnu Hlit H. unfold options_B in H. rewrite Hnu in H.
  change (none_subtype_of_all (with_flag cfg false)) with false in H.
  apply bind_Ok in H as (none & Hnone & H). injection Hnone as <-.
  apply bind_Ok in H as (var & Hvar & H).
  apply bind_Ok in H as (unions & Hun & H). injection Hun as <-.
  apply bind_Ok in H as (subs & Hsubs & H). injection H as <-.
  cbn [app]. rewrite !elem_of_app. split.
  - intros [Hv|[Hs|Hu]].
    + destruct (starts "tuple" c || starts "func" c).
      * apply bind_Ok in Hvar as (accessors & _ & Hvar).
        apply bind_Ok in Hvar as (args_sub & _ & Hvar).
        apply bind_Ok in Hvar as (con & _ & Hvar). injection Hvar as <-.
        by apply list_elem_of_singleton in Hv.
      * injection Hvar as <-. by apply elem_of_nil in Hv.
    + apply (mapM_res_elem _ _ _ Hsubs) in Hs as ([j d] & Hin & Hf).
      exists j, d. split; [done|]. destruct (decide (j = i)) as [->|Hne].
      * apply nodes_of_elem in Hin as [_ Hd]. rewrite Hc in Hd.
        injection Hd as <-. injection Hf as <-. done.
      * apply bind_Ok in Hf as (ld & Hld & Hf). injection Hf as ->.
        by apply literal_none in Hld.
    + unfold get_union_as_subtype_axioms in Hu.
      by apply list_elem_of_fmap in Hu as (k & ? & _).
  - intros (j & d & Hin & Hd). right. left.
    apply (mapM_res_elem _ _ _ Hsubs). exists (j, d). split; [done|].
    destruct (decide (j = i)) as [->|Hne].
    + apply nodes_of_elem in Hin as [_ Hd']. rewrite Hc in Hd'.
      injection Hd' as <-. congruence.
    + apply (literal_none d (EVar x_const)) in Hd. by rewrite Hd.
Qed.


(** C5 (as amended): for a class node [c] below the root that is not a
    union pseudo-class, the second axiom of [c] is among the axioms
    returned and has a disjunct for [c] itself and for every transitive
    descendant, so that every model of the axioms returned makes the
    literal of [c] a subtype of itself and every value built by the
    constructor of a descendant a subtype of it; and when the first axiom
    of [c] is emitted, it is among the axioms returned and has the disjunct
    [x == b.get_literal()] for every transitive ancestor [b], so that the
    literal of [c] is a subtype of the literal of [b]. *)
Theorem class_reflexive_and_ancestors cfg type_sort str fuel all_classes tree axs out
    i c M ρ :
  create_class_tree fuel all_classes = Done tree →
  create_subtype_axioms cfg type_sort str fuel all_classes = Done (axs, out) →
  (i, c) ∈ nodes_of tree (all_children tree 0) →
  starts "union" c = false →
  Forall (sat M ρ) axs →
  (∃ axB lit opts,
     axiom_B cfg type_sort tree i c = Ok axB ∧ axB ∈ axs
     ∧ get_literal c = Ok lit ∧ options_B cfg type_sort tree i c lit = Ok opts
     ∧ FEq (EVar x_const) lit ∈ opts
     ∧ ∀ j d ld, (j, d) ∈ nodes_of tree (all_children tree i) → j ≠ i →
         get_literal_with_args d (EVar x_const) = Ok ld →
         FEq (EVar x_const) ld ∈ opts)
  ∧ (∀ ys, in_dom M c (VCon (constructor_name c) ys) ys →
       i_sub M (VCon (constructor_name c) ys) (VCon (constructor_name c) ys))
  ∧ (∀ j d ld a ys,
       (j, d) ∈ nodes_of tree (all_children tree i) → j ≠ i →
       get_literal_with_args d (EVar x_const) = Ok ld →
       in_dom M c a ys → a = eval M (env_of c a ys ρ) ld →
       i_sub M a (VCon (constructor_name c) ys))
  ∧ (emits_A cfg c = true →
     (∃ axA lit opts,
        axiom_A cfg type_sort tree i c = Ok axA ∧ axA ∈ axs
        ∧ get_literal c = Ok lit ∧ options_A cfg type_sort tree i c lit = Ok opts
        ∧ ∀ j b lb, (j, b) ∈ nodes_of tree (all_parents tree i) →
            get_literal b = Ok lb → FEq (EVar x_const) lb ∈ opts)
     ∧ ∀ j b lb a ys,
         (j, b) ∈ nodes_of tree (all_parents tree i) → get_literal b = Ok lb →
         in_dom M c a ys → a = eval M (env_of c a ys ρ) lb →
         i_sub M (VCon (constructor_name c) ys) a).
Proof.
  intros Htree Hgen Hin Hnu Hsat.
  destruct (generated_axioms _ _ _ _ _ _ _ _ _ _ Htree Hgen Hin)
    as [(axB & HaxB & HinB) HA].
  pose proof Hin as Hc. apply nodes_of_elem in Hc as [_ Hc].
  rewrite Forall_forall in Hsat.
  destruct (class_axioms_reflexive cfg type_sort tree i c M ρ Hc Hnu) as [HrB HrA].
  destruct (HrB axB HaxB (Hsat _ HinB)) as [Hrefl Hdesc].
  split_and!; [|done|done|].
  - destruct (axiom_B_inv _ _ _ _ _ _ HaxB) as (lit & opts & Hlit & Hopts & _).
    exists axB, lit, opts. split_and!; [done..| |].
    + destruct (options_B_inv _ _ _ _ _ _ _ Hnu Hopts) as (var & subs & -> & Hsubs & _).
      rewrite !elem_of_app. right. right. left.
      apply (mapM_res_elem _ _ _ Hsubs). exists (i, c).
      split; [by apply all_children_self|]. by rewrite decide_True.
    + intros j d ld Hjd Hne Hld.
      destruct (options_B_inv _ _ _ _ _ _ _ Hnu Hopts) as (var & subs & -> & Hsubs & _).
      rewrite !elem_of_app. right. right. left.
      apply (mapM_res_elem _ _ _ Hsubs). exists (j, d). split; [done|].
      rewrite decide_False by done. by rewrite Hld.
  - intros He. destruct (HA He) as (axA & HaxA & HinA). split.
    + destruct (axiom_A_inv _ _ _ _ _ _ HaxA) as (lit & opts & Hlit & Hopts & _).
      exists axA, lit, opts. split_and!; [done..|].
      intros j b lb Hjb Hlb.
      destruct (options_A_inv _ _ _ _ _ _ _ Hnu Hopts) as (var & bases & -> & Hbases & _).
      rewrite !elem_of_app. right. left.
      apply (mapM_res_elem _ _ _ Hbases). exists (j, b). split; [done|].
      by rewrite Hlb.
    + by apply (HrA axA He HaxA (Hsat _ HinA)).
Qed.

(** C7 (as amended): for a class node [c] below the root that is not a
    union pseudo-class, the second axiom of [c] is among the axioms
    returned; the flag [none_subtype_of_all] puts the disjunct [x == none]
    in front of its other disjuncts, which are those generated without the
    flag and contain [x == none] exactly when [c] or a descendant of [c] is
    none.  In every model of the axioms returned, with the flag set none is
    a subtype of the literal of [c]; with the flag not set it is not, when
    neither [c] nor a descendant of [c] is built by the constructor
    none. *)
Theorem none_subtype_iff_flag cfg type_sort str fuel all_classes tree axs out
    i c M ρ :
  create_class_tree fuel all_classes = Done tree →
  create_subtype_axioms cfg type_sort str fuel all_classes = Done (axs, out) →
  (i, c) ∈ nodes_of tree (all_children tree 0) →
  starts "union" c = false →
  Forall (sat M ρ) axs →
  ∃ axB lit opts rest,
    axiom_B cfg type_sort tree i c = Ok axB ∧ axB ∈ axs
    ∧ get_literal c = Ok lit ∧ options_B cfg type_sort tree i c lit = Ok opts
    ∧ opts = (if none_subtype_of_all cfg
              then [FEq (EVar x_const) (ECon "none" [])] else []) ++ rest
    ∧ options_B (with_flag cfg false) type_sort tree i c lit = Ok rest
    ∧ (FEq (EVar x_const) (ECon "none" []) ∈ rest
       ↔ ∃ j d, (j, d) ∈ nodes_of tree (all_children tree i)
                ∧ get_literal d = Ok (ECon "none" []))
    ∧ (none_subtype_of_all cfg = true →
       ∀ ys, in_dom M c (VCon "none" []) ys →
         i_sub M (VCon "none" []) (VCon (constructor_name c) ys))
    ∧ (none_subtype_of_all cfg = false → names_sort type_sort c →
       (∀ j d, (j, d) ∈ nodes_of tree (all_children tree i) →
               constructor_name d ≠ "none") →
       ∀ ys, in_dom M c (VCon "none" []) ys →
         ¬ i_sub M (VCon "none" []) (VCon (constructor_name c) ys)).
Proof.
  intros Htree Hgen Hin Hnu Hsat.
  destruct (generated_axioms _ _ _ _ _ _ _ _ _ _ Htree Hgen Hin)
    as [(axB & HaxB & HinB) _].
  pose proof Hin as Hc. apply nodes_of_elem in Hc as [_ Hc].
  rewrite Forall_forall in Hsat.
  destruct (axiom_B_inv _ _ _ _ _ _ HaxB) as (lit & opts & Hlit & Hopts & _).
  destruct (none_axiom_flag cfg type_sort tree i c M ρ axB lit opts
              Hc Hnu HaxB Hlit Hopts (Hsat _ HinB))
    as ((rest & Heq & Hrest) & Hset & Hunset).
  exists axB, lit, opts, rest. split_and!; try done.
  by eapply options_B_none_disjunct.
Qed.

Lemma union2_is_union_val cfg k a :
  k ∈ union_range cfg → is_union2 a → is_union_val cfg a.
Proof.
  intros Hk (u & v & ->). exists 2, [u; v]. split; [|done].
  unfold union_range in *. apply elem_of_seq in Hk. apply elem_of_seq. lia.
Qed.

(** C2 (as amended): for a class node [c] below the root that is not a
    union pseudo-class, whose name is made of names of the sort, and a
    union [U] of length [k] whose constructor builds no ancestor
    (descendant) of [c], in every model of the axioms returned: when the
    first axiom of [c] is emitted, the literal of [c] is a subtype of [U]
    exactly when it is a subtype of a member of [U], provided no member is
    a union, and it is not a subtype of [U] when a member is built by
    [union_2]; and [U] is a subtype of the literal of [c] exactly when
    every member of [U] is. *)
Theorem union_packing cfg type_sort str fuel all_classes tree axs out
    i c M ρ k xs ys :
  create_class_tree fuel all_classes = Done tree →
  create_subtype_axioms cfg type_sort str fuel all_classes = Done (axs, out) →
  (i, c) ∈ nodes_of tree (all_children tree 0) →
  starts "union" c = false → names_sort type_sort c →
  Forall (sat M ρ) axs →
  k ∈ union_range cfg → length xs = k →
  projects M (union_name k) (union_accs k) →
  projects M "union_2" ["union_2_arg_1"; "union_2_arg_2"] →
  in_dom M c (VCon (union_name k) xs) ys →
  (emits_A cfg c = true →
   (∀ j b, (j, b) ∈ nodes_of tree (all_parents tree i) →
           constructor_name b ≠ union_name k) →
   (Forall (λ x, ¬ is_union_val cfg x) xs →
    (i_sub M (VCon (constructor_name c) ys) (VCon (union_name k) xs)
     ↔ Exists (i_sub M (VCon (constructor_name c) ys)) xs))
   ∧ (Exists is_union2 xs →
      ¬ i_sub M (VCon (constructor_name c) ys) (VCon (union_name k) xs)))
  ∧ ((∀ j d, (j, d) ∈ nodes_of tree (all_children tree i) →
             constructor_name d ≠ union_name k) →
     (i_sub M (VCon (union_name k) xs) (VCon (constructor_name c) ys)
      ↔ Forall (λ x, i_sub M x (VCon (constructor_name c) ys)) xs)).
Proof.
  intros Htree Hgen Hin Hnu Hns Hsat Hk Hlen Hproj Hproj2 Hdom.
  destruct (generated_axioms _ _ _ _ _ _ _ _ _ _ Htree Hgen Hin)
    as [(axB & HaxB & HinB) HA].
  pose proof Hin as Hc. apply nodes_of_elem in Hc as [_ Hc].
  rewrite Forall_forall in Hsat.
  destruct (union_axioms_packing cfg type_sort tree i c M ρ k xs
              Hc Hnu Hns Hk Hlen Hproj Hproj2) as [HpA HpB].
  split.
  - intros He Hother. destruct (HA He) as (axA & HaxA & HinA).
    pose proof (HpA axA ys He HaxA (Hsat _ HinA) Hdom Hother) as Hiff.
    split.
    + intros Hnu'. rewrite Hiff. split; [by intros [? _]|].
      intros Hex. split; [done|].
      eapply Forall_impl; [exact Hnu'|]. simpl. intros x Hx Hx2.
      apply Hx. by eapply union2_is_union_val.
    + intros Hex Hsub. apply Hiff in Hsub as [_ Hall].
      apply Exists_exists in Hex as (x & Hx & Hx2).
      rewrite Forall_forall in Hall. by apply (Hall x Hx).
  - intros Hother. by apply (HpB axB ys HaxB (Hsat _ HinB) Hdom Hother).
Qed.

(** ** The model satisfies the generated axioms *)

Lemma treeW_built : create_class_tree 10 clsW = Done treeW.
Proof. vm_compute. reflexivity. Qed.

(** ** A model of the generated axioms *)

Lemma accW_tuple t : accW "tuple_1_arg_1" (VCon "tuple_1" [t]) = t.
Proof. reflexivity. Qed.

Lemma accW_func_d d a r : accW "func_1_defaults_args" (VCon "func_1" [d; a; r]) = d.
Proof. reflexivity. Qed.

Lemma accW_func_a d a r : accW "func_1_arg_1" (VCon "func_1" [d; a; r]) = a.
Proof. reflexivity. Qed.

Lemma accW_func_r d a r : accW "func_1_return" (VCon "func_1" [d; a; r]) = r.
Proof. reflexivity. Qed.

Lemma accW_union_1 u v : accW "union_2_arg_1" (VCon "union_2" [u; v]) = u.
Proof. reflexivity. Qed.

Lemma accW_union_2 u v : accW "union_2_arg_2" (VCon "union_2" [u; v]) = v.
Proof. reflexivity. Qed.

Lemma not_union2_neq u x y : ¬ is_union2 u → u ≠ VCon "union_2" [x; y].
Proof. intros H ->. apply H. by eexists _, _. Qed.

Lemma neq_not_union2 u :
  u ≠ VCon "union_2" [accW "union_2_arg_1" u; accW "union_2_arg_2" u] → ¬ is_union2 u.
Proof. intros H (x & y & ->). by rewrite accW_union_1, accW_union_2 in H. Qed.

(** The values of a quantifier's domain, one by one. *)
Ltac dom_inv H :=
  repeat (let a := fresh "a" in
          let Hd := fresh "Hd" in
          apply Forall2_cons_inv_l in H as (a & ? & Hd & H & ->));
  apply Forall2_nil_inv_l in H as ->.

Ltac acc_simpl :=
  rewrite ?accW_tuple, ?accW_func_d, ?accW_func_a, ?accW_func_r,
    ?accW_union_1, ?accW_union_2.

Ltac tree_lit_tac := solve [unfold tree_lit, vobject, vint; eauto 10].

Ltac wleaf :=
  repeat split; try reflexivity; try assumption; try tauto;
  try (apply not_union2_neq; assumption).

(** Choose the disjunct that holds. *)
Ltac pick := first [solve [wleaf] | left; solve [wleaf] | right; pick].

(** Replace a value known to be built by a constructor by the
    constructor applied to its fields. *)
Ltac shape :=
  repeat match goal with
  | H : ?a = VCon _ _ |- _ =>
      is_var a;
      repeat match type of H with
             | context [accW ?n a] =>
                 let t := fresh "t" in set (t := accW n a) in *; clearbody t
             end;
      subst a
  end.

(** From a derivation of the relation to the body of the axiom. *)
Ltac wforward :=
  let Hw := fresh "Hw" in
  intros Hw; inversion Hw; subst; try discriminate;
  try match goal with
      | H : tree_lit ?a |- _ =>
          is_var a; destruct H as [->|[->|[[? ->]|(?&?&?&->)]]]
      end;
  acc_simpl; pick.

(** From the body of the axiom to a derivation of the relation. *)
Ltac wbackward :=
  let H := fresh "H" in
  intros H;
  repeat match goal with
         | H : _ ∨ _ |- _ => destruct H
         | H : _ ∧ _ |- _ => destruct H
         | H : False |- _ => destruct H
         end;
  shape;
  first [ apply ws_refl; tree_lit_tac
        | apply ws_obj; tree_lit_tac
        | apply ws_none; [reflexivity|tree_lit_tac]
        | apply ws_tuple; assumption
        | apply ws_func; assumption
        | apply ws_usup; [tree_lit_tac|apply neq_not_union2; assumption..|tauto]
        | apply ws_usub; [tree_lit_tac|assumption..] ].

(** An axiom of the hierarchy, given as a closed formula, holds. *)
Ltac sat_W :=
  let vals := fresh "vals" in
  let Hdom := fresh "Hdom" in
  cbn [sat]; intros vals Hdom; dom_inv Hdom; clear;
  cbn [eval bind fmap list_fmap i_sub i_acc MW];
  repeat first [rewrite decide_True by reflexivity
               |rewrite decide_False by discriminate];
  (split; [wforward|wbackward]).

Section ModelW.
Local Opaque accW.

Lemma MW_axiom_A b i c :
  treeW !! i = Some c →
  ∃ ax, axiom_A (cfgW b) sigW treeW i c = Ok ax ∧ sat (MW b) ρW ax.
Proof.
  intros Hc.
  do 4 (destruct i as [|i];
        [injection Hc as <-; destruct b;
         (eexists; split; [vm_compute; reflexivity|sat_W])|]).
  done.
Qed.

Lemma MW_axiom_B b i c :
  treeW !! i = Some c →
  ∃ ax, axiom_B (cfgW b) sigW treeW i c = Ok ax ∧ sat (MW b) ρW ax.
Proof.
  intros Hc.
  do 4 (destruct i as [|i];
        [injection Hc as <-; destruct b;
         (eexists; split; [vm_compute; reflexivity|sat_W])|]).
  done.
Qed.
End ModelW.

(** The relation of the model satisfies every axiom generated for its
    hierarchy. *)
Lemma MW_sat b axs out :
  create_subtype_axioms (cfgW b) sigW show_formula 10 clsW = Done (axs, out) →
  Forall (sat (MW b) ρW) axs.
Proof.
  unfold create_subtype_axioms. rewrite treeW_built.
  destruct (axioms_loop _ _ _ _ _ _) as [[axs' out']|] eqn:Hl; [|done].
  intros [= <- <-]. apply Forall_forall. intros ax Hin.
  destruct (axioms_loop_origin _ _ _ _ _ _ _ _ _ Hl ax Hin) as [Hin0|(i & n & Hn & Hor)].
  { by apply elem_of_nil in Hin0. }
  apply nodes_of_elem in Hn as [_ Hn]. destruct Hor as [Ha|Hb].
  - destruct (MW_axiom_A b i n Hn) as (ax' & Ha' & Hs). congruence.
  - destruct (MW_axiom_B b i n Hn) as (ax' & Hb' & Hs). congruence.
Qed.

Lemma axiomsW_defined b :
  ∃ axs out, create_subtype_axioms (cfgW b) sigW show_formula 10 clsW = Done (axs, out).
Proof. destruct b; eexists _, _; vm_compute; reflexivity. Qed.


Lemma MW_projects_func b :
  projects (MW b) "func_1" ["func_1_defaults_args"; "func_1_arg_1"; "func_1_return"].
Proof. intros [|d [|a [|r [|??]]]] Hl; try done. Qed.

Lemma MW_projects_union b : projects (MW b) (union_name 2) (union_accs 2).
Proof. intros [|u [|v [|??]]] Hl; try done. Qed.

Lemma MW_projects_union2 b :
  projects (MW b) "union_2" ["union_2_arg_1"; "union_2_arg_2"].
Proof. intros [|u [|v [|??]]] Hl; try done. Qed.

Lemma treeW_parents i c j b :
  treeW !! i = Some c → (j, b) ∈ nodes_of treeW (all_parents treeW i) →
  (j = i ∧ b = c) ∨ (j = 0 ∧ b = objectW).
Proof.
  intros Hc Hin.
  do 4 (destruct i as [|i];
        [injection Hc as <-; vm_compute in Hin;
         repeat (apply elem_of_cons in Hin as [[= -> ->]|Hin]; [auto|]);
         by apply elem_of_nil in Hin|]).
  done.
Qed.

Lemma treeW_leaf_children i c j d :
  treeW !! S i = Some c → (j, d) ∈ nodes_of treeW (all_children treeW (S i)) →
  j = S i ∧ d = c.
Proof.
  intros Hc Hin.
  do 3 (destruct i as [|i];
        [injection Hc as <-; vm_compute in Hin;
         repeat (apply elem_of_cons in Hin as [[= -> ->]|Hin]; [auto|]);
         by apply elem_of_nil in Hin|]).
  done.
Qed.

Lemma wsub_none_inv b c : wsub b vnone c → b = true ∧ tree_lit c.
Proof.
  intros H. inversion H; subst; try done.
  - match goal with H : tree_lit vnone |- _ =>
      by destruct H as [?|[?|[[??]|(?&?&?&?)]]] end.
  - match goal with H : tree_lit vnone |- _ =>
      by destruct H as [?|[?|[[??]|(?&?&?&?)]]] end.
  - match goal with H : tree_lit vnone |- _ =>
      by destruct H as [?|[?|[[??]|(?&?&?&?)]]] end.
Qed.

Lemma in_domW b c a ys :
  has_sort sigW TypeSort a = true →
  Forall2 (λ v y, has_sort sigW (vsort v) y = true) (quantified c) ys →
  in_dom (MW b) c a ys.
Proof. intros Ha Hys. by split. Qed.

Lemma treeW_nodes :
  nodes_of treeW (all_children treeW 0)
  = [(0, objectW); (1, intW); (2, tupleW); (3, funcW)].
Proof. reflexivity. Qed.

Lemma treeW_node_int : (1, intW) ∈ nodes_of treeW (all_children treeW 0).
Proof. rewrite treeW_nodes. set_solver. Qed.



Lemma namesW_func : names_sort sigW funcW.
Proof.
  split; [eexists; vm_compute; reflexivity|].
  repeat (constructor; [vm_compute; reflexivity|]). constructor.
Qed.

Lemma namesW_int : names_sort sigW intW.
Proof. exact I. Qed.




Lemma function_variance_witness :
  i_sub (MW false) (VCon "func_1" [VInt 0; vobject; vint])
    (VCon "func_1" [VInt 1; vint; vobject]).
Proof.
  destruct (MW_axiom_A false 3 funcW eq_refl) as (ax & Hax & Hsat).
  destruct (function_variance (cfgW false) sigW treeW 3 funcW "func_1"
              "func_1_defaults_args" ["func_1_arg_1"] "func_1_return"
              (MW false) ρW (VInt 0) [vobject] vint (VInt 1) [vint] vobject
              eq_refl eq_refl eq_refl namesW_func (MW_projects_func false)
              eq_refl eq_refl)
    as [HA _].
  apply (HA ax Hax Hsat).
  - apply in_domW; [reflexivity|]. repeat constructor.
  - intros j b Hin Hj. destruct (treeW_parents 3 funcW j b eq_refl Hin) as [[? _]|[_ ->]]; done.
  - left. split; [|apply ws_obj; tree_lit_tac].
    constructor; [|constructor]. apply ws_obj. tree_lit_tac.
Defined.

(** C3 (as stated, refuted): in the model of the axioms generated for the
    hierarchy [clsW], the function type with argument and return type none
    is a subtype of itself, by the disjunct [x == c_literal] of its axioms,
    while none, which has no class node, is not a subtype of none. *)
Lemma function_subtype_of_itself_without_variance :
  (∃ axs out,
     create_subtype_axioms (cfgW false) sigW show_formula 10 clsW = Done (axs, out)
     ∧ Forall (sat (MW false) ρW) axs)
  ∧ i_dom (MW false) TypeSort (VCon "func_1" [VInt 0; vnone; vnone])
  ∧ i_sub (MW false) (VCon "func_1" [VInt 0; vnone; vnone])
      (VCon "func_1" [VInt 0; vnone; vnone])
  ∧ ¬ (Forall2 (i_sub (MW false)) [vnone] [vnone] ∧ i_sub (MW false) vnone vnone).
Proof.
  split_and!.
  - destruct (axiomsW_defined false) as (axs & out & H).
    exists axs, out. split; [done|]. by eapply MW_sat.
  - reflexivity.
  - apply ws_refl. tree_lit_tac.
  - intros [_ H]. by apply wsub_none_inv in H as [? _].
Qed.

Lemma treeW_int_object :
  (0, objectW) ∈ nodes_of treeW (all_parents treeW 1).
Proof. apply nodes_of_elem. split; [|reflexivity]. vm_compute. set_solver. Qed.

Lemma in_domW_int b a : has_sort sigW TypeSort a = true → in_dom (MW b) intW a [].
Proof. intros Ha. apply in_domW; [done|constructor]. Qed.

Lemma class_reflexive_and_ancestors_witness :
  i_sub (MW false) vint vint ∧ i_sub (MW false) vint vobject.
Proof.
  destruct (axiomsW_defined false) as (axs & out & Hax).
  destruct (class_reflexive_and_ancestors (cfgW false) sigW show_formula 10 clsW
              treeW axs out 1 intW (MW false) ρW treeW_built Hax treeW_node_int
              eq_refl (MW_sat false axs out Hax)) as (_ & Hrefl & _ & HA).
  split.
  - exact (Hrefl [] (in_domW_int false vint eq_refl)).
  - exact (proj2 (HA eq_refl) 0 objectW (ECon "object" []) vobject []
             treeW_int_object eq_refl (in_domW_int false vobject eq_refl) eq_refl).
Defined.

(** C5 (as stated, refuted): the first axiom of a class does not always
    carry the disjuncts of its ancestors.  With [none_subtype_of_all] set,
    no axiom with trigger [subtype(none, x)] is generated for the class
    none below object; and the first axiom of the pseudo-class of the
    unions of length two below object has no disjunct [x == object]. *)
Lemma first_axiom_without_ancestor_disjuncts :
  (∃ axs out,
     create_subtype_axioms (mkConfig 0 0 2 true)
       (declare_type_sort (mkConfig 0 0 2 true) []) show_formula 5
       [(NStr "none", [NStr "object"])] = Done (axs, out)
     ∧ create_class_tree 5 [(NStr "none", [NStr "object"])]
       = Done [mkNode (NStr "object") [] [1]; mkNode (NStr "none") [0] []]
     ∧ (0, mkNode (NStr "object") [] [1])
       ∈ nodes_of [mkNode (NStr "object") [] [1]; mkNode (NStr "none") [0] []]
           (all_parents [mkNode (NStr "object") [] [1]; mkNode (NStr "none") [0] []] 1)
     ∧ ∀ ax, ax ∈ axs → patterns_of ax ≠ [FSubtype (ECon "none" []) (EVar x_const)])
  ∧ (∃ lit opts,
       create_class_tree 5 clsU = Done treeU
       ∧ (0, objectU) ∈ nodes_of treeU (all_parents treeU 1)
       ∧ get_literal unionU = Ok lit
       ∧ options_A (cfgW false) sigW treeU 1 unionU lit = Ok opts
       ∧ FEq (EVar x_const) (ECon "object" []) ∉ opts).
Proof.
  split.
  - eexists _, _. split_and!; [vm_compute; reflexivity|vm_compute; reflexivity| |].
    + apply nodes_of_elem. split; [|reflexivity]. vm_compute. set_solver.
    + intros ax Hin. repeat (apply elem_of_cons in Hin as [->|Hin]; [discriminate|]).
      by apply elem_of_nil in Hin.
  - eexists _, _.
    split_and!; [vm_compute; reflexivity| |reflexivity|vm_compute; reflexivity|].
    + apply nodes_of_elem. split; [|reflexivity]. vm_compute. set_solver.
    + intros Hin. repeat (apply elem_of_cons in Hin as [Hin|Hin]; [discriminate|]).
      by apply elem_of_nil in Hin.
Qed.

Lemma none_subtype_iff_flag_witness :
  i_sub (MW true) vnone vint.
Proof.
  destruct (axiomsW_defined true) as (axs & out & Hax).
  destruct (none_subtype_iff_flag (cfgW true) sigW show_formula 10 clsW treeW axs out
              1 intW (MW true) ρW treeW_built Hax treeW_node_int eq_refl
              (MW_sat true axs out Hax))
    as (axB & lit & opts & rest & _ & _ & _ & _ & _ & _ & _ & Hset & _).
  exact (Hset eq_refl [] (in_domW_int true vnone eq_refl)).
Defined.

(** C7 (as stated, refuted): without the flag, [x == none] is still a
    disjunct of the second axiom of an ancestor of none, here of object;
    and in the model of the axioms generated for the hierarchy [clsW] with
    [none_subtype_of_all] set, none is a subtype neither of the type
    [str], which has no class node, nor of a union. *)
Lemma none_not_subtype_of_every_type :
  (∃ axs out axB opts,
     create_subtype_axioms (mkConfig 0 0 2 false)
       (declare_type_sort (mkConfig 0 0 2 false) []) show_formula 5
       [(NStr "none", [NStr "object"])] = Done (axs, out)
     ∧ axiom_B (mkConfig 0 0 2 false) (declare_type_sort (mkConfig 0 0 2 false) [])
         [mkNode (NStr "object") [] [1]; mkNode (NStr "none") [0] []] 0
         (mkNode (NStr "object") [] [1]) = Ok axB
     ∧ axB ∈ axs
     ∧ options_B (mkConfig 0 0 2 false) (declare_type_sort (mkConfig 0 0 2 false) [])
         [mkNode (NStr "object") [] [1]; mkNode (NStr "none") [0] []] 0
         (mkNode (NStr "object") [] [1]) (ECon "object" []) = Ok opts
     ∧ FEq (EVar x_const) (ECon "none" []) ∈ opts)
  ∧ (∃ axs out,
       create_subtype_axioms (cfgW true) sigW show_formula 10 clsW = Done (axs, out)
       ∧ Forall (sat (MW true) ρW) axs)
  ∧ i_dom (MW true) TypeSort (VCon "str" [])
  ∧ ¬ i_sub (MW true) vnone (VCon "str" [])
  ∧ i_dom (MW true) TypeSort (VCon "union_2" [vint; vint])
  ∧ ¬ i_sub (MW true) vnone (VCon "union_2" [vint; vint]).
Proof.
  split_and!.
  - eexists _, _, _, _.
    split_and!; [vm_compute; reflexivity|vm_compute; reflexivity|
                 |vm_compute; reflexivity|]; set_solver.
  - destruct (axiomsW_defined true) as (axs & out & H).
    exists axs, out. split; [done|]. by eapply MW_sat.
  - reflexivity.
  - intros H. apply wsub_none_inv in H as [_ [?|[?|[[??]|(?&?&?&?)]]]]; done.
  - reflexivity.
  - intros H. apply wsub_none_inv in H as [_ [?|[?|[[??]|(?&?&?&?)]]]]; done.
Qed.

Lemma not_union_valW b a : tree_lit a → ¬ is_union_val (cfgW b) a.
Proof.
  intros Ha (k & args & Hk & ->). apply list_elem_of_singleton in Hk as ->.
  by destruct Ha as [?|[?|[[??]|(?&?&?&?)]]].
Qed.

Lemma union_packing_witness :
  i_sub (MW false) vint (VCon "union_2" [vint; vobject])
  ∧ ¬ i_sub (MW false) vint (VCon "union_2" [vint; VCon "union_2" [vint; vint]])
  ∧ i_sub (MW false) (VCon "union_2" [vint; vint]) vint.
Proof.
  destruct (axiomsW_defined false) as (axs & out & Hax).
  assert (Hk : 2 ∈ union_range (cfgW false)) by left.
  assert (Hpar : ∀ j b, (j, b) ∈ nodes_of treeW (all_parents treeW 1) →
                        constructor_name b ≠ union_name 2).
  { intros j b Hin.
    destruct (treeW_parents 1 intW j b eq_refl Hin) as [[_ ->]|[_ ->]]; done. }
  split_and!.
  - destruct (union_packing (cfgW false) sigW show_formula 10 clsW treeW axs out
                1 intW (MW false) ρW 2 [vint; vobject] []
                treeW_built Hax treeW_node_int eq_refl namesW_int
                (MW_sat false axs out Hax) Hk eq_refl
                (MW_projects_union false) (MW_projects_union2 false)
                (in_domW_int false (VCon "union_2" [vint; vobject]) eq_refl)) as [HA _].
    apply (HA eq_refl Hpar).
    + repeat constructor; apply not_union_valW; tree_lit_tac.
    + left. apply ws_refl. tree_lit_tac.
  - destruct (union_packing (cfgW false) sigW show_formula 10 clsW treeW axs out
                1 intW (MW false) ρW 2 [vint; VCon "union_2" [vint; vint]] []
                treeW_built Hax treeW_node_int eq_refl namesW_int
                (MW_sat false axs out Hax) Hk eq_refl
                (MW_projects_union false) (MW_projects_union2 false)
                (in_domW_int false (VCon "union_2" [vint; VCon "union_2" [vint; vint]]) eq_refl)) as [HA _].
    apply (HA eq_refl Hpar). right. left. by eexists _, _.
  - destruct (union_packing (cfgW false) sigW show_formula 10 clsW treeW axs out
                1 intW (MW false) ρW 2 [vint; vint] []
                treeW_built Hax treeW_node_int eq_refl namesW_int
                (MW_sat false axs out Hax) Hk eq_refl
                (MW_projects_union false) (MW_projects_union2 false)
                (in_domW_int false (VCon "union_2" [vint; vint]) eq_refl)) as [_ HB].
    apply HB.
    + intros j d Hin.
      destruct (treeW_leaf_children 0 intW j d eq_refl Hin) as [_ ->]; done.
    + repeat constructor; apply ws_refl; tree_lit_tac.
Defined.

(** C2 (as stated, refuted): in the model of the axioms generated for the
    hierarchy [clsW], the type [int], which is not a union, is a subtype of
    the first member of the union of [int] and a union, and is not a
    subtype of that union: the disjunct of
    [get_union_as_supertype_axioms] requires every member not to be built
    by [union_2]. *)
Lemma subtype_of_member_not_of_nested_union :
  (∃ axs out,
     create_subtype_axioms (cfgW false) sigW show_formula 10 clsW = Done (axs, out)
     ∧ Forall (sat (MW false) ρW) axs)
  ∧ i_dom (MW false) TypeSort (VCon "union_2" [vint; VCon "union_2" [vint; vint]])
  ∧ ¬ is_union_val (cfgW false) vint
  ∧ i_sub (MW false) vint vint
  ∧ ¬ i_sub (MW false) vint (VCon "union_2" [vint; VCon "union_2" [vint; vint]]).
Proof.
  split_and!.
  - destruct (axiomsW_defined false) as (axs & out & H).
    exists axs, out. split; [done|]. by eapply MW_sat.
  - reflexivity.
  - intros (k & args & Hk & Hv). apply list_elem_of_singleton in Hk as ->. done.
  - apply ws_refl. tree_lit_tac.
  - intros H. inversion H; subst.
    match goal with Hv : ¬ is_union2 (VCon "union_2" _) |- _ => apply Hv end.
    by eexists _, _.
Qed.

(** ** Classes with an undeclared base *)

Lemma lookup_pending_nil st : to_cover st !! idx st = None → pending st = [].
Proof. intros H. unfold pending. apply drop_ge. by apply lookup_ge_None. Qed.

Lemma lookup_pending_cons st c :
  to_cover st !! idx st = Some c → pending st = c :: drop (S (idx st)) (to_cover st).
Proof. intros H. unfold pending. by apply drop_S. Qed.

Lemma cont_flag_uncovered cov bases (b : cname) :
  b ∈ bases → b ∉ cov → cont_flag cov bases = true.
Proof.
  intros Hb Hcov. unfold cont_flag. apply bool_decide_eq_true.
  apply Exists_exists. eauto.
Qed.

Lemma undeclared_base_stays_pending all_classes c bases b fuel : ∀ st st',
  dict_get all_classes c = Some bases → b ∈ bases → b ∉ keys all_classes →
  c ∈ pending st → b ∉ covered st →
  tree_loop fuel all_classes st = Done st' → False.
Proof.
  induction fuel as [|f IH]; intros st st' Hc Hb Hkey Hpend Hcov;
    rewrite tree_loop_unfold.
  - destruct (to_cover st !! idx st) as [c0|] eqn:Hl; [done|]. intros _.
    rewrite (lookup_pending_nil st Hl) in Hpend. by apply elem_of_nil in Hpend.
  - destruct (to_cover st !! idx st) as [c0|] eqn:Hl.
    2:{ intros _. rewrite (lookup_pending_nil st Hl) in Hpend.
        by apply elem_of_nil in Hpend. }
    destruct (tree_step all_classes st c0) as [st1|] eqn:Hs; [|done].
    pose proof (lookup_pending_cons st c0 Hl) as Hp.
    destruct (decide (c0 = c)) as [->|Hne].
    + unfold tree_step in Hs. rewrite Hc in Hs.
      rewrite (cont_flag_uncovered _ _ b Hb Hcov) in Hs. injection Hs as <-.
      apply (IH _ st' Hc Hb Hkey); [|done].
      unfold pending. simpl. apply lookup_lt_Some in Hl.
      rewrite drop_app_le by lia. set_solver.
    + destruct (tree_step_cases all_classes st c0 _ st1 Hp Hs)
        as [(Hp1 & Hc1 & _)|(Hp1 & Hc1 & bases0 & Hb0 & _)];
        apply (IH st1 st' Hc Hb Hkey); rewrite ?Hp1, ?Hc1; rewrite Hp in Hpend.
      * set_solver.
      * done.
      * set_solver.
      * apply dict_get_Some_keys in Hb0. set_solver.
Qed.

(** X1: a class one of whose declared bases is neither ['object'] nor a
    declared class is never covered: whatever the other classes are, the
    construction of the hierarchy returns no tree, for any number of
    iterations of its loop. *)
Theorem undeclared_base_never_returns all_classes c bases b :
  dict_get all_classes c = Some bases → b ∈ bases →
  b ≠ NStr "object" → b ∉ keys all_classes →
  never_returns all_classes.
Proof.
  intros Hc Hb Hobj Hkey fuel tree.
  unfold create_class_tree, create_class_tree_state.
  destruct (tree_loop fuel all_classes (tree_init all_classes)) as [st'| |] eqn:Hrun;
    simpl; [|done..].
  exfalso. apply (undeclared_base_stays_pending _ _ _ _ _ _ _ Hc Hb Hkey) in Hrun; [done| |].
  - unfold pending, tree_init. simpl. rewrite drop_0.
    by eapply dict_get_Some_keys.
  - unfold tree_init. simpl. set_solver.
Qed.

Lemma undeclared_base_never_returns_witness :
  never_returns [(NStr "int", [NStr "object"]); (NStr "A", [NStr "int"; NStr "B"])].
Proof.
  apply (undeclared_base_never_returns _ (NStr "A") [NStr "int"; NStr "B"] (NStr "B")).
  - reflexivity.
  - set_solver.
  - discriminate.
  - vm_compute. set_solver.
Defined.

(** ** The links of the hierarchy *)

Lemma link_lookup cur b (h : heap) k :
  link cur b h !! k =
  (λ n, mkNode (name n) (parents n ++ (if decide (k = cur) then [b] else []))
               (children n ++ (if decide (k = b) then [cur] else []))) <$> h !! k.
Proof.
  unfold link, append_child, append_parent. rewrite !list_lookup_alter.
  destruct (decide (b = k)) as [->|Hb], (decide (cur = k)) as [->|Hc];
    repeat case_decide; try done; try congruence;
    destruct (h !! k) as [[nm ps cs]|]; simpl; by rewrite ?app_nil_r.
Qed.

Lemma link_length cur b (h : heap) : length (link cur b h) = length h.
Proof. unfold link, append_child, append_parent. by rewrite !length_alter. Qed.

Lemma link_node_name cur b (h : heap) k : node_name (link cur b h) k = node_name h k.
Proof. unfold node_name. rewrite link_lookup. by destruct (h !! k). Qed.

Lemma link_child_of cur b (h : heap) i j :
  child_of (link cur b h) i j ↔
  child_of h i j ∨ (i = b ∧ j = cur ∧ is_Some (h !! b)).
Proof.
  unfold child_of. split.
  - intros (n' & Hn' & Hj). rewrite link_lookup in Hn'.
    destruct (h !! i) as [n|] eqn:Hn; [|done]. injection Hn' as <-. simpl in Hj.
    apply elem_of_app in Hj as [Hj|Hj]; [left; eauto|].
    case_decide; [|by apply elem_of_nil in Hj].
    apply list_elem_of_singleton in Hj. subst. right. rewrite Hn. eauto.
  - intros [(n & Hn & Hj)|(-> & -> & [n Hn])].
    + eexists. rewrite link_lookup, Hn. split; [done|]. simpl. set_solver.
    + eexists. rewrite link_lookup, Hn. split; [done|]. simpl.
      rewrite decide_True by done. set_solver.
Qed.

Lemma links_inv_link (h : heap) cur b :
  links_inv h → b < cur → cur < length h → links_inv (link cur b h).
Proof.
  intros Hinv Hlt Hcur i n' Hi. rewrite link_lookup in Hi.
  destruct (h !! i) as [n|] eqn:Hn; [|done]. injection Hi as <-. simpl.
  destruct (Hinv i n Hn) as [Hch Hpa].
  destruct (lookup_lt_is_Some_2 h cur Hcur) as [nc Hnc].
  assert (Hb : b < length h) by lia.
  destruct (lookup_lt_is_Some_2 h b Hb) as [nb Hnb].
  split.
  - intros j Hj. apply elem_of_app in Hj as [Hj|Hj].
    + destruct (Hch j Hj) as (Hij & m & Hm & Him). split; [done|].
      eexists. rewrite link_lookup, Hm. split; [done|]. simpl. set_solver.
    + case_decide as Hib; [|by apply elem_of_nil in Hj].
      apply list_elem_of_singleton in Hj. subst. split; [done|].
      eexists. rewrite link_lookup, Hnc. split; [done|]. simpl.
      rewrite decide_True by done. set_solver.
  - intros p Hp. apply elem_of_app in Hp as [Hp|Hp].
    + destruct (Hpa p Hp) as (Hpi & m & Hm & Him). split; [done|].
      eexists. rewrite link_lookup, Hm. split; [done|]. simpl. set_solver.
    + case_decide as Hic; [|by apply elem_of_nil in Hp].
      apply list_elem_of_singleton in Hp. subst. split; [done|].
      eexists. rewrite link_lookup, Hnb. split; [done|]. simpl.
      rewrite decide_True by done. set_solver.
Qed.

Lemma links_inv_alloc (h : heap) c :
  links_inv h → links_inv (h ++ [mkNode c [] []]).
Proof.
  intros Hinv i n Hi. apply lookup_app_Some in Hi as [Hi|[Hlen Hi]].
  - destruct (Hinv i n Hi) as [Hch Hpa]. split.
    + intros j Hj. destruct (Hch j Hj) as (? & m & Hm & ?). split; [done|].
      exists m. split; [|done]. by apply lookup_app_l_Some.
    + intros p Hp. destruct (Hpa p Hp) as (? & m & Hm & ?). split; [done|].
      exists m. split; [|done]. by apply lookup_app_l_Some.
  - apply list_lookup_singleton_Some in Hi as [_ <-]. simpl.
    split; intros ? H; by apply elem_of_nil in H.
Qed.

(** ** Reachability and [all_children] *)

Lemma all_children_fuel_reach f (h : heap) : ∀ i j,
  j ∈ all_children_fuel f h i → rtc (child_of h) i j.
Proof.
  induction f as [|f IH]; intros i j; simpl.
  - intros H. by apply elem_of_nil in H.
  - intros H. apply elem_of_cons in H as [->|H]; [done|].
    destruct (h !! i) as [n|] eqn:Hn; [|by apply elem_of_nil in H].
    apply list_elem_of_In, in_concat in H as (l & Hl & Hj).
    apply in_map_iff in Hl as (c & <- & Hc).
    apply list_elem_of_In in Hj, Hc.
    eapply rtc_l; [|by apply IH]. by exists n.
Qed.

Lemma reach_all_children_fuel (h : heap) :
  links_inv h → ∀ f i j,
  length h - i ≤ f → i < length h →
  rtc (child_of h) i j → j ∈ all_children_fuel f h i.
Proof.
  intros Hinv. induction f as [|f IH]; intros i j Hf Hi Hr; [lia|].
  simpl. apply rtc_inv in Hr as [->|(c & (n & Hn & Hc) & Hr)]; [left|].
  right. rewrite Hn. apply list_elem_of_In, in_concat.
  exists (all_children_fuel f h c). split.
  - apply in_map, list_elem_of_In, Hc.
  - apply list_elem_of_In.
    destruct (Hinv i n Hn) as [Hch _]. destruct (Hch c Hc) as (Hic & m & Hm & _).
    apply lookup_lt_Some in Hm. apply IH; [lia|done|done].
Qed.

Lemma all_children_reach (h : heap) j :
  links_inv h → 0 < length h →
  j ∈ all_children h 0 ↔ rtc (child_of h) 0 j.
Proof.
  intros Hinv Hlen. split; [apply all_children_fuel_reach|].
  apply reach_all_children_fuel; [done|lia|done].
Qed.

Lemma find_Some_inv (h : heap) i c b :
  find h i c = Some b → node_name h b = Some c ∧ rtc (child_of h) i b.
Proof.
  unfold find. destruct (list_find _ _) as [[k j]|] eqn:Hf; [|done].
  simpl. intros [= ->]. apply list_find_Some in Hf as (Hk & Hname & _).
  split; [done|]. eapply all_children_fuel_reach, list_elem_of_lookup_2, Hk.
Qed.

Lemma find_reachable (h : heap) c j :
  links_inv h → 0 < length h →
  rtc (child_of h) 0 j → node_name h j = Some c → is_Some (find h 0 c).
Proof.
  intros Hinv Hlen Hr Hn. unfold find.
  destruct (list_find_elem_of (λ j, node_name h j = Some c) (all_children h 0) j)
    as [[k b] ->]; [by apply all_children_reach|done|]. by eexists.
Qed.

Lemma find_root (h : heap) n0 :
  h !! 0 = Some n0 → name n0 = NStr "object" → find h 0 (NStr "object") = Some 0.
Proof.
  intros H0 Hn. unfold find, all_children. destruct h as [|x h]; [done|].
  injection H0 as ->. simpl length. cbn [all_children_fuel].
  cbn [list_find]. rewrite decide_True; [done|]. unfold node_name. simpl. by rewrite Hn.
Qed.

(** ** The loop that links a new node to its bases *)

Lemma attach_spec cur current : ∀ bases (h h' : heap),
  links_inv h → S cur = length h → cur ≠ 0 →
  (∃ n0, h !! 0 = Some n0 ∧ name n0 = NStr "object") →
  node_name h cur = Some current →
  (∀ base, base ∈ bases → base ≠ current ∨ base = NStr "object") →
  attach h cur bases = Ok h' →
  links_inv h' ∧ length h' = length h
  ∧ (∀ i j, child_of h i j → child_of h' i j)
  ∧ (∀ k, node_name h' k = node_name h k)
  ∧ ∃ bs, Forall2 (λ b base, node_name h b = Some base) bs bases
          ∧ (∀ k n, h !! k = Some n →
               ∃ n', h' !! k = Some n'
                     ∧ parents n' = parents n ++ (if decide (k = cur) then bs else []))
          ∧ (∀ b, b ∈ bs → rtc (child_of h') 0 b ∧ child_of h' b cur).
Proof.
  induction bases as [|base rest IH]; intros h h' Hinv Hcur Hne Hroot Hname Hbases; simpl.
  - intros [= <-]. split_and!; [done..|]. exists []. split_and!; [done| |].
    + intros k n Hn. exists n. split; [done|]. case_decide; by rewrite app_nil_r.
    + intros b Hb. by apply elem_of_nil in Hb.
  - destruct (find h 0 base) as [b|] eqn:Hfind; [|done]. intros Hatt.
    destruct (find_Some_inv _ _ _ _ Hfind) as [Hb Hreach].
    destruct Hroot as (n0 & H0 & Hn0).
    assert (Hbc : b < cur).
    { assert (b < length h).
      { unfold node_name in Hb. destruct (h !! b) eqn:E; [|done].
        by eapply lookup_lt_Some. }
      assert (b ≠ cur); [|lia].
      destruct (Hbases base) as [Hd| ->]; [by left| |].
      - intros ->. congruence.
      - rewrite (find_root h n0 H0 Hn0) in Hfind. by injection Hfind as <-. }
    fold (link cur b h) in Hatt.
    destruct (IH (link cur b h) h') as (Hinv' & Hlen' & Hmono & Hnames & bs & Hbs & Hpar & Hch).
    + apply links_inv_link; [done|done|lia].
    + by rewrite link_length.
    + done.
    + exists (mkNode (name n0) (parents n0 ++ (if decide (0 = cur) then [b] else []))
                (children n0 ++ (if decide (0 = b) then [cur] else []))).
      rewrite link_lookup, H0. done.
    + by rewrite link_node_name.
    + intros base' Hin. apply Hbases. by right.
    + done.
    + split_and!.
      * done.
      * by rewrite Hlen', link_length.
      * intros i j Hij. apply Hmono, link_child_of. by left.
      * intros k. by rewrite Hnames, link_node_name.
      * exists (b :: bs). split_and!.
        -- constructor; [done|].
           eapply Forall2_impl; [exact Hbs|]. intros p q Hpq. simpl in Hpq. by rewrite link_node_name in Hpq.
        -- intros k n Hn.
           destruct (Hpar k (mkNode (name n)
                               (parents n ++ (if decide (k = cur) then [b] else []))
                               (children n ++ (if decide (k = b) then [cur] else []))))
             as (n' & Hn' & Hp).
           { by rewrite link_lookup, Hn. }
           exists n'. split; [done|]. rewrite Hp. simpl.
           case_decide; by rewrite <- ?app_assoc, ?app_nil_r.
        -- intros p Hp. apply elem_of_cons in Hp as [->|Hp]; [|by apply Hch].
           assert (Hlink : child_of (link cur b h) b cur).
           { apply link_child_of. right. split_and!; [done..|].
             unfold node_name in Hb. by destruct (h !! b). }
           split; [|by apply Hmono].
           eapply rtc_subrel; [|exact Hreach].
           intros i j Hij. apply Hmono, link_child_of. by left.
Qed.

(** ** The invariant of the loop *)

Lemma cont_flag_false cov (bases : list cname) :
  cont_flag cov bases = false → ∀ b, b ∈ bases → b ∈ cov.
Proof.
  unfold cont_flag. intros H b Hb. apply bool_decide_eq_false in H.
  destruct (decide (b ∈ cov)) as [|Hn]; [done|].
  exfalso. apply H, Exists_exists. eauto.
Qed.

Lemma node_name_alloc (h : heap) n k :
  k < length h → node_name (h ++ [n]) k = node_name h k.
Proof. intros Hk. unfold node_name. by rewrite lookup_app_l. Qed.

Lemma tree_step_wf all_classes st c l st' :
  pending st = c :: l → tree_step all_classes st c = Ok st' →
  tree_wf all_classes st → tree_wf all_classes st'.
Proof.
  intros Hp Hs (Hlinks & [(n0 & H0 & Hn0 & Hp0) Hpar] & Hnd & Hpc).
  unfold tree_step in Hs.
  destruct (dict_get all_classes c) as [bases|] eqn:Hbases; [|done].
  destruct (cont_flag (covered st) bases) eqn:Hflag.
  - injection Hs as <-. unfold tree_wf, pending in *. simpl.
    assert (Hi : idx st < length (to_cover st)).
    { destruct (decide (idx st < length (to_cover st))); [done|].
      rewrite drop_ge in Hp by lia. done. }
    replace (S (idx st)) with (idx st + 1) by lia.
    rewrite <- drop_drop, drop_app_le, Hp by lia. simpl. rewrite drop_0.
    split_and!; [done|split; [by exists n0|done]| |].
    + rewrite Hp in Hnd. by rewrite <- Permutation_cons_append.
    + intros c' Hc'. apply Hpc. rewrite Hp. set_solver.
  - destruct (attach _ _ bases) as [g|] eqn:Hatt; simpl in Hs; [|done].
    injection Hs as <-.
    set (cur := length (graph st)) in *.
    set (h := graph st ++ [mkNode c [] []]) in *.
    assert (Hcur0 : cur ≠ 0).
    { apply lookup_lt_Some in H0. unfold cur. lia. }
    assert (Hnew : h !! cur = Some (mkNode c [] [])).
    { unfold h, cur. by apply list_lookup_middle. }
    destruct (attach_spec cur c bases h g)
      as (Hlinks' & Hlen' & Hmono & Hnames & bs & Hbs & Hpars & _).
    { by apply links_inv_alloc. }
    { unfold h, cur. rewrite length_app. simpl. lia. }
    { done. }
    { exists n0. split; [|done]. by apply lookup_app_l_Some. }
    { unfold node_name. by rewrite Hnew. }
    { intros base Hb. destruct (decide (base = c)) as [->|]; [|by left].
      right. apply Hpc; [rewrite Hp; by left|].
      by apply (cont_flag_false _ _ Hflag). }
    { done. }
    unfold tree_wf, pending in *. simpl. rewrite Hp in Hnd.
    assert (Hpc' : ∀ c', c' ∈ c :: l → c' ∈ covered st → c' = NStr "object").
    { intros c' Hc'. apply Hpc. by rewrite Hp. }
    split_and!.
    + done.
    + split.
      * destruct (Hpars 0 n0) as (n' & Hn' & Hpn'); [by apply lookup_app_l_Some|].
        exists n'. split_and!; [done| |].
        -- specialize (Hnames 0). unfold node_name in Hnames.
           rewrite Hn' in Hnames. unfold h in Hnames.
           rewrite (lookup_app_l_Some _ _ _ _ H0) in Hnames. simpl in Hnames. congruence.
        -- rewrite Hpn', Hp0. by rewrite decide_False by done.
      * intros j n' Hj Hj0.
        assert (Hjl : j < length h).
        { apply lookup_lt_Some in Hj. lia. }
        destruct (lookup_lt_is_Some_2 h j Hjl) as [n Hn].
        destruct (Hpars j n Hn) as (n'' & Hn'' & Hpn'').
        assert (n'' = n') by congruence. subst n''.
        assert (Hnm : name n' = name n).
        { specialize (Hnames j). unfold node_name in Hnames.
          rewrite Hj, Hn in Hnames. simpl in Hnames. congruence. }
        destruct (decide (j = cur)) as [->|Hjc].
        -- rewrite Hnew in Hn. injection Hn as <-. rewrite Hnm. simpl.
           exists bases. split; [done|]. rewrite Hpn''. simpl.
           eapply Forall2_impl; [exact Hbs|]. intros p q Hpq. simpl in Hpq.
           by rewrite Hnames.
        -- assert (Hold : graph st !! j = Some n).
           { unfold h in Hn. apply lookup_app_Some in Hn as [?|[Hge Hn]]; [done|].
             apply list_lookup_singleton_Some in Hn as [Hz _].
             unfold h in Hjl. rewrite length_app in Hjl. simpl in Hjl.
             unfold cur in Hjc. lia. }
           destruct (Hpar j n Hold Hj0) as (bases' & Hb' & Hf).
           exists bases'. rewrite Hnm. split; [done|].
           rewrite Hpn'', app_nil_r.
           eapply Forall2_impl; [exact Hf|]. intros p q Hpq. simpl in Hpq.
           rewrite Hnames. unfold h. rewrite node_name_alloc; [done|].
           unfold node_name in Hpq. destruct (graph st !! p) eqn:E; [|done].
           by eapply lookup_lt_Some.
    + rewrite (pending_tail st c l Hp). by apply NoDup_cons in Hnd as [_ ?].
    + rewrite (pending_tail st c l Hp). intros c' Hc' Hcov.
      apply elem_of_union in Hcov as [Hcc|Hcov].
      * apply elem_of_singleton in Hcc as ->.
        apply NoDup_cons in Hnd as [Hnin _]. done.
      * apply Hpc'; [set_solver|done].
Qed.

Lemma tree_loop_wf all_classes fuel : ∀ st st',
  tree_loop fuel all_classes st = Done st' →
  tree_wf all_classes st → tree_wf all_classes st'.
Proof.
  induction fuel as [|f IH]; intros st st'; rewrite tree_loop_unfold.
  - destruct (to_cover st !! idx st); [done|]. by intros [= <-].
  - destruct (to_cover st !! idx st) as [c|] eqn:Hl; [|by intros [= <-]].
    destruct (tree_step all_classes st c) as [st1|] eqn:Hs; [|done].
    intros Hrun Hwf. apply (IH st1 st' Hrun).
    eapply tree_step_wf; [by apply lookup_pending_cons|done|done].
Qed.

Lemma tree_init_wf all_classes :
  NoDup (keys all_classes) → tree_wf all_classes (tree_init all_classes).
Proof.
  intros Hnd. unfold tree_wf, tree_init, pending. simpl. rewrite drop_0.
  split_and!.
  - intros [|i] n Hi; [|done]. injection Hi as <-. simpl.
    split; intros ? H; by apply elem_of_nil in H.
  - split; [by eexists|]. intros [|j] n Hj Hj0; [done|done].
  - done.
  - intros c _ Hc. by apply elem_of_singleton in Hc.
Qed.

(** X2: on a dictionary of classes, the tree that [create_class_tree]
    returns is well linked: the child links and the parent links mirror
    each other, every node is allocated after its parents (so the links
    form no cycle), the root ['object'] has no parent, and the parents of
    every other node are nodes of the declared bases of its class, in the
    order of the declaration. *)
Theorem create_class_tree_links all_classes fuel tree :
  NoDup (keys all_classes) →
  create_class_tree fuel all_classes = Done tree →
  links_inv tree ∧ parents_inv all_classes tree.
Proof.
  intros Hnd. unfold create_class_tree, create_class_tree_state.
  destruct (tree_loop fuel all_classes (tree_init all_classes)) as [st| |] eqn:Hrun;
    simpl; [|done..].
  intros [= <-].
  destruct (tree_loop_wf all_classes fuel _ _ Hrun (tree_init_wf all_classes Hnd))
    as (? & ? & _). done.
Qed.

Lemma clsW_keys_NoDup : NoDup (keys clsW).
Proof. by apply (bool_decide_unpack _). Qed.

Lemma create_class_tree_links_witness :
  links_inv treeW ∧ parents_inv clsW treeW.
Proof.
  exact (create_class_tree_links clsW 10 treeW clsW_keys_NoDup treeW_built).
Defined.

(** ** Every class is in the tree *)

Lemma child_of_alloc (h : heap) n i j : child_of h i j → child_of (h ++ [n]) i j.
Proof.
  intros (m & Hm & Hj). exists m. split; [|done]. by apply lookup_app_l_Some.
Qed.

Lemma attach_total cur current : ∀ bases (h : heap),
  links_inv h → S cur = length h → cur ≠ 0 →
  (∃ n0, h !! 0 = Some n0 ∧ name n0 = NStr "object") →
  node_name h cur = Some current →
  (∀ base, base ∈ bases →
     (base ≠ current ∨ base = NStr "object")
     ∧ ∃ j, rtc (child_of h) 0 j ∧ node_name h j = Some base) →
  ∃ h', attach h cur bases = Ok h'.
Proof.
  induction bases as [|base rest IH]; intros h Hinv Hcur Hne Hroot Hname Hbases; simpl.
  - by eexists.
  - destruct (Hbases base) as [Hd (j & Hj & Hjn)]; [by left|].
    destruct (find_reachable h base j) as [b Hfind]; [done|lia|done|done|].
    rewrite Hfind.
    destruct (find_Some_inv _ _ _ _ Hfind) as [Hb Hreach].
    destruct Hroot as (n0 & H0 & Hn0).
    assert (Hbc : b < cur).
    { assert (b < length h).
      { unfold node_name in Hb. destruct (h !! b) eqn:E; [|done].
        by eapply lookup_lt_Some. }
      assert (b ≠ cur); [|lia].
      destruct Hd as [Hd| ->].
      - intros ->. congruence.
      - rewrite (find_root h n0 H0 Hn0) in Hfind. by injection Hfind as <-. }
    fold (link cur b h). apply IH.
    + apply links_inv_link; [done|done|lia].
    + by rewrite link_length.
    + done.
    + exists (mkNode (name n0) (parents n0 ++ (if decide (0 = cur) then [b] else []))
                (children n0 ++ (if decide (0 = b) then [cur] else []))).
      rewrite link_lookup, H0. done.
    + by rewrite link_node_name.
    + intros base' Hin. destruct (Hbases base') as [Hd' (j' & Hj' & Hjn')]; [by right|].
      split; [done|]. exists j'. rewrite link_node_name. split; [|done].
      eapply rtc_subrel; [|exact Hj'].
      intros x y Hxy. apply link_child_of. by left.
Qed.

Section Contains.
Variable all_classes : class_dict.
Hypothesis based : ∀ c bases,
  dict_get all_classes c = Some bases → c = NStr "object" ∨ bases ≠ [].

Lemma tree_step_contains st c l :
  pending st = c :: l → c ∈ keys all_classes →
  tree_wf all_classes st → reach_inv st →
  ∃ st', tree_step all_classes st c = Ok st' ∧ reach_inv st'.
Proof.
  intros Hp Hkey Hwf Hreach.
  pose proof Hwf as (Hlinks & [(n0 & H0 & Hn0 & Hp0) Hpar] & Hnd & Hpc).
  destruct (dict_get_keys all_classes c Hkey) as [bases Hbases].
  unfold tree_step. rewrite Hbases.
  destruct (cont_flag (covered st) bases) eqn:Hflag; [by eexists|].
  set (cur := length (graph st)) in *.
  set (h := graph st ++ [mkNode c [] []]) in *.
  assert (Hcur0 : cur ≠ 0).
  { apply lookup_lt_Some in H0. unfold cur. lia. }
  assert (Hnew : h !! cur = Some (mkNode c [] [])).
  { unfold h, cur. by apply list_lookup_middle. }
  assert (Hlinksh : links_inv h) by by apply links_inv_alloc.
  assert (Hlenh : S cur = length h).
  { unfold h, cur. rewrite length_app. simpl. lia. }
  assert (Hrooth : ∃ n0, h !! 0 = Some n0 ∧ name n0 = NStr "object").
  { exists n0. split; [|done]. by apply lookup_app_l_Some. }
  assert (Hnameh : node_name h cur = Some c).
  { unfold node_name. by rewrite Hnew. }
  assert (Hd : ∀ base, base ∈ bases → base ≠ c ∨ base = NStr "object").
  { intros base Hb. destruct (decide (base = c)) as [->|]; [|by left].
    right. apply Hpc; [rewrite Hp; by left|].
    by apply (cont_flag_false _ _ Hflag). }
  assert (Hold : ∀ c', c' ∈ covered st →
            ∃ j, rtc (child_of h) 0 j ∧ node_name h j = Some c').
  { intros c' Hc'. destruct (Hreach c' Hc') as (j & Hj & Hjn).
    exists j. split.
    - eapply rtc_subrel; [|exact Hj]. intros x y. apply child_of_alloc.
    - unfold h. rewrite node_name_alloc; [done|].
      unfold node_name in Hjn. destruct (graph st !! j) eqn:E; [|done].
      by eapply lookup_lt_Some. }
  destruct (attach_total cur c bases h) as [g Hatt]; [done..| |].
  { intros base Hb. split; [by apply Hd|].
    apply Hold. by apply (cont_flag_false _ _ Hflag). }
  rewrite Hatt. simpl. eexists. split; [done|].
  destruct (attach_spec cur c bases h g)
    as (_ & _ & Hmono & Hnames & bs & Hbs & _ & Hch); [done..|].
  intros c' Hc'. simpl in *.
  apply elem_of_union in Hc' as [Hc'|Hc'].
  - apply elem_of_singleton in Hc' as ->.
    destruct (based c bases Hbases) as [->|Hne].
    + exists 0. split; [done|]. rewrite Hnames. unfold node_name, h.
      rewrite (lookup_app_l_Some _ _ _ _ H0). simpl. by rewrite Hn0.
    + destruct bs as [|b bs].
      { apply Forall2_nil_inv_l in Hbs. done. }
      destruct (Hch b) as [Hb0 Hbc]; [by left|].
      exists cur. split; [|by rewrite Hnames].
      eapply rtc_r; [exact Hb0|done].
  - destruct (Hold c' Hc') as (j & Hj & Hjn). exists j. split.
    + eapply rtc_subrel; [|exact Hj]. done.
    + by rewrite Hnames.
Qed.

Lemma tree_loop_contains fuel : ∀ st,
  tree_wf all_classes st → reach_inv st →
  (∀ c, c ∈ pending st → c ∈ keys all_classes) →
  (∀ e, tree_loop fuel all_classes st ≠ Raise e)
  ∧ ∀ st', tree_loop fuel all_classes st = Done st' → reach_inv st'.
Proof.
  induction fuel as [|f IH]; intros st Hwf Hreach Hkeys; rewrite tree_loop_unfold.
  - destruct (to_cover st !! idx st); [done|]. split; [done|]. by intros ? [= <-].
  - destruct (to_cover st !! idx st) as [c|] eqn:Hl.
    2:{ split; [done|]. by intros ? [= <-]. }
    pose proof (lookup_pending_cons st c Hl) as Hp.
    destruct (tree_step_contains st c _ Hp) as (st1 & Hs & Hreach1);
      [apply Hkeys; rewrite Hp; by left|done|done|].
    rewrite Hs. apply IH; [by eapply tree_step_wf|done|].
    intros c' Hc'.
    destruct (tree_step_cases all_classes st c _ st1 Hp Hs)
      as [(Hp1 & _)|(Hp1 & _)]; rewrite Hp1 in Hc'; apply Hkeys; rewrite Hp;
      set_solver.
Qed.
End Contains.

(** X3: when the keys of the dictionary are distinct, the bases can be
    ranked (every base is ['object'] or a declared class of smaller rank)
    and every declared class other than ['object'] has at least one base,
    [create_class_tree] returns a tree, and the tree contains all classes:
    [find] from the root reaches a node of every declared class. *)
Theorem create_class_tree_contains_all_classes all_classes (rank : cname → nat) :
  NoDup (keys all_classes) →
  (∀ c bases b,
     dict_get all_classes c = Some bases → b ∈ bases →
     b = NStr "object" ∨ (b ∈ keys all_classes ∧ rank b < rank c)) →
  (∀ c bases, dict_get all_classes c = Some bases → c = NStr "object" ∨ bases ≠ []) →
  ∃ fuel tree,
    (∀ k, create_class_tree (fuel + k) all_classes = Done tree)
    ∧ ∀ c, c ∈ keys all_classes →
        ∃ j, find tree 0 c = Some j ∧ node_name tree j = Some c.
Proof.
  intros Hnd Hrank Hbased.
  destruct (tree_loop_terminates all_classes rank Hrank _ (tree_init all_classes) eq_refl
              (tree_init_inv all_classes)) as [fuel Hfuel].
  pose proof (tree_init_wf all_classes Hnd) as Hwf.
  assert (Hreach0 : reach_inv (tree_init all_classes)).
  { intros c Hc. unfold tree_init in Hc. simpl in Hc.
    apply elem_of_singleton in Hc as ->. by exists 0. }
  assert (Hkeys0 : ∀ c, c ∈ pending (tree_init all_classes) → c ∈ keys all_classes).
  { intros c. unfold pending, tree_init. simpl. by rewrite drop_0. }
  destruct (tree_loop_contains all_classes Hbased fuel _ Hwf Hreach0 Hkeys0)
    as [Hraise Hdone].
  destruct (tree_loop fuel all_classes (tree_init all_classes)) as [st|e|] eqn:Hrun;
    [|by destruct (Hraise e)|done].
  exists fuel, (graph st). split.
  - intros k. unfold create_class_tree, create_class_tree_state.
    by rewrite (tree_loop_mono all_classes fuel k _ _ Hrun).
  - intros c Hc.
    destruct (tree_loop_inv all_classes fuel _ _ Hrun (tree_init_loop_inv all_classes))
      as [[_ Hcov] Hpend].
    destruct (tree_loop_wf all_classes fuel _ _ Hrun Hwf)
      as (Hlinks & [(n0 & H0 & _) _] & _).
    destruct (Hcov c Hc) as [Hcc|Hcp]; [|rewrite Hpend in Hcp; by apply elem_of_nil in Hcp].
    destruct (Hdone st eq_refl c Hcc) as (j & Hj & Hjn).
    destruct (find_reachable (graph st) c j) as [b Hb]; [done| |done|done|].
    { apply lookup_lt_Some in H0. lia. }
    exists b. split; [done|]. by destruct (find_Some_inv _ _ _ _ Hb).
Qed.

Lemma create_class_tree_contains_all_classes_witness :
  ∃ fuel tree,
    (∀ k, create_class_tree (fuel + k) clsW = Done tree)
    ∧ ∀ c, c ∈ keys clsW →
        ∃ j, find tree 0 c = Some j ∧ node_name tree j = Some c.
Proof.
  apply (create_class_tree_contains_all_classes clsW (λ _, 0) clsW_keys_NoDup).
  - intros c bases b Hget Hb. left. simpl in Hget.
    repeat case_decide; simplify_eq; by apply list_elem_of_singleton in Hb.
  - intros c bases Hget. right. simpl in Hget.
    repeat case_decide; simplify_eq; done.
Defined.

(** ** Outcomes of the construction *)

Lemma attach_error (h : heap) cur bases e :
  attach h cur bases = Err e → e = AttributeError.
Proof.
  revert h. induction bases as [|b bases IH]; intros h; simpl; [done|].
  destruct (find h 0 b); [apply IH|congruence].
Qed.

Lemma tree_loop_error all_classes fuel : ∀ st e,
  (∀ c, c ∈ pending st → c ∈ keys all_classes) →
  tree_loop fuel all_classes st = Raise e → e = AttributeError.
Proof.
  induction fuel as [|f IH]; intros st e Hkeys; rewrite tree_loop_unfold.
  - by destruct (to_cover st !! idx st).
  - destruct (to_cover st !! idx st) as [c|] eqn:Hl; [|done].
    pose proof (lookup_pending_cons st c Hl) as Hp.
    destruct (tree_step all_classes st c) as [st1|e1] eqn:Hs.
    + apply IH. intros c' Hc'.
      destruct (tree_step_cases all_classes st c _ st1 Hp Hs)
        as [(Hp1 & _)|(Hp1 & _)]; rewrite Hp1 in Hc'; apply Hkeys; rewrite Hp;
        set_solver.
    + intros [= <-]. unfold tree_step in Hs.
      destruct (dict_get_keys all_classes c) as [bases Hb].
      { apply Hkeys. rewrite Hp. by left. }
      rewrite Hb in Hs. destruct (cont_flag (covered st) bases); [done|].
      destruct (attach _ _ bases) as [g|e2] eqn:Ha; [done|].
      simpl in Hs. injection Hs as <-. by eapply attach_error.
Qed.

Lemma create_class_tree_error all_classes fuel e :
  create_class_tree fuel all_classes = Raise e → e = AttributeError.
Proof.
  unfold create_class_tree, create_class_tree_state.
  destruct (tree_loop fuel all_classes (tree_init all_classes)) as [st|e'|] eqn:Hrun;
    simpl; [done| |done].
  intros [= <-]. eapply tree_loop_error; [|exact Hrun].
  intros c. unfold pending, tree_init. simpl. by rewrite drop_0.
Qed.

(** C1 (as amended): for a dictionary whose declared bases are ['object']
    or declared classes of smaller rank, the construction terminates, with
    the same result for any larger number of iterations: it returns the
    tree, or raises [AttributeError], the latter only when a class other
    than ['object'] is declared with an empty list of bases.  For a
    dictionary with a base that is neither ['object'] nor declared, no
    number of iterations returns a tree and no other error is raised: the
    loop runs for ever unless [AttributeError] is raised first. *)
Theorem create_class_tree_terminates all_classes :
  NoDup (keys all_classes) →
  ((∃ rank : cname → nat, ∀ c bases b,
      dict_get all_classes c = Some bases → b ∈ bases →
      b = NStr "object" ∨ (b ∈ keys all_classes ∧ rank b < rank c)) →
   ∃ fuel r,
     (∀ k, create_class_tree (fuel + k) all_classes = r)
     ∧ ((∃ tree, r = Done tree)
        ∨ (r = Raise AttributeError
           ∧ ∃ c, c ≠ NStr "object" ∧ dict_get all_classes c = Some [])))
  ∧ ((∃ c bases b, dict_get all_classes c = Some bases ∧ b ∈ bases
                   ∧ b ≠ NStr "object" ∧ b ∉ keys all_classes) →
     ∀ fuel, create_class_tree fuel all_classes = OutOfFuel
             ∨ create_class_tree fuel all_classes = Raise AttributeError).
Proof.
  intros Hnd. split.
  - intros [rank Hrank].
    destruct (tree_loop_terminates all_classes rank Hrank _ (tree_init all_classes) eq_refl
                (tree_init_inv all_classes)) as [fuel Hfuel].
    exists fuel, (create_class_tree fuel all_classes). split.
    { intros k. unfold create_class_tree, create_class_tree_state.
      by rewrite (tree_loop_mono all_classes fuel k _ _ eq_refl Hfuel). }
    destruct (create_class_tree fuel all_classes) as [tree|e|] eqn:Hrun.
    + left. by exists tree.
    + right. rewrite (create_class_tree_error _ _ _ Hrun). split; [done|].
      destruct (decide (Exists (λ c, c ≠ NStr "object"
                                     ∧ dict_get all_classes c = Some [])
                          (keys all_classes))) as [Hex|Hnex].
      * apply Exists_exists in Hex as (c & _ & Hc). by exists c.
      * exfalso.
        assert (Hbased : ∀ c bases, dict_get all_classes c = Some bases →
                           c = NStr "object" ∨ bases ≠ []).
        { intros c bases Hb. destruct (decide (c = NStr "object")); [by left|].
          right. intros ->. apply Hnex. apply Exists_exists. exists c.
          split; [by eapply dict_get_Some_keys|done]. }
        assert (Hreach0 : reach_inv (tree_init all_classes)).
        { intros c Hc. unfold tree_init in Hc. simpl in Hc.
          apply elem_of_singleton in Hc as ->. by exists 0. }
        destruct (tree_loop_contains all_classes Hbased fuel _
                    (tree_init_wf all_classes Hnd) Hreach0) as [Hraise _].
        { intros c. unfold pending, tree_init. simpl. by rewrite drop_0. }
        unfold create_class_tree, create_class_tree_state in Hrun.
        destruct (tree_loop fuel all_classes (tree_init all_classes)) as [st|e'|] eqn:Hl;
          simpl in Hrun; [done| |done].
        by destruct (Hraise e').
    + unfold create_class_tree, create_class_tree_state in Hrun.
      by destruct (tree_loop fuel all_classes (tree_init all_classes)).
  - intros (c & bases & b & Hc & Hb & Hobj & Hkey) fuel.
    destruct (create_class_tree fuel all_classes) as [tree|e|] eqn:Hrun.
    + exfalso. unfold create_class_tree, create_class_tree_state in Hrun.
      destruct (tree_loop fuel all_classes (tree_init all_classes)) as [st'| |] eqn:Hl;
        simpl in Hrun; [|done..].
      apply (undeclared_base_stays_pending _ _ _ _ _ _ _ Hc Hb Hkey) in Hl; [done| |].
      * unfold pending, tree_init. simpl. rewrite drop_0.
        by eapply dict_get_Some_keys.
      * unfold tree_init. simpl. set_solver.
    + right. by rewrite (create_class_tree_error _ _ _ Hrun).
    + by left.
Qed.

Lemma clsC_keys_NoDup :
  NoDup (keys [(NStr "C", [NStr "A"; NStr "B"]); (NStr "A", [NStr "object"]);
               (NStr "B", [NStr "object"])]).
Proof. by apply (bool_decide_unpack _). Qed.

Lemma clsD_keys_NoDup :
  NoDup (keys [(NStr "int", [NStr "object"]); (NStr "A", [NStr "int"; NStr "B"])]).
Proof. by apply (bool_decide_unpack _). Qed.

Lemma create_class_tree_terminates_witness :
  (∃ fuel r,
     (∀ k, create_class_tree (fuel + k)
             [(NStr "C", [NStr "A"; NStr "B"]); (NStr "A", [NStr "object"]);
              (NStr "B", [NStr "object"])] = r)
     ∧ ((∃ tree, r = Done tree)
        ∨ (r = Raise AttributeError
           ∧ ∃ c, c ≠ NStr "object"
                  ∧ dict_get [(NStr "C", [NStr "A"; NStr "B"]);
                              (NStr "A", [NStr "object"]);
                              (NStr "B", [NStr "object"])] c = Some [])))
  ∧ (create_class_tree 7 [(NStr "int", [NStr "object"]);
                          (NStr "A", [NStr "int"; NStr "B"])] = OutOfFuel
     ∨ create_class_tree 7 [(NStr "int", [NStr "object"]);
                            (NStr "A", [NStr "int"; NStr "B"])] = Raise AttributeError).
Proof.
  split.
  - apply (create_class_tree_terminates _ clsC_keys_NoDup).
    exists (λ c, if decide (c = NStr "C") then 1 else 0).
    intros c bases b Hget Hb. simpl in Hget.
    repeat case_decide; simplify_eq; apply list_elem_of_In in Hb; simpl in Hb;
      intuition simplify_eq; compute_done.
  - apply (create_class_tree_terminates _ clsD_keys_NoDup).
    exists (NStr "A"), [NStr "int"; NStr "B"], (NStr "B").
    split_and!; [reflexivity|set_solver|done|compute_done].
Defined.

(** ** The axioms of a union pseudo-class *)

Lemma prefix_union_not_tuple s :
  String.prefix "union" s = true → String.prefix "tuple" s = false.
Proof.
  destruct s as [|a s]; [done|]. cbn [String.prefix].
  destruct (Ascii.ascii_dec _ a) as [<-|]; [|done]. intros _.
  by destruct (Ascii.ascii_dec _ _).
Qed.

Lemma prefix_union_not_func s :
  String.prefix "union" s = true → String.prefix "func" s = false.
Proof.
  destruct s as [|a s]; [done|]. cbn [String.prefix].
  destruct (Ascii.ascii_dec _ a) as [<-|]; [|done]. intros _.
  by destruct (Ascii.ascii_dec _ _).
Qed.

(** [_not_union] holds of the values no union constructor builds. *)
Lemma sat_not_union cfg M ρ e :
  sat M ρ (_not_union cfg e) ↔ ¬ is_union_val cfg (eval M ρ e).
Proof.
  unfold _not_union. rewrite sat_and, Forall_fmap, Forall_forall. unfold compose.
  cbn [sat]. unfold is_union_val, is_con. split.
  - intros H (k & args & Hk & Heq). apply (H k Hk). by rewrite Heq.
  - intros H k Hk Hc. apply H. destruct (eval M ρ e) as [|c' args]; [done|].
    subst c'. by exists k, args.
Qed.

Lemma Forall_sat_not_union cfg M ρ (es : list expr) :
  Forall (sat M ρ) (_not_union cfg <$> es)
  ↔ Forall (λ v, ¬ is_union_val cfg v) (eval M ρ <$> es).
Proof.
  rewrite !Forall_fmap. apply Forall_iff. intros e. apply sat_not_union.
Qed.

Lemma options_A_union cfg type_sort h i c lit opts :
  starts "union" c = true → starts "tuple" c || starts "func" c = false →
  options_A cfg type_sort h i c lit = Ok opts →
  opts = FAnd (_not_union cfg (EVar x_const)
               :: ((λ con, FSubtype (EVar con) (EVar x_const)) <$> quantified c))
         :: get_union_as_union_supertype_axioms cfg (EVar <$> quantified c) (EVar x_const).
Proof.
  intros Hu Htf. unfold options_A. rewrite Hu, Htf. intros H.
  apply bind_Ok in H as (var & Hvar & H). apply bind_Ok in Hvar as (subs & Hsubs & Hvar).
  injection Hvar as <-. apply bind_Ok in H as (bases & Hb & H).
  injection Hb as <-. injection H as <-.
  rewrite (λ Hfg, mapM_res_total _ (λ con, FSubtype (EVar con) (EVar x_const))
                    _ _ Hfg Hsubs); [done|].
  intros a b Hab. by apply z3_subtype_inv in Hab.
Qed.

Lemma options_B_union cfg type_sort h i c lit opts :
  starts "union" c = true → starts "tuple" c || starts "func" c = false →
  options_B cfg type_sort h i c lit = Ok opts →
  opts = (if none_subtype_of_all cfg then [FEq (EVar x_const) (ECon "none" [])] else [])
         ++ FAnd [_not_union cfg (EVar x_const);
                  FOr ((λ con, FSubtype (EVar x_const) (EVar con)) <$> quantified c)]
         :: get_union_as_union_subtype_axioms cfg (EVar <$> quantified c) (EVar x_const).
Proof.
  intros Hu Htf. unfold options_B. rewrite Hu, Htf. intros H.
  apply bind_Ok in H as (none & Hnone & H). apply bind_Ok in H as (var & Hvar & H).
  injection Hvar as <-. apply bind_Ok in H as (unions & Hun & H).
  apply bind_Ok in Hun as (subs & Hsubs & Hun). injection Hun as <-.
  apply bind_Ok in H as (subs' & Hs' & H). injection Hs' as <-. injection H as <-.
  rewrite (λ Hfg, mapM_res_total _ (λ con, FSubtype (EVar x_const) (EVar con))
                    _ _ Hfg Hsubs).
  - cbn [app]. f_equal.
    destruct (none_subtype_of_all cfg); [|by injection Hnone as <-].
    apply bind_Ok in Hnone as (e & He & Hnone). injection Hnone as <-.
    by rewrite (sort_constant_inv _ _ _ He).
  - intros a b Hab. by apply z3_subtype_inv in Hab.
Qed.

(** The body of an axiom of a union pseudo-class. *)
Lemma sat_axiom_body_union cfg M c a ys ρ opts :
  starts "union" c = true → length ys = length (quantified c) →
  sat M (env_of c a ys ρ) (axiom_body cfg c opts)
  ↔ Forall (λ y, ¬ is_union_val cfg y) ys ∧ Exists (sat M (env_of c a ys ρ)) opts.
Proof.
  intros Hu Hlen. unfold axiom_body. rewrite Hu.
  rewrite sat_and, Forall_app, Forall_singleton, sat_or.
  rewrite (list_fmap_compose EVar (_not_union cfg)), Forall_sat_not_union.
  by rewrite eval_vars, env_of_quantified.
Qed.

(** What the disjuncts of [get_union_as_union_supertype_axioms] and of
    [get_union_as_union_subtype_axioms] say at a union of length [k]. *)
Lemma sat_union_as_union cfg M ρ (rel : expr → expr → formula) (R : val → val → Prop)
    (options : list expr) k xs :
  (∀ o arg, sat M ρ (rel o arg) ↔ R (eval M ρ o) (eval M ρ arg)) →
  k ∈ union_range cfg → length xs = k →
  projects M (union_name k) (union_accs k) →
  ρ x_const = VCon (union_name k) xs →
  Exists (sat M ρ)
    ((λ cur_len,
        let args := union_args (EVar x_const) cur_len in
        FAnd (FEq (EVar x_const) (ECon (union_name cur_len) args)
              :: (_not_union cfg <$> args)
              ++ [FAnd ((λ o, FOr ((λ arg, rel o arg) <$> args)) <$> options)]))
     <$> union_range cfg)
  ↔ Forall (λ x, ¬ is_union_val cfg x) xs
    ∧ Forall (λ o, Exists (R (eval M ρ o)) xs) options.
Proof.
  intros Hrel Hk Hlen Hproj Hx.
  pose proof (eval_union_args M ρ k xs Hproj Hlen Hx) as Hargs.
  assert (Hbody :
    sat M ρ (FAnd (FEq (EVar x_const)
                     (ECon (union_name k) (union_args (EVar x_const) k))
                   :: (_not_union cfg <$> union_args (EVar x_const) k)
                   ++ [FAnd ((λ o, FOr ((λ arg, rel o arg)
                                         <$> union_args (EVar x_const) k)) <$> options)]))
    ↔ Forall (λ x, ¬ is_union_val cfg x) xs
      ∧ Forall (λ o, Exists (R (eval M ρ o)) xs) options).
  { rewrite sat_and, Forall_cons, Forall_app, Forall_singleton.
    rewrite Forall_sat_not_union, Hargs, sat_and, Forall_fmap.
    cbn [sat eval]. rewrite Hargs, Hx.
    assert (Hopt : Forall (sat M ρ ∘ (λ o, FOr ((λ arg, rel o arg)
                                         <$> union_args (EVar x_const) k))) options
                   ↔ Forall (λ o, Exists (R (eval M ρ o)) xs) options).
    { apply Forall_iff. intros o. unfold compose. rewrite sat_or, Exists_fmap.
      rewrite <- Hargs, Exists_fmap.
      split; intros HE; (eapply Exists_impl; [exact HE|]); intros arg;
        unfold compose; apply Hrel. }
    rewrite Hopt. tauto. }
  rewrite Exists_exists. split.
  - intros (f & Hf & Hsat). apply list_elem_of_fmap in Hf as (cur_len & -> & Hcur).
    assert (cur_len = k) as ->.
    { pose proof Hsat as Hsat'. cbv zeta in Hsat'.
      apply sat_and, Forall_cons in Hsat' as [Heq _]. cbn [sat eval] in Heq.
      rewrite Hx in Heq. apply union_name_inj. congruence. }
    by apply Hbody.
  - intros H. eexists. split; [apply list_elem_of_fmap; by exists k|].
    by apply Hbody.
Qed.

Lemma sat_union_as_union_is_union cfg M ρ (rel : expr → expr → formula)
    (options : list expr) :
  Exists (sat M ρ)
    ((λ cur_len,
        let args := union_args (EVar x_const) cur_len in
        FAnd (FEq (EVar x_const) (ECon (union_name cur_len) args)
              :: (_not_union cfg <$> args)
              ++ [FAnd ((λ o, FOr ((λ arg, rel o arg) <$> args)) <$> options)]))
     <$> union_range cfg) →
  is_union_val cfg (ρ x_const).
Proof. apply (sat_union_options_is_union cfg M ρ (λ _, _ ++ _)). Qed.

Lemma Forall_env_quantified c a ys ρ (P : val → Prop) :
  length ys = length (quantified c) →
  Forall (λ con, P (env_of c a ys ρ con)) (quantified c) ↔ Forall P ys.
Proof.
  intros Hlen. trans (Forall P (env_of c a ys ρ <$> quantified c)).
  - by rewrite Forall_fmap.
  - by rewrite env_of_quantified.
Qed.

Lemma Exists_env_quantified c a ys ρ (P : val → Prop) :
  length ys = length (quantified c) →
  Exists (λ con, P (env_of c a ys ρ con)) (quantified c) ↔ Exists P ys.
Proof.
  intros Hlen. trans (Exists P (env_of c a ys ρ <$> quantified c)).
  - by rewrite Exists_fmap.
  - by rewrite env_of_quantified.
Qed.

Lemma union_val_in_range cfg k xs :
  k ∈ union_range cfg → is_union_val cfg (VCon (union_name k) xs).
Proof. intros Hk. by exists k, xs. Qed.

(** The body of the first axiom of a union pseudo-class, at a value that is
    not a union and at a union. *)
Lemma sat_union_body_first cfg type_sort (h : heap) i c c0 accs M ρ lit opts a ys :
  name c = NTuple (c0 :: accs) → String.prefix "union" c0 = true →
  options_A cfg type_sort h i c lit = Ok opts → length ys = length (quantified c) →
  (¬ is_union_val cfg a →
   (sat M (env_of c a ys ρ) (axiom_body cfg c opts)
    ↔ Forall (λ y, ¬ is_union_val cfg y) ys ∧ Forall (λ y, i_sub M y a) ys))
  ∧ (∀ k xs,
       k ∈ union_range cfg → length xs = k →
       projects M (union_name k) (union_accs k) → a = VCon (union_name k) xs →
       (sat M (env_of c a ys ρ) (axiom_body cfg c opts)
        ↔ Forall (λ y, ¬ is_union_val cfg y) ys
          ∧ Forall (λ x, ¬ is_union_val cfg x) xs
          ∧ Forall (λ y, Exists (i_sub M y) xs) ys)).
Proof.
  intros Hname Hpre Hopts Hlen.
  assert (Hu : starts "union" c = true) by by rewrite (starts_tuple _ _ _ _ Hname).
  assert (Htf : starts "tuple" c || starts "func" c = false).
  { rewrite !(starts_tuple _ _ _ _ Hname).
    by rewrite (prefix_union_not_tuple _ Hpre), (prefix_union_not_func _ Hpre). }
  pose proof (options_A_union _ _ _ _ _ _ _ Hu Htf Hopts) as Heq. subst opts.
  match goal with
  | |- context [axiom_body cfg c ?o] =>
      pose proof (sat_axiom_body_union cfg M c a ys ρ o Hu Hlen) as Hbody
  end.
  rewrite Exists_cons in Hbody.
  assert (Hfirst :
    sat M (env_of c a ys ρ)
      (FAnd (_not_union cfg (EVar x_const)
             :: ((λ con, FSubtype (EVar con) (EVar x_const)) <$> quantified c)))
    ↔ ¬ is_union_val cfg a ∧ Forall (λ y, i_sub M y a) ys).
  { rewrite sat_and, Forall_cons, sat_not_union, Forall_fmap. unfold compose.
    cbn [sat eval]. rewrite env_of_x.
    by rewrite (Forall_env_quantified c a ys ρ (λ y, i_sub M y a) Hlen). }
  rewrite Hfirst in Hbody. clear Hfirst. split.
  - intros Hnu. rewrite Hbody. split.
    + intros (Hys & [[_ Hall]|HU]); [done|].
      apply sat_union_as_union_is_union in HU. by rewrite env_of_x in HU.
    + intros [Hys Hall]. split; [done|]. by left.
  - intros k xs Hk Hxs Hproj ->. rewrite Hbody.
    unfold get_union_as_union_supertype_axioms.
    rewrite (sat_union_as_union cfg M _ FSubtype (i_sub M) _ k xs);
      [|done|done|done|done|apply env_of_x].
    rewrite Forall_fmap. unfold compose. cbn [eval].
    rewrite (Forall_env_quantified c _ ys ρ (λ y, Exists (i_sub M y) xs) Hlen).
    split.
    + intros (Hys & [[Hnu _]|H]); [|done].
      destruct Hnu. by apply union_val_in_range.
    + intros (? & ? & ?). split; [done|]. by right.
Qed.

(** The body of the second axiom of a union pseudo-class. *)
Lemma sat_union_body_second cfg type_sort (h : heap) i c c0 accs M ρ lit opts a ys :
  name c = NTuple (c0 :: accs) → String.prefix "union" c0 = true →
  options_B cfg type_sort h i c lit = Ok opts → length ys = length (quantified c) →
  (¬ is_union_val cfg a →
   (sat M (env_of c a ys ρ) (axiom_body cfg c opts)
    ↔ Forall (λ y, ¬ is_union_val cfg y) ys
      ∧ ((none_subtype_of_all cfg = true ∧ a = VCon "none" [])
         ∨ Exists (i_sub M a) ys)))
  ∧ (∀ k xs,
       k ∈ union_range cfg → length xs = k →
       projects M (union_name k) (union_accs k) → a = VCon (union_name k) xs →
       (sat M (env_of c a ys ρ) (axiom_body cfg c opts)
        ↔ Forall (λ y, ¬ is_union_val cfg y) ys
          ∧ Forall (λ x, ¬ is_union_val cfg x) xs
          ∧ Forall (λ y, Exists (λ x, i_sub M x y) xs) ys)).
Proof.
  intros Hname Hpre Hopts Hlen.
  assert (Hu : starts "union" c = true) by by rewrite (starts_tuple _ _ _ _ Hname).
  assert (Htf : starts "tuple" c || starts "func" c = false).
  { rewrite !(starts_tuple _ _ _ _ Hname).
    by rewrite (prefix_union_not_tuple _ Hpre), (prefix_union_not_func _ Hpre). }
  pose proof (options_B_union _ _ _ _ _ _ _ Hu Htf Hopts) as Heq. subst opts.
  match goal with
  | |- context [axiom_body cfg c ?o] =>
      pose proof (sat_axiom_body_union cfg M c a ys ρ o Hu Hlen) as Hbody
  end.
  rewrite Exists_app, Exists_cons in Hbody.
  assert (Hnone :
    Exists (sat M (env_of c a ys ρ))
      (if none_subtype_of_all cfg then [FEq (EVar x_const) (ECon "none" [])] else [])
    ↔ none_subtype_of_all cfg = true ∧ a = VCon "none" []).
  { destruct (none_subtype_of_all cfg).
    - rewrite Exists_single. cbn [sat eval]. rewrite env_of_x. simpl. tauto.
    - rewrite Exists_nil. split; [done|]. by intros [? _]. }
  assert (Hsecond :
    sat M (env_of c a ys ρ)
      (FAnd [_not_union cfg (EVar x_const);
             FOr ((λ con, FSubtype (EVar x_const) (EVar con)) <$> quantified c)])
    ↔ ¬ is_union_val cfg a ∧ Exists (i_sub M a) ys).
  { rewrite sat_and, Forall_cons, Forall_singleton, sat_not_union, sat_or, Exists_fmap.
    unfold compose. cbn [sat eval]. rewrite env_of_x.
    by rewrite (Exists_env_quantified c a ys ρ (λ y, i_sub M a y) Hlen). }
  rewrite Hnone, Hsecond in Hbody. clear Hnone Hsecond. split.
  - intros Hnu. rewrite Hbody. split.
    + intros (Hys & [Hn|[[_ He]|HU]]); [by auto|by auto|].
      apply sat_union_as_union_is_union in HU. by rewrite env_of_x in HU.
    + intros [Hys [Hn|He]]; (split; [done|]); [by left|]. right. by left.
  - intros k xs Hk Hxs Hproj ->. rewrite Hbody.
    unfold get_union_as_union_subtype_axioms.
    rewrite (sat_union_as_union cfg M _ (λ o arg, FSubtype arg o) (λ o x, i_sub M x o)
               _ k xs); [|done|done|done|done|apply env_of_x].
    rewrite Forall_fmap. unfold compose. cbn [eval].
    rewrite (Forall_env_quantified c _ ys ρ (λ y, Exists (λ x, i_sub M x y) xs) Hlen).
    split.
    + intros (Hys & [[_ Hn]|[[Hnu _]|H]]); [| |done].
      * exfalso. injection Hn as Hn _. unfold union_name in Hn. discriminate Hn.
      * destruct Hnu. by apply union_val_in_range.
    + intros (? & ? & ?). split; [done|]. right. by right.
Qed.

(** X4: the first axiom of a union pseudo-class, in every model of it.  A
    union of [ys] is a subtype of a value that is not a union exactly when
    no member is a union and every member is a subtype of the value; it is
    a subtype of a union of [xs] exactly when no member of either is a
    union and every member of [ys] is a subtype of some member of [xs]. *)
Theorem union_class_first_axiom cfg type_sort (h : heap) i c c0 accs M ρ ax a ys :
  name c = NTuple (c0 :: accs) → String.prefix "union" c0 = true →
  axiom_A cfg type_sort h i c = Ok ax → sat M ρ ax → in_dom M c a ys →
  (¬ is_union_val cfg a →
   (i_sub M (VCon c0 ys) a
    ↔ Forall (λ y, ¬ is_union_val cfg y) ys ∧ Forall (λ y, i_sub M y a) ys))
  ∧ (∀ k xs,
       k ∈ union_range cfg → length xs = k →
       projects M (union_name k) (union_accs k) → a = VCon (union_name k) xs →
       (i_sub M (VCon c0 ys) a
        ↔ Forall (λ y, ¬ is_union_val cfg y) ys
          ∧ Forall (λ x, ¬ is_union_val cfg x) xs
          ∧ Forall (λ y, Exists (i_sub M y) xs) ys)).
Proof.
  intros Hname Hpre Hax Hsat Hdom.
  pose proof (in_dom_length _ _ _ _ Hdom) as Hlen.
  pose proof Hax as Hax'.
  apply axiom_A_inv in Hax' as (lit & opts & Hlit & Hopts & _).
  pose proof (sat_axiom_A _ _ _ _ _ _ _ _ _ _ _ _ Hax Hlit Hopts Hsat Hdom) as Hiff.
  rewrite (constructor_name_tuple _ _ _ Hname) in Hiff.
  destruct (sat_union_body_first cfg type_sort h i c c0 accs M ρ lit opts a ys Hname Hpre Hopts Hlen)
    as [H1 H2].
  split.
  - intros Hnu. rewrite Hiff. exact (H1 Hnu).
  - intros k xs Hk Hxs Hproj Ha. rewrite Hiff. exact (H2 k xs Hk Hxs Hproj Ha).
Qed.

(** X5: the second axiom of a union pseudo-class, in every model of it.  A
    value that is not a union is a subtype of a union of [ys] exactly when
    no member is a union and the value is none (under
    [none_subtype_of_all]) or a subtype of some member; a union of [xs] is
    a subtype of a union of [ys] exactly when no member of either is a
    union and every member of [ys] has a subtype among the members of
    [xs]. *)
Theorem union_class_second_axiom cfg type_sort (h : heap) i c c0 accs M ρ ax a ys :
  name c = NTuple (c0 :: accs) → String.prefix "union" c0 = true →
  axiom_B cfg type_sort h i c = Ok ax → sat M ρ ax → in_dom M c a ys →
  (¬ is_union_val cfg a →
   (i_sub M a (VCon c0 ys)
    ↔ Forall (λ y, ¬ is_union_val cfg y) ys
      ∧ ((none_subtype_of_all cfg = true ∧ a = VCon "none" [])
         ∨ Exists (i_sub M a) ys)))
  ∧ (∀ k xs,
       k ∈ union_range cfg → length xs = k →
       projects M (union_name k) (union_accs k) → a = VCon (union_name k) xs →
       (i_sub M a (VCon c0 ys)
        ↔ Forall (λ y, ¬ is_union_val cfg y) ys
          ∧ Forall (λ x, ¬ is_union_val cfg x) xs
          ∧ Forall (λ y, Exists (λ x, i_sub M x y) xs) ys)).
Proof.
  intros Hname Hpre Hax Hsat Hdom.
  pose proof (in_dom_length _ _ _ _ Hdom) as Hlen.
  pose proof Hax as Hax'.
  apply axiom_B_inv in Hax' as (lit & opts & Hlit & Hopts & _).
  pose proof (sat_axiom_B _ _ _ _ _ _ _ _ _ _ _ _ Hax Hlit Hopts Hsat Hdom) as Hiff.
  rewrite (constructor_name_tuple _ _ _ Hname) in Hiff.
  destruct (sat_union_body_second cfg type_sort h i c c0 accs M ρ lit opts a ys Hname Hpre Hopts Hlen)
    as [H1 H2].
  split.
  - intros Hnu. rewrite Hiff. exact (H1 Hnu).
  - intros k xs Hk Hxs Hproj Ha. rewrite Hiff. exact (H2 k xs Hk Hxs Hproj Ha).
Qed.

(** ** The model of the axioms of the unions of length two *)

Lemma sat_axiom_A_intro cfg type_sort h i c ax lit opts M ρ :
  axiom_A cfg type_sort h i c = Ok ax → get_literal c = Ok lit →
  options_A cfg type_sort h i c lit = Ok opts →
  (∀ a ys, in_dom M c a ys →
     i_sub M (VCon (constructor_name c) ys) a
     ↔ sat M (env_of c a ys ρ) (axiom_body cfg c opts)) →
  sat M ρ ax.
Proof.
  intros Hax Hlit Hopts H.
  apply axiom_A_inv in Hax as (lit' & opts' & Hlit' & Hopts' & ->).
  rewrite Hlit in Hlit'. injection Hlit' as <-.
  rewrite Hopts in Hopts'. injection Hopts' as <-.
  cbn [sat]. intros vals Hdom.
  apply Forall2_cons_inv_l in Hdom as (a & ys & Ha & Hys & ->).
  assert (Hd : in_dom M c a ys) by done.
  cbn [eval].
  rewrite (eval_literal M c lit a ys ρ Hlit (in_dom_length _ _ _ _ Hd)), bind_x.
  by apply H.
Qed.

Lemma sat_axiom_B_intro cfg type_sort h i c ax lit opts M ρ :
  axiom_B cfg type_sort h i c = Ok ax → get_literal c = Ok lit →
  options_B cfg type_sort h i c lit = Ok opts →
  (∀ a ys, in_dom M c a ys →
     i_sub M a (VCon (constructor_name c) ys)
     ↔ sat M (env_of c a ys ρ) (axiom_body cfg c opts)) →
  sat M ρ ax.
Proof.
  intros Hax Hlit Hopts H.
  apply axiom_B_inv in Hax as (lit' & opts' & Hlit' & Hopts' & ->).
  rewrite Hlit in Hlit'. injection Hlit' as <-.
  rewrite Hopts in Hopts'. injection Hopts' as <-.
  cbn [sat]. intros vals Hdom.
  apply Forall2_cons_inv_l in Hdom as (a & ys & Ha & Hys & ->).
  assert (Hd : in_dom M c a ys) by done.
  cbn [eval].
  rewrite (eval_literal M c lit a ys ρ Hlit (in_dom_length _ _ _ _ Hd)), bind_x.
  by apply H.
Qed.

Lemma union_range_W b k : k ∈ union_range (cfgW b) ↔ k = 2.
Proof. destruct b; apply list_elem_of_singleton. Qed.

Lemma is_union_val_W b v : is_union_val (cfgW b) v ↔ ∃ xs, v = VCon "union_2" xs.
Proof.
  split.
  - intros (k & xs & Hk & ->). apply union_range_W in Hk as ->. by exists xs.
  - intros [xs ->]. exists 2, xs. split; [by apply union_range_W|done].
Qed.

Lemma flat_nonunion b v : ¬ is_union_val (cfgW b) v → flat b v.
Proof. by left. Qed.

Lemma flat_union b xs :
  flat b (VCon "union_2" xs) ↔ Forall (λ x, ¬ is_union_val (cfgW b) x) xs.
Proof.
  split.
  - intros [Hn|(xs' & [= <-] & H)]; [|done].
    destruct Hn. apply is_union_val_W. by eexists.
  - intros H. right. by exists xs.
Qed.

Lemma sigW_union_2 :
  od_get sigW "union_2" = Some [("union_2_arg_1", TypeSort); ("union_2_arg_2", TypeSort)].
Proof. vm_compute. reflexivity. Qed.

Lemma domU b a :
  has_sort sigW TypeSort a = true →
  ¬ is_union_val (cfgW b) a ∨ ∃ x0 x1, a = VCon "union_2" [x0; x1].
Proof.
  intros Hs. destruct a as [z|c args]; [done|].
  destruct (decide (c = "union_2")) as [->|Hc].
  - right. cbn [has_sort] in Hs. rewrite sigW_union_2 in Hs.
    destruct args as [|x0 [|x1 [|x2 args]]]; [done| |by eauto|].
    + by rewrite andb_false_r in Hs.
    + by rewrite !andb_false_r in Hs.
  - left. rewrite is_union_val_W. by intros (xs & [= ->]).
Qed.

Lemma MU_projects_union b : projects (MU b) (union_name 2) (union_accs 2).
Proof. intros [|u [|v [|??]]] Hl; try done. Qed.

Lemma unionU_quantified_inv (P : var → val → Prop) ys :
  Forall2 P (quantified unionU) ys → ∃ y0 y1, ys = [y0; y1].
Proof.
  intros H. apply Forall2_length in H. cbn in H.
  destruct ys as [|y0 [|y1 [|??]]]; try done. eauto.
Qed.

Lemma MU_axiom_A b :
  ∃ ax, axiom_A (cfgW b) sigW treeU 1 unionU = Ok ax ∧ sat (MU b) ρW ax.
Proof.
  destruct (axiom_A (cfgW b) sigW treeU 1 unionU) as [ax|] eqn:Hax;
    [|destruct b; by vm_compute in Hax].
  exists ax. split; [done|].
  destruct (axiom_A_inv _ _ _ _ _ _ Hax) as (lit & opts & Hlit & Hopts & _).
  apply (sat_axiom_A_intro _ _ _ _ _ _ _ _ _ _ Hax Hlit Hopts).
  intros a ys Hdom. pose proof (in_dom_length _ _ _ _ Hdom) as Hlen.
  destruct (sat_union_body_first (cfgW b) sigW treeU 1 unionU "union_2"
              ["union_2_arg_1"; "union_2_arg_2"] (MU b) ρW lit opts a ys
              eq_refl eq_refl Hopts Hlen) as [H1 H2].
  destruct Hdom as [Ha Hys].
  destruct (unionU_quantified_inv _ _ Hys) as (y0 & y1 & ->).
  change (constructor_name unionU) with "union_2". cbn [i_sub MU].
  rewrite flat_union.
  destruct (domU b a Ha) as [Hnu|(x0 & x1 & ->)].
  - rewrite (H1 Hnu). split.
    + intros [Hy _]. split; [done|].
      eapply Forall_impl; [exact Hy|]. intros y Hyn. cbn.
      split; by apply flat_nonunion.
    + intros [Hy _]. split; [done|]. by apply flat_nonunion.
  - rewrite (H2 2 [x0; x1] (proj2 (union_range_W b 2) eq_refl) eq_refl
               (MU_projects_union b) eq_refl).
    rewrite flat_union. split.
    + intros [Hy Hx]. split_and!; [done..|].
      eapply Forall_impl; [exact Hy|]. intros y Hyn. cbn.
      apply Forall_cons in Hx as [Hx0 _]. left. split; by apply flat_nonunion.
    + intros (Hy & Hx & _). done.
Qed.

Lemma MU_axiom_B b :
  ∃ ax, axiom_B (cfgW b) sigW treeU 1 unionU = Ok ax ∧ sat (MU b) ρW ax.
Proof.
  destruct (axiom_B (cfgW b) sigW treeU 1 unionU) as [ax|] eqn:Hax;
    [|destruct b; by vm_compute in Hax].
  exists ax. split; [done|].
  destruct (axiom_B_inv _ _ _ _ _ _ Hax) as (lit & opts & Hlit & Hopts & _).
  apply (sat_axiom_B_intro _ _ _ _ _ _ _ _ _ _ Hax Hlit Hopts).
  intros a ys Hdom. pose proof (in_dom_length _ _ _ _ Hdom) as Hlen.
  destruct (sat_union_body_second (cfgW b) sigW treeU 1 unionU "union_2"
              ["union_2_arg_1"; "union_2_arg_2"] (MU b) ρW lit opts a ys
              eq_refl eq_refl Hopts Hlen) as [H1 H2].
  destruct Hdom as [Ha Hys].
  destruct (unionU_quantified_inv _ _ Hys) as (y0 & y1 & ->).
  change (constructor_name unionU) with "union_2". cbn [i_sub MU].
  rewrite flat_union.
  destruct (domU b a Ha) as [Hnu|(x0 & x1 & ->)].
  - rewrite (H1 Hnu). split.
    + intros [_ Hy]. split; [done|]. right.
      apply Forall_cons in Hy as [Hy0 _]. left. cbn.
      split; by apply flat_nonunion.
    + intros [Hy _]. split; [by apply flat_nonunion|done].
  - rewrite (H2 2 [x0; x1] (proj2 (union_range_W b 2) eq_refl) eq_refl
               (MU_projects_union b) eq_refl).
    rewrite flat_union. split.
    + intros [Hx Hy]. split_and!; [done..|].
      eapply Forall_impl; [exact Hy|]. intros y Hyn. cbn.
      apply Forall_cons in Hx as [Hx0 _]. left. split; by apply flat_nonunion.
    + intros (Hy & Hx & _). done.
Qed.

Lemma not_union_W b c :
  c ≠ "union_2" → ∀ args, ¬ is_union_val (cfgW b) (VCon c args).
Proof. intros Hc args. rewrite is_union_val_W. by intros (xs & [= ->]). Qed.

Lemma union_class_first_axiom_witness :
  i_sub (MU false) (VCon "union_2" [vint; vobject]) vint.
Proof.
  destruct (MU_axiom_A false) as (ax & Hax & Hsat).
  destruct (union_class_first_axiom (cfgW false) sigW treeU 1 unionU "union_2"
              ["union_2_arg_1"; "union_2_arg_2"] (MU false) ρW ax vint [vint; vobject]
              eq_refl eq_refl Hax Hsat) as [H1 _].
  - split; [reflexivity|]. repeat constructor.
  - apply H1; [by apply not_union_W|]. split.
    + repeat (apply Forall_cons_2; [by apply not_union_W|]). apply Forall_nil_2.
    + repeat (apply Forall_cons_2;
                [split; apply flat_nonunion; by apply not_union_W|]).
      apply Forall_nil_2.
Defined.

Lemma union_class_second_axiom_witness :
  i_sub (MU true) vnone (VCon "union_2" [vint; vobject]).
Proof.
  destruct (MU_axiom_B true) as (ax & Hax & Hsat).
  destruct (union_class_second_axiom (cfgW true) sigW treeU 1 unionU "union_2"
              ["union_2_arg_1"; "union_2_arg_2"] (MU true) ρW ax vnone [vint; vobject]
              eq_refl eq_refl Hax Hsat) as [H1 _].
  - split; [reflexivity|]. repeat constructor.
  - apply H1; [by apply not_union_W|]. split.
    + repeat (apply Forall_cons_2; [by apply not_union_W|]). apply Forall_nil_2.
    + by left.
Defined.

(** ** Unions of unions *)

Lemma nested_union_contradiction cfg type_sort (h : heap) i c j d c0 accs M ρ axB axA vs ys :
  h !! i = Some c → starts "union" c = false →
  (j, d) ∈ nodes_of h (all_children h i) → j ≠ i →
  name d = NTuple (c0 :: accs) → String.prefix "union" c0 = true →
  projects M c0 accs → length vs = length accs →
  Exists (is_union_val cfg) vs →
  in_dom M c (VCon c0 vs) ys → in_dom M d (VCon (constructor_name c) ys) vs →
  axiom_B cfg type_sort h i c = Ok axB → axiom_A cfg type_sort h j d = Ok axA →
  sat M ρ axB → sat M ρ axA → False.
Proof.
  intros Hc Hnu Hd Hji Hname Hpre Hproj Hlen Hvs HdomB HdomA HaxB HaxA HsatB HsatA.
  assert (Hsub : i_sub M (VCon c0 vs) (VCon (constructor_name c) ys)).
  { pose proof HaxB as HaxB'.
    apply axiom_B_inv in HaxB' as (lit & opts & Hlit & Hopts & _).
    pose proof Hopts as Hopts'.
    destruct (options_B_inv _ _ _ _ _ _ _ Hnu Hopts) as (var & subs & -> & Hsubs & _).
    rewrite (sat_axiom_B _ _ _ _ _ _ _ _ _ _ _ _ HaxB Hlit Hopts' HsatB HdomB).
    rewrite (axiom_body_not_union _ _ _ Hnu), sat_or, !Exists_app.
    right. right. left.
    apply (sat_sub_options _ _ _ _ _ _ Hsubs). exists j, d. split; [done|].
    right. split; [done|]. eexists. split.
    - unfold get_literal_with_args. rewrite Hname. reflexivity.
    - cbn [eval]. rewrite eval_accs. cbn [eval]. rewrite env_of_x.
      by rewrite (Hproj vs Hlen). }
  pose proof HaxA as HaxA'.
  apply axiom_A_inv in HaxA' as (lit & opts & Hlit & Hopts & _).
  rewrite <- (constructor_name_tuple _ _ _ Hname) in Hsub.
  rewrite (sat_axiom_A _ _ _ _ _ _ _ _ _ _ _ _ HaxA Hlit Hopts HsatA HdomA) in Hsub.
  rewrite sat_axiom_body_union in Hsub;
    [|by rewrite (starts_tuple _ _ _ _ Hname)|by eapply in_dom_length].
  destruct Hsub as [Hall _].
  apply Exists_exists in Hvs as (v & Hv & Hu).
  rewrite Forall_forall in Hall. by apply (Hall v).
Qed.

(** X6: when a union pseudo-class is a descendant of a class that is not
    one, the second axiom of the class and the first axiom of the union
    pseudo-class contradict each other on a union one member of which is a
    union: the former makes it a subtype of the class, the latter makes it
    a subtype of nothing.  No interpretation whose accessors project the
    fields of the union and whose values include such a union satisfies
    both. *)
Theorem nested_union_axioms_unsatisfiable cfg type_sort (h : heap) i c j d c0 accs M ρ vs ys :
  h !! i = Some c → starts "union" c = false →
  (j, d) ∈ nodes_of h (all_children h i) → j ≠ i →
  name d = NTuple (c0 :: accs) → String.prefix "union" c0 = true →
  projects M c0 accs → length vs = length accs →
  Exists (is_union_val cfg) vs →
  in_dom M c (VCon c0 vs) ys → in_dom M d (VCon (constructor_name c) ys) vs →
  ¬ ∃ axB axA,
      axiom_B cfg type_sort h i c = Ok axB ∧ axiom_A cfg type_sort h j d = Ok axA
      ∧ sat M ρ axB ∧ sat M ρ axA.
Proof.
  intros Hc Hnu Hd Hji Hname Hpre Hproj Hlen Hvs HdomB HdomA
    (axB & axA & HaxB & HaxA & HsatB & HsatA).
  by eapply (nested_union_contradiction cfg type_sort h i c j d c0 accs M ρ axB axA vs ys).
Qed.

Lemma treeU_built : create_class_tree 5 clsU = Done treeU.
Proof. vm_compute. reflexivity. Qed.

Lemma treeU_children : (1, unionU) ∈ nodes_of treeU (all_children treeU 0).
Proof. apply nodes_of_elem. split; [|reflexivity]. vm_compute. set_solver. Qed.

Lemma clsU_axioms axs out :
  create_subtype_axioms (cfgW false) sigW show_formula 5 clsU = Done (axs, out) →
  ∃ axB axA,
    axiom_B (cfgW false) sigW treeU 0 objectU = Ok axB
    ∧ axiom_A (cfgW false) sigW treeU 1 unionU = Ok axA
    ∧ axB ∈ axs ∧ axA ∈ axs.
Proof.
  intros H. vm_compute in H. injection H as <- _.
  eexists _, _. split_and!; [vm_compute; reflexivity|vm_compute; reflexivity| |].
  - right. left.
  - right. right. left.
Qed.

Lemma nested_union_axioms_unsatisfiable_witness :
  unsatisfiable false clsU 5.
Proof.
  intros (R & axs & out & Hrun & Hall).
  destruct (clsU_axioms axs out Hrun) as (axB & axA & HaxB & HaxA & HinB & HinA).
  rewrite Forall_forall in Hall.
  apply (nested_union_axioms_unsatisfiable (cfgW false) sigW treeU 0 objectU 1 unionU
           "union_2" ["union_2_arg_1"; "union_2_arg_2"]
           (mkInterp (λ s v, has_sort sigW s v = true) accW R) ρW
           [VCon "union_2" [vobject; vobject]; vobject] []
           eq_refl eq_refl treeU_children).
  - discriminate.
  - reflexivity.
  - reflexivity.
  - intros [|u [|v [|??]]] Hl; try done.
  - reflexivity.
  - left. exists 2, [vobject; vobject]. split; [left|reflexivity].
  - split; [reflexivity|constructor].
  - split; [reflexivity|]. repeat constructor.
  - exists axB, axA. split_and!; [done|done|by apply Hall|by apply Hall].
Defined.

(** ** Decimal numerals contain no underscore *)

Lemma underscore_string : String underscore "" = "_".
Proof. reflexivity. Qed.

Lemma pretty_N_char_no_underscore x : pretty_N_char x ≠ underscore.
Proof. unfold pretty_N_char. by repeat case_match. Qed.

Lemma pretty_N_go_no_underscore x : ∀ s,
  no_underscore s → no_underscore (pretty_N_go x s).
Proof.
  induction (N.lt_wf_0 x) as [x _ IH]; intros s Hs.
  assert (x = 0 ∨ 0 < x)%N as [->|Hx] by lia.
  - by rewrite pretty_N_go_0.
  - rewrite pretty_N_go_step by done. apply IH.
    + by apply N.div_lt.
    + split; [apply pretty_N_char_no_underscore|done].
Qed.

Lemma pretty_nat_no_underscore (n : nat) : no_underscore (pretty n).
Proof.
  unfold pretty, pretty_nat, pretty, pretty_N. case_decide.
  - split; [done|done].
  - by apply pretty_N_go_no_underscore.
Qed.

Lemma after_last_underscore_none s :
  no_underscore s → after_last_underscore s = None.
Proof.
  induction s as [|a s IH]; [done|]. intros [Ha Hs]. simpl.
  rewrite (IH Hs). by rewrite decide_False.
Qed.

Lemma after_last_underscore_app name d :
  no_underscore d → after_last_underscore (name +:+ "_" +:+ d) = Some d.
Proof.
  intros Hd. induction name as [|a name IH].
  - change ("" +:+ "_" +:+ d) with (String underscore d). simpl.
    rewrite (after_last_underscore_none d Hd). by rewrite ?decide_True.
  - change (String a name +:+ "_" +:+ d) with (String a (name +:+ "_" +:+ d)).
    simpl. by rewrite IH.
Qed.

(** A name and a number are read back from the formatted name. *)
Lemma format_id_inj name1 name2 (n1 n2 : nat) :
  name1 +:+ "_" +:+ pretty n1 = name2 +:+ "_" +:+ pretty n2 → n1 = n2.
Proof.
  intros H. apply (f_equal after_last_underscore) in H.
  rewrite !after_last_underscore_app in H by apply pretty_nat_no_underscore.
  injection H as H. by apply (inj pretty) in H.
Qed.

(** ** Constants created by the solver *)

Lemma run_call_id s c : element_id (run_call s c) = element_id s + 1.
Proof. by destruct c. Qed.

Lemma call_const_name s c :
  ∃ nm, const_name (call_const s c) = nm +:+ "_" +:+ pretty (element_id s + 1).
Proof. destruct c; by eexists. Qed.

Lemma created_ids calls : ∀ s c,
  c ∈ created calls s →
  ∃ nm k, element_id s < k ∧ const_name c = nm +:+ "_" +:+ pretty k.
Proof.
  induction calls as [|c0 calls IH]; intros s c Hc; simpl in Hc.
  - by apply elem_of_nil in Hc.
  - apply elem_of_cons in Hc as [->|Hc].
    + destruct (call_const_name s c0) as [nm Hnm]. exists nm, (element_id s + 1).
      split; [lia|done].
    + destruct (IH _ _ Hc) as (nm & k & Hk & Hnm). rewrite run_call_id in Hk.
      exists nm, k. split; [lia|done].
Qed.

(** X7: the constants a solver creates, through [new_z3_const] or [add],
    have pairwise distinct names, from whatever state and with whatever
    name prefixes the calls are made: the number that ends a name is read
    back from it, and [new_element_id] never gives a number twice. *)
Theorem created_consts_distinct calls s :
  NoDup (const_name <$> created calls s).
Proof.
  revert s. induction calls as [|c0 calls IH]; intros s; simpl; [constructor|].
  apply NoDup_cons. split; [|apply IH].
  intros Hin. apply list_elem_of_fmap in Hin as (c & Hname & Hc).
  apply created_ids in Hc as (nm & k & Hk & Hnm). rewrite run_call_id in Hk.
  destruct (call_const_name s c0) as [nm0 Hnm0].
  rewrite Hnm0, Hnm in Hname. apply format_id_inj in Hname. lia.
Qed.

(** ** Messages of the tracked assertions *)

Lemma errors_get_set_eq d k v : errors_get (errors_set d k v) k = Some v.
Proof.
  induction d as [|[k' v'] d IH]; simpl.
  - by rewrite decide_True.
  - case_decide; simpl; [by rewrite decide_True|]. by rewrite decide_False.
Qed.

Lemma errors_get_set_ne d k k' v :
  k ≠ k' → errors_get (errors_set d k v) k' = errors_get d k'.
Proof.
  intros Hne. induction d as [|[k0 v0] d IH]; simpl.
  - by rewrite decide_False.
  - case_decide as Hk; simpl.
    + subst k0. by rewrite !decide_False.
    + case_decide; [done|]. apply IH.
Qed.

Lemma run_calls_inv calls : tracked_inv calls (run_calls calls solver_new).
Proof.
  induction calls as [|c calls IH] using rev_ind.
  - unfold tracked_inv. simpl. split_and!.
    + done.
    + intros v Hv. by apply elem_of_nil in Hv.
    + apply NoDup_nil_2.
    + apply Forall2_nil_2.
    + done.
  - unfold run_calls. rewrite foldl_app. simpl. fold (run_calls calls solver_new).
    destruct IH as (Hid & Hform & Hnd & Hmsg & Hass).
    set (s := run_calls calls solver_new) in *.
    unfold tracked_inv, added. rewrite omap_app, length_app. fold (added calls).
    destruct c as [args msg|nm so]; simpl.
    + set (a := mkConst ("assertion_bool" +:+ "_" +:+ pretty (element_id s + 1)) BoolSort).
      assert (Hfresh : a ∉ assertions_vars s).
      { intros Hin. destruct (Hform a Hin) as (k & Hk & Heq).
        apply (f_equal const_name) in Heq. cbn [const_name a] in Heq.
        apply format_id_inj in Heq. lia. }
      split_and!.
      * lia.
      * intros v Hv. apply elem_of_app in Hv as [Hv|Hv].
        -- destruct (Hform v Hv) as (k & Hk & ->). exists k. split; [lia|done].
        -- apply list_elem_of_singleton in Hv as ->. exists (element_id s + 1).
           split; [lia|done].
      * apply NoDup_app. split_and!; [done| |apply NoDup_singleton].
        intros v Hv Hv'. apply list_elem_of_singleton in Hv' as ->. done.
      * apply Forall2_app.
        -- eapply Forall2_impl; [|intros v am Hv; exact Hv].
           apply Forall2_same_length_lookup_2; [by eapply Forall2_length|].
           intros i v am Hv Ham. rewrite errors_get_set_ne.
           ++ by eapply (Forall2_lookup_lr _ _ _ i v am Hmsg).
           ++ intros <-. apply Hfresh. by eapply list_elem_of_lookup_2.
        -- constructor; [|constructor]. simpl. apply errors_get_set_eq.
      * rewrite Hass, fmap_app. simpl. rewrite zip_with_app; [done|].
        rewrite length_fmap. by eapply Forall2_length.
    + rewrite !app_nil_r. split_and!; [lia| |done|done|done].
      intros v Hv. destruct (Hform v Hv) as (k & Hk & ->). exists k. split; [lia|done].
Qed.

(** X8: a solver starts with the axioms of the type system registered
    under the message ["Subtyping error"].  After any sequence of calls of
    [add] and [new_z3_const] on it, [element_id] is one more than the
    number of calls, the registered assertion constants are pairwise
    distinct, the first of them maps to ["Subtyping error"] and guards the
    axioms, and the one registered by the i-th call of [add] maps to the
    message of that call and guards the conjunction it asserted. *)
Theorem solver_tracks_assertions subtyping calls :
  element_id (run_calls calls (solver_init subtyping)) = 1 + length calls
  ∧ NoDup (assertions_vars (run_calls calls (solver_init subtyping)))
  ∧ Forall2 (λ v am,
       errors_get (assertions_errors (run_calls calls (solver_init subtyping))) v
       = Some am.2)
      (assertions_vars (run_calls calls (solver_init subtyping)))
      ((subtyping, "Subtyping error") :: added calls)
  ∧ assertions (run_calls calls (solver_init subtyping))
    = zip_with mkTracked (assertions_vars (run_calls calls (solver_init subtyping)))
        (subtyping :: (added calls).*1).
Proof.
  destruct (run_calls_inv (CallAdd subtyping "Subtyping error" :: calls))
    as (? & _ & ? & ? & ?).
  done.
Qed.

(** ** The constructors of the type sort *)

Lemma app_String a p s : String a p +:+ s = String a (p +:+ s).
Proof. reflexivity. Qed.

Lemma prefix_nil s : String.prefix "" s = true.
Proof. by destruct s. Qed.

Ltac family_tac :=
  unfold family; rewrite !app_String;
  repeat first [progress cbn [String.prefix]
               |destruct (Ascii.ascii_dec _ _); try done];
  rewrite ?prefix_nil; done.

Lemma family_tuple s : family ("tuple_" +:+ s) = 1.
Proof. family_tac. Qed.

Lemma family_func s : family ("func_" +:+ s) = 2.
Proof. family_tac. Qed.

Lemma family_class s : family ("class_" +:+ s) = 3.
Proof. family_tac. Qed.

Lemma family_union s : family ("union_" +:+ s) = 4.
Proof. family_tac. Qed.

Lemma NoDup_app_family (l1 l2 : list string) t :
  NoDup l1 → NoDup l2 →
  Forall (λ x, family x = t) l1 → Forall (λ x, family x ≠ t) l2 →
  NoDup (l1 ++ l2).
Proof.
  intros H1 H2 Hf1 Hf2. apply NoDup_app. split_and!; [done| |done].
  intros x Hx1 Hx2. rewrite Forall_forall in Hf1, Hf2.
  by apply (Hf2 x Hx2), Hf1.
Qed.

Lemma od_get_None_family {V} (l : list (string * V)) k t :
  Forall (λ p, family p.1 = t) l → family k ≠ t → od_get l k = None.
Proof.
  intros Hl Hk. induction Hl as [|[k' v] l Hk' _ IH]; [done|]. simpl in *.
  rewrite decide_False by congruence. done.
Qed.

Lemma od_get_app {V} (l1 l2 : list (string * V)) k :
  od_get (l1 ++ l2) k = match od_get l1 k with Some v => Some v | None => od_get l2 k end.
Proof.
  induction l1 as [|[k' v] l1 IH]; [done|]. simpl. by case_decide.
Qed.

Lemma od_get_fmap {A V} `{EqDecision A} (f : A → string) `{!Inj (=) (=) f}
    (g : A → V) (l : list A) a :
  od_get ((λ x, (f x, g x)) <$> l) (f a) = if decide (a ∈ l) then Some (g a) else None.
Proof.
  induction l as [|b l IH]; [rewrite fmap_nil|rewrite fmap_cons]; cbn [od_get].
  - destruct (decide (a ∈ [])) as [Hin|]; [by apply elem_of_nil in Hin|done].
  - destruct (decide (f b = f a)) as [Hb|Hb].
    + apply (inj f) in Hb as ->. destruct (decide (a ∈ a :: l)) as [|Hn]; [done|].
      destruct Hn. by left.
    + rewrite IH. destruct (decide (a ∈ l)), (decide (a ∈ b :: l)) as [Hin|Hn];
        try done.
      * destruct Hn. by right.
      * apply elem_of_cons in Hin as [->|?]; done.
Qed.

Lemma Forall_family_fmap {A V} (f : A → string) (g : A → V) (l : list A) t :
  (∀ x, family (f x) = t) → Forall (λ p, family p.1 = t) ((λ x, (f x, g x)) <$> l).
Proof. intros H. apply Forall_fmap, Forall_forall. intros x _. apply H. Qed.

Local Instance tuple_name_inj : Inj (=) (=) (λ k : nat, "tuple_" +:+ pretty k).
Proof. intros x y H. apply (inj (String.app "tuple_")) in H. by apply (inj pretty) in H. Qed.

Local Instance func_name_inj : Inj (=) (=) (λ k : nat, "func_" +:+ pretty k).
Proof. intros x y H. apply (inj (String.app "func_")) in H. by apply (inj pretty) in H. Qed.

Local Instance class_name_inj : Inj (=) (=) (λ cls : string, "class_" +:+ cls).
Proof. intros x y H. by apply (inj (String.app "class_")) in H. Qed.

Local Instance union_name_Inj : Inj (=) (=) union_name.
Proof. intros x y. apply union_name_inj. Qed.

Lemma union_range_elem cfg k :
  k ∈ union_range cfg ↔ 2 ≤ k ≤ maximum_union_length cfg.
Proof. unfold union_range. rewrite elem_of_seq. lia. Qed.

Lemma declare_type_sort_decls cfg classes :
  declare_type_sort cfg classes
  = builtin_decls_1 ++ (tuple_decl <$> seq 0 (max_tuple_length cfg + 1))
    ++ builtin_decls_2 ++ (func_decl <$> seq 0 (max_function_args cfg + 1))
    ++ (class_decl <$> classes) ++ (union_decl <$> union_range cfg).
Proof. reflexivity. Qed.

Lemma builtin_1_family : Forall (λ p, family p.1 = 0) builtin_decls_1.
Proof. repeat (apply Forall_cons_2; [by vm_compute|]). apply Forall_nil_2. Qed.

Lemma builtin_2_family : Forall (λ p, family p.1 = 0) builtin_decls_2.
Proof. repeat (apply Forall_cons_2; [by vm_compute|]). apply Forall_nil_2. Qed.

Lemma tuple_family l : Forall (λ p, family p.1 = 1) (tuple_decl <$> l).
Proof. apply Forall_fmap, Forall_forall. intros k _. apply family_tuple. Qed.

Lemma func_family l : Forall (λ p, family p.1 = 2) (func_decl <$> l).
Proof. apply Forall_fmap, Forall_forall. intros k _. apply family_func. Qed.

Lemma class_family l : Forall (λ p, family p.1 = 3) (class_decl <$> l).
Proof. apply Forall_fmap, Forall_forall. intros k _. apply family_class. Qed.

Lemma union_family l : Forall (λ p, family p.1 = 4) (union_decl <$> l).
Proof. apply Forall_fmap, Forall_forall. intros k _. apply family_union. Qed.

Lemma tuple_decl_get l k :
  od_get (tuple_decl <$> l) ("tuple_" +:+ pretty k)
  = if decide (k ∈ l) then Some (tuple_decl k).2 else None.
Proof. exact (od_get_fmap (λ k, "tuple_" +:+ pretty k) (λ k, (tuple_decl k).2) l k). Qed.

Lemma func_decl_get l k :
  od_get (func_decl <$> l) ("func_" +:+ pretty k)
  = if decide (k ∈ l) then Some (func_decl k).2 else None.
Proof. exact (od_get_fmap (λ k, "func_" +:+ pretty k) (λ k, (func_decl k).2) l k). Qed.

Lemma class_decl_get l cls :
  od_get (class_decl <$> l) ("class_" +:+ cls)
  = if decide (cls ∈ l) then Some [] else None.
Proof. exact (od_get_fmap (λ cls, "class_" +:+ cls) (λ _, []) l cls). Qed.

Lemma union_decl_get l k :
  od_get (union_decl <$> l) (union_name k)
  = if decide (k ∈ l) then Some (union_decl k).2 else None.
Proof. exact (od_get_fmap union_name (λ k, (union_decl k).2) l k). Qed.

Ltac skip_family H :=
  rewrite (od_get_None_family _ _ _ H) by (rewrite ?family_tuple, ?family_func,
    ?family_class, ?family_union; done).

Lemma Forall_family_ne (l : list (string * list (string * sort))) t t' :
  t ≠ t' → Forall (λ p, family p.1 = t) l → Forall (λ x, family x ≠ t') l.*1.
Proof.
  intros Hne H. apply Forall_fmap. eapply Forall_impl; [exact H|].
  intros p Hp. simpl. congruence.
Qed.

Lemma Forall_family_fst (l : list (string * list (string * sort))) t :
  Forall (λ p, family p.1 = t) l → Forall (λ x, family x = t) l.*1.
Proof. intros H. by apply Forall_fmap. Qed.

(** X9: the constructors [declare_type_sort] declares, for distinct user
    classes, have pairwise distinct names; looking a name up gives the
    declaration of the naming scheme: [tuple_k] with the accessors
    [tuple_k_arg_1..k] for every [k] up to [max_tuple_length], [func_k]
    with [func_k_defaults_args] (an integer), [func_k_arg_1..k] and
    [func_k_return] for every [k] up to [max_function_args], [class_<cls>]
    without fields for every class, and [union_k] with [union_k_arg_1..k]
    exactly for [2 <= k <= maximum_union_length] (no union constructor at
    all when [maximum_union_length < 2]). *)
Theorem declare_type_sort_constructors cfg classes :
  NoDup classes →
  NoDup (declare_type_sort cfg classes).*1
  ∧ (∀ k, k ≤ max_tuple_length cfg →
       od_get (declare_type_sort cfg classes) ("tuple_" +:+ pretty k)
       = Some ((λ arg, ("tuple_" +:+ pretty k +:+ "_arg_" +:+ pretty (arg + 1), TypeSort))
               <$> seq 0 k))
  ∧ (∀ k, k ≤ max_function_args cfg →
       od_get (declare_type_sort cfg classes) ("func_" +:+ pretty k)
       = Some (("func_" +:+ pretty k +:+ "_defaults_args", IntSort)
               :: ((λ arg, ("func_" +:+ pretty k +:+ "_arg_" +:+ pretty (arg + 1), TypeSort))
                   <$> seq 0 k)
               ++ [("func_" +:+ pretty k +:+ "_return", TypeSort)]))
  ∧ (∀ cls, cls ∈ classes →
       od_get (declare_type_sort cfg classes) ("class_" +:+ cls) = Some [])
  ∧ (∀ k, od_get (declare_type_sort cfg classes) (union_name k)
          = if decide (2 ≤ k ≤ maximum_union_length cfg)
            then Some ((λ arg, (union_arg_name k (arg + 1), TypeSort)) <$> seq 0 k)
            else None).
Proof.
  intros Hnd. rewrite declare_type_sort_decls.
  pose proof builtin_1_family as Hb1. pose proof builtin_2_family as Hb2.
  pose proof (tuple_family (seq 0 (max_tuple_length cfg + 1))) as Ht.
  pose proof (func_family (seq 0 (max_function_args cfg + 1))) as Hf.
  pose proof (class_family classes) as Hc.
  pose proof (union_family (union_range cfg)) as Hu.
  split_and!.
  - rewrite !fmap_app.
    rewrite (Permutation_app_swap_app (builtin_decls_1.*1)).
    apply (NoDup_app_family _ _ 1).
    { rewrite <- list_fmap_compose. apply NoDup_fmap_2; [|apply NoDup_seq].
      intros x y. apply tuple_name_inj. }
    2:{ by apply Forall_family_fst. }
    2:{ repeat (apply Forall_app_2); (eapply Forall_family_ne; [|eassumption]; done). }
    rewrite (app_assoc (builtin_decls_1.*1)).
    apply (NoDup_app_family _ _ 0).
    { by apply (bool_decide_unpack _). }
    2:{ apply Forall_app_2; by apply Forall_family_fst. }
    2:{ repeat (apply Forall_app_2); (eapply Forall_family_ne; [|eassumption]; done). }
    apply (NoDup_app_family _ _ 2).
    { rewrite <- list_fmap_compose. apply NoDup_fmap_2; [|apply NoDup_seq].
      intros x y. apply func_name_inj. }
    2:{ by apply Forall_family_fst. }
    2:{ repeat (apply Forall_app_2); (eapply Forall_family_ne; [|eassumption]; done). }
    apply (NoDup_app_family _ _ 3).
    { rewrite <- list_fmap_compose. apply NoDup_fmap_2; [|done].
      intros x y. apply class_name_inj. }
    2:{ by apply Forall_family_fst. }
    2:{ eapply Forall_family_ne; [|eassumption]; done. }
    rewrite <- list_fmap_compose. apply NoDup_fmap_2; [|apply NoDup_seq].
    intros x y. apply union_name_inj.
  - intros k Hk. rewrite !od_get_app. skip_family Hb1.
    rewrite tuple_decl_get, decide_True; [done|]. apply elem_of_seq. lia.
  - intros k Hk. rewrite !od_get_app. skip_family Hb1. skip_family Ht. skip_family Hb2.
    rewrite func_decl_get, decide_True; [done|]. apply elem_of_seq. lia.
  - intros cls Hcls. rewrite !od_get_app. skip_family Hb1. skip_family Ht.
    skip_family Hb2. skip_family Hf. by rewrite class_decl_get, decide_True.
  - intros k. rewrite !od_get_app. unfold union_name at 1 2 3 4 5.
    skip_family Hb1. skip_family Ht. skip_family Hb2. skip_family Hf. skip_family Hc.
    fold (union_name k). rewrite union_decl_get.
    destruct (decide (k ∈ union_range cfg)) as [Hin|Hin],
             (decide (2 ≤ k ≤ maximum_union_length cfg)) as [Hr|Hr]; try done.
    + by apply union_range_elem in Hin.
    + by apply union_range_elem in Hr.
Qed.

Lemma declare_type_sort_constructors_witness :
  NoDup (declare_type_sort (mkConfig 2 1 3 false) ["A"; "B"]).*1
  ∧ od_get (declare_type_sort (mkConfig 2 1 3 false) ["A"; "B"]) "func_1"
    = Some [("func_1_defaults_args", IntSort); ("func_1_arg_1", TypeSort);
            ("func_1_return", TypeSort)]
  ∧ od_get (declare_type_sort (mkConfig 2 1 3 false) ["A"; "B"]) "union_4" = None.
Proof.
  destruct (declare_type_sort_constructors (mkConfig 2 1 3 false) ["A"; "B"])
    as (Hnd & _ & Hf & _ & Hu).
  - by apply (bool_decide_unpack _).
  - split_and!; [done|exact (Hf 1 ltac:(simpl; lia))|exact (Hu 4)].
Defined.

(** ** The constructor tables *)

Lemma sort_get_tuple cfg cls k :
  k ≤ max_tuple_length cfg →
  is_Some (od_get (declare_type_sort cfg cls) ("tuple_" +:+ pretty k)).
Proof.
  intros Hk. rewrite declare_type_sort_decls, !od_get_app.
  skip_family builtin_1_family.
  rewrite tuple_decl_get, decide_True; [done|]. apply elem_of_seq. lia.
Qed.

Lemma sort_get_func cfg cls k :
  k ≤ max_function_args cfg →
  is_Some (od_get (declare_type_sort cfg cls) ("func_" +:+ pretty k)).
Proof.
  intros Hk. rewrite declare_type_sort_decls, !od_get_app.
  skip_family builtin_1_family.
  skip_family (tuple_family (seq 0 (max_tuple_length cfg + 1))).
  skip_family builtin_2_family.
  rewrite func_decl_get, decide_True; [done|]. apply elem_of_seq. lia.
Qed.

Lemma sort_get_class cfg cls c :
  c ∈ cls → is_Some (od_get (declare_type_sort cfg cls) ("class_" +:+ c)).
Proof.
  intros Hc. rewrite declare_type_sort_decls, !od_get_app.
  skip_family builtin_1_family.
  skip_family (tuple_family (seq 0 (max_tuple_length cfg + 1))).
  skip_family builtin_2_family.
  skip_family (func_family (seq 0 (max_function_args cfg + 1))).
  by rewrite class_decl_get, decide_True.
Qed.

Lemma sort_get_union cfg cls k :
  k ∈ union_range cfg → is_Some (od_get (declare_type_sort cfg cls) (union_name k)).
Proof.
  intros Hk. rewrite declare_type_sort_decls, !od_get_app. unfold union_name at 1 2 3 4 5.
  skip_family builtin_1_family.
  skip_family (tuple_family (seq 0 (max_tuple_length cfg + 1))).
  skip_family builtin_2_family.
  skip_family (func_family (seq 0 (max_function_args cfg + 1))).
  skip_family (class_family cls).
  fold (union_name k). by rewrite union_decl_get, decide_True.
Qed.

Lemma sort_getattr_Some sg nm : is_Some (od_get sg nm) → sort_getattr sg nm = Ok nm.
Proof. intros [v Hv]. unfold sort_getattr. by rewrite Hv. Qed.

Lemma mapM_res_getattr {A} sg (f : A → string) (l : list A) :
  (∀ a, a ∈ l → is_Some (od_get sg (f a))) →
  mapM_res (λ a, sort_getattr sg (f a)) l = Ok (f <$> l).
Proof.
  induction l as [|a l IH]; intros H; simpl; [done|].
  rewrite sort_getattr_Some by (apply H; by left). simpl.
  rewrite IH by (intros b Hb; apply H; by right). done.
Qed.

Lemma classes_fold sg (l : list string) : ∀ d,
  (∀ c, c ∈ l → is_Some (od_get sg ("class_" +:+ c))) →
  NoDup (d.*1 ++ l) →
  foldM_res (λ d cls, c ← sort_getattr sg ("class_" +:+ cls); Ok (od_set d cls c)) d l
  = Ok (d ++ ((λ cls, (cls, "class_" +:+ cls)) <$> l)).
Proof.
  induction l as [|c l IH]; intros d H Hnd; simpl.
  - by rewrite app_nil_r.
  - rewrite sort_getattr_Some by (apply H; by left). simpl.
    apply NoDup_app in Hnd as (Hd & Hdisj & Hl).
    apply NoDup_cons in Hl as [Hc Hl].
    rewrite od_set_fresh by (intros Hin; apply (Hdisj _ Hin); by left).
    rewrite IH.
    + by rewrite <- app_assoc.
    + intros b Hb. apply H. by right.
    + rewrite fmap_app. simpl. rewrite <- app_assoc. simpl.
      apply NoDup_app. split_and!; [done| |by apply NoDup_cons].
      intros x Hx Hx'. by apply (Hdisj x Hx).
Qed.

Lemma unions_fold sg n : ∀ a (l : list (option string)),
  (∀ k, a ≤ k < a + n → is_Some (od_get sg (union_name k))) →
  (∀ k, a ≤ k < a + n → k < length l) →
  ∃ l', foldM_res (λ l cur_len, c ← sort_getattr sg (union_name cur_len);
                                py_setitem l cur_len (Some c)) l (seq a n) = Ok l'
        ∧ length l' = length l
        ∧ ∀ k, l' !! k = if decide (a ≤ k < a + n) then Some (Some (union_name k))
                         else l !! k.
Proof.
  induction n as [|n IH]; intros a l H Hlen; simpl.
  - exists l. split_and!; [done..|]. intros k. by rewrite decide_False by lia.
  - rewrite sort_getattr_Some by (apply H; lia). simpl.
    unfold py_setitem. rewrite decide_True by (apply Hlen; lia).
    destruct (IH (S a) (<[a:=Some (union_name a)]> l)) as (l' & Hrun & Hl' & Hlook).
    { intros k Hk. apply H. lia. }
    { intros k Hk. rewrite length_insert. apply Hlen. lia. }
    exists l'. split_and!; [done|by rewrite Hl', length_insert|].
    intros k. rewrite Hlook.
    destruct (decide (S a ≤ k < S a + n)), (decide (a ≤ k < a + S n)); try lia; [done|..].
    + assert (k = a) as -> by lia.
      by rewrite list_lookup_insert_eq by (apply Hlen; lia).
    + by rewrite list_lookup_insert_ne by lia.
Qed.

(** X10: the loops of [Z3Types.__init__] that look the constructors up in
    the sort [declare_type_sort] has just declared never fail, for distinct
    classes, and fill the tables as follows: [tuples[k]] is [tuple_k] for
    every [k] up to [max_tuple_length], [funcs[k]] is [func_k] for every
    [k] up to [max_function_args], [classes[cls]] is [class_<cls>] in the
    order of the classes, and [unions] has [maximum_union_length + 1]
    entries, the entry [k] being [union_k] for [2 <= k] and [None] for
    the indices 0 and 1. *)
Theorem Z3Types_init_tables cfg (class_names : list string) :
  NoDup class_names →
  ∃ t, Z3Types_init cfg class_names = Ok t
       ∧ tuples t = (λ k, "tuple_" +:+ pretty k) <$> seq 0 (max_tuple_length cfg + 1)
       ∧ funcs t = (λ k, "func_" +:+ pretty k) <$> seq 0 (max_function_args cfg + 1)
       ∧ classes t = (λ cls, (cls, "class_" +:+ cls)) <$> class_names
       ∧ length (unions t) = maximum_union_length cfg + 1
       ∧ ∀ k, unions t !! k
              = if decide (2 ≤ k ≤ maximum_union_length cfg)
                then Some (Some (union_name k))
                else if decide (k ≤ maximum_union_length cfg) then Some None else None.
Proof.
  intros Hnd. unfold Z3Types_init.
  rewrite (mapM_res_getattr _ (λ k, "tuple_" +:+ pretty k)).
  2:{ intros k Hk. apply sort_get_tuple. apply elem_of_seq in Hk. lia. }
  rewrite (mapM_res_getattr _ (λ k, "func_" +:+ pretty k)).
  2:{ intros k Hk. apply sort_get_func. apply elem_of_seq in Hk. lia. }
  simpl.
  rewrite (classes_fold _ class_names []); [|by intros; apply sort_get_class|done].
  simpl.
  destruct (unions_fold (declare_type_sort cfg class_names)
              (maximum_union_length cfg + 1 - 2) 2
              (replicate (maximum_union_length cfg + 1) None))
    as (l' & Hrun & Hlen & Hlook).
  { intros k Hk. apply sort_get_union, union_range_elem. lia. }
  { intros k Hk. rewrite length_replicate. lia. }
  unfold union_range. rewrite Hrun. simpl.
  eexists. split; [reflexivity|]. simpl. split_and!; [done..| |].
  - by rewrite Hlen, length_replicate.
  - intros k. rewrite Hlook.
    destruct (decide (2 ≤ k < 2 + (maximum_union_length cfg + 1 - 2))),
             (decide (2 ≤ k ≤ maximum_union_length cfg)); try lia; [done|].
    destruct (decide (k ≤ maximum_union_length cfg)).
    + apply lookup_replicate_2. lia.
    + apply lookup_ge_None. rewrite length_replicate. lia.
Qed.

Lemma Z3Types_init_tables_witness :
  ∃ t, Z3Types_init (mkConfig 1 0 3 false) ["A"] = Ok t
       ∧ tuples t = ["tuple_0"; "tuple_1"]
       ∧ funcs t = ["func_0"]
       ∧ classes t = [("A", "class_A")]
       ∧ unions t = [None; None; Some "union_2"; Some "union_3"].
Proof.
  destruct (Z3Types_init_tables (mkConfig 1 0 3 false) ["A"])
    as (t & Hrun & Ht & Hf & Hc & Hl & Hu).
  - by apply (bool_decide_unpack _).
  - exists t. split_and!; [done..|].
    apply list_eq. intros k. rewrite Hu.
    do 4 (destruct k as [|k]; [reflexivity|]). reflexivity.
Defined.

(** ** Attribute tables: lookups *)

Lemma od_get_set_eq {V} (d : list (string * V)) k v : od_get (od_set d k v) k = Some v.
Proof.
  induction d as [|[k' v'] d IH]; simpl.
  - by rewrite decide_True.
  - destruct (decide (k' = k)); simpl; [by rewrite decide_True|].
    by rewrite decide_False.
Qed.

Lemma od_get_set_ne {V} (d : list (string * V)) k k' v :
  k ≠ k' → od_get (od_set d k v) k' = od_get d k'.
Proof.
  intros Hne. induction d as [|[k0 v0] d IH]; simpl.
  - by rewrite decide_False.
  - destruct (decide (k0 = k)) as [->|Hk]; simpl.
    + by rewrite !decide_False.
    + destruct (decide (k0 = k')); [done|]. apply IH.
Qed.

Lemma class_attrs_get cls attrs : ∀ (acc : list (string * var)) attr,
  od_get (foldl (λ a attr, od_set a attr (attr_const cls attr)) acc attrs) attr
  = if decide (attr ∈ attrs) then Some (attr_const cls attr) else od_get acc attr.
Proof.
  induction attrs as [|a attrs IH]; intros acc attr; simpl.
  - destruct (decide (attr ∈ [])) as [Hin|]; [by apply elem_of_nil in Hin|done].
  - rewrite IH. destruct (decide (attr ∈ attrs)) as [Hin|Hin].
    + rewrite decide_True; [done|by right].
    + destruct (decide (a = attr)) as [->|Hne].
      * rewrite od_get_set_eq. rewrite decide_True; [done|by left].
      * rewrite od_get_set_ne by done. rewrite decide_False; [done|].
        intros H. apply elem_of_cons in H as [->|?]; done.
Qed.

Lemma od_get_None_keys {V} (d : list (string * V)) k : k ∉ d.*1 → od_get d k = None.
Proof.
  induction d as [|[k' v] d IH]; [done|]. simpl. intros Hk.
  apply not_elem_of_cons in Hk as [Hne Hk]. rewrite decide_False by done. by apply IH.
Qed.

Lemma create_classes_attributes_get cta : ∀ m cls,
  NoDup cta.*1 →
  od_get (create_classes_attributes cta m) cls
  = match od_get cta cls with
    | Some attrs =>
        Some (foldl (λ a attr, od_set a attr (attr_const cls attr)) [] attrs)
    | None => od_get m cls
    end.
Proof.
  unfold create_classes_attributes.
  induction cta as [|[c attrs] cta IH]; intros m cls Hnd; [done|].
  apply NoDup_cons in Hnd as [Hc Hnd]. simpl. rewrite IH by done.
  destruct (decide (c = cls)) as [->|Hne].
  - rewrite (od_get_None_keys cta cls Hc). by rewrite od_get_set_eq.
  - destruct (od_get cta cls); [done|]. by rewrite od_get_set_ne.
Qed.

(** X11: [create_classes_attributes] replaces the entry of every class of
    [classes_to_attrs] and leaves the other entries of [attributes_map] as
    they were: after the call, the entry of a class of [classes_to_attrs]
    holds exactly its attributes, each mapped to the constant
    [class_<cls>_attr_<attr>], whatever the map held for the class before
    and however often an attribute is repeated; the entry of any other
    class is unchanged. *)
Theorem create_classes_attributes_lookup
    (classes_to_attrs : list (string * list string))
    (attributes_map : list (string * list (string * var))) cls :
  NoDup classes_to_attrs.*1 →
  match od_get classes_to_attrs cls with
  | Some attrs =>
      ∃ t, od_get (create_classes_attributes classes_to_attrs attributes_map) cls = Some t
           ∧ ∀ attr, od_get t attr
                     = if decide (attr ∈ attrs) then Some (attr_const cls attr) else None
  | None =>
      od_get (create_classes_attributes classes_to_attrs attributes_map) cls
      = od_get attributes_map cls
  end.
Proof.
  intros Hnd. rewrite (create_classes_attributes_get _ _ _ Hnd).
  destruct (od_get classes_to_attrs cls) as [attrs|]; [|done].
  eexists. split; [reflexivity|]. intros attr. by rewrite class_attrs_get.
Qed.

Lemma create_classes_attributes_lookup_witness :
  (∃ t, od_get (create_classes_attributes [("A", ["x"; "y"; "x"])]
                  [("B", [("z", attr_const "B" "z")]); ("A", [("old", attr_const "A" "old")])])
          "A" = Some t
        ∧ ∀ attr, od_get t attr
                  = if decide (attr ∈ ["x"; "y"; "x"]) then Some (attr_const "A" attr)
                    else None).
Proof.
  apply (create_classes_attributes_lookup [("A", ["x"; "y"; "x"])]
           [("B", [("z", attr_const "B" "z")]); ("A", [("old", attr_const "A" "old")])]
           "A").
  by apply (bool_decide_unpack _).
Defined.


(** ** The number of axioms *)

Lemma axioms_loop_length cfg type_sort str h cs : ∀ axs0 out0 axs out,
  axioms_loop cfg type_sort str h cs axs0 out0 = Ok (axs, out) →
  length axs = length axs0 + length cs
               + length (filter (λ p, emits_A cfg p.2 = true) cs).
Proof.
  induction cs as [|[i c] cs IH]; intros axs0 out0 axs out; simpl.
  - intros [= <- <-]. lia.
  - destruct (node_axioms cfg type_sort str h i c) as [[axs1 o1]|] eqn:Hn; simpl; [|done].
    intros Hl. rewrite (IH _ _ _ _ Hl), length_app.
    apply node_axioms_inv in Hn as (b & _ & [(He & a & _ & -> & _)|(He & -> & _)]).
    + rewrite filter_cons_True by done. simpl. lia.
    + rewrite filter_cons_False by (simpl; congruence). simpl. lia.
Qed.

Lemma emits_A_none cfg c :
  emits_A cfg c = negb (bool_decide (name c = NStr "none") && none_subtype_of_all cfg).
Proof.
  unfold emits_A. by destruct (bool_decide (name c = NStr "none")),
    (none_subtype_of_all cfg).
Qed.

Lemma emits_A_count cfg (cs : list (nat * ClassNode)) :
  length (filter (λ p, emits_A cfg p.2 = true) cs)
  + (if none_subtype_of_all cfg
     then length (filter (λ p, name p.2 = NStr "none") cs) else 0)
  = length cs.
Proof.
  induction cs as [|[i c] cs IH]; [by destruct (none_subtype_of_all cfg)|].
  rewrite !filter_cons. simpl.
  pose proof (emits_A_none cfg c) as He.
  destruct (emits_A cfg c) eqn:Hem;
    destruct (decide (name c = NStr "none")) as [Hn|Hn];
    destruct (none_subtype_of_all cfg) eqn:Hf; simpl in *;
    try rewrite (bool_decide_eq_true_2 _ Hn) in He;
    try rewrite (bool_decide_eq_false_2 _ Hn) in He;
    simpl in He; try discriminate;
    repeat case_decide; try done; simpl; lia.
Qed.

(** X12: when [create_subtype_axioms] returns, it returns two axioms for
    every node of [tree.all_children()], except that a node named ['none']
    gets one axiom only when [none_subtype_of_all] is set. *)
Theorem create_subtype_axioms_count cfg type_sort str fuel all_classes tree axs out :
  create_class_tree fuel all_classes = Done tree →
  create_subtype_axioms cfg type_sort str fuel all_classes = Done (axs, out) →
  length axs
  + (if none_subtype_of_all cfg
     then length (filter (λ p, name p.2 = NStr "none")
                    (nodes_of tree (all_children tree 0)))
     else 0)
  = 2 * length (nodes_of tree (all_children tree 0)).
Proof.
  intros Htree. unfold create_subtype_axioms. rewrite Htree.
  destruct (axioms_loop _ _ _ _ _ _ _) as [[axs' out']|] eqn:Hl; [|done].
  intros [= <- <-]. apply axioms_loop_length in Hl.
  pose proof (emits_A_count cfg (nodes_of tree (all_children tree 0))) as Hc.
  simpl in Hl. lia.
Qed.

Lemma none_class_axioms :
  ∃ axs out,
    create_class_tree 5 [(NStr "none", [NStr "object"]); (NStr "int", [NStr "object"])]
    = Done [mkNode (NStr "object") [] [1; 2]; mkNode (NStr "none") [0] [];
            mkNode (NStr "int") [0] []]
    ∧ create_subtype_axioms (mkConfig 0 0 2 true)
        (declare_type_sort (mkConfig 0 0 2 true) []) show_formula 5
        [(NStr "none", [NStr "object"]); (NStr "int", [NStr "object"])]
      = Done (axs, out).
Proof. eexists _, _. split; vm_compute; reflexivity. Qed.

Lemma create_subtype_axioms_count_witness :
  ∃ axs out,
    create_subtype_axioms (mkConfig 0 0 2 true)
      (declare_type_sort (mkConfig 0 0 2 true) []) show_formula 5
      [(NStr "none", [NStr "object"]); (NStr "int", [NStr "object"])]
    = Done (axs, out)
    ∧ length axs
      + length (filter (λ p, name p.2 = NStr "none")
                  (nodes_of [mkNode (NStr "object") [] [1; 2];
                             mkNode (NStr "none") [0] []; mkNode (NStr "int") [0] []]
                     (all_children [mkNode (NStr "object") [] [1; 2];
                                    mkNode (NStr "none") [0] [];
                                    mkNode (NStr "int") [0] []] 0)))
      = 2 * length (nodes_of [mkNode (NStr "object") [] [1; 2];
                              mkNode (NStr "none") [0] []; mkNode (NStr "int") [0] []]
                      (all_children [mkNode (NStr "object") [] [1; 2];
                                     mkNode (NStr "none") [0] [];
                                     mkNode (NStr "int") [0] []] 0)).
Proof.
  destruct none_class_axioms as (axs & out & Htree & Hax).
  exists axs, out. split; [done|].
  exact (create_subtype_axioms_count (mkConfig 0 0 2 true)
           (declare_type_sort (mkConfig 0 0 2 true) []) show_formula 5 _ _ axs out
           Htree Hax).
Defined.
